(** * Safety-supervised motion control of the AlphaMini scripts

    A shallow embedding of the safety variants of the repository:

    - [Corne]      : codes/corne_code_safety.py (obstacle avoidance, e-stop,
                     median filter, debounce, rate-limited gateway);
    - [LowBattery] : codes/final_codes/Low battery detection safety.py;
    - [Posture]    : codes/final_codes/Posture Stability Safety.py;
    - [Override]   : codes/final_codes/Override Control Safety.py.

    Python floats are embedded as rationals [Q]: every comparison of the
    scripts is then exact, and the arithmetic ([now - last], [0.5 * (a + b)])
    is the real-number one; a reading that is not a number is outside the
    model.  Python ints are [Z].  The module-level globals of a script are a
    record, to which the clock is added; a coroutine is a function in a
    state-and-trace monad whose trace lists the observable effects in order:
    console lines (by their templates), [asyncio.sleep] calls and actuator
    commands, the last two stamped with the clock value at which they start.

    The environment is a parameter: how long the robot takes to answer a
    command and with what result, by how much a sleep overshoots, what the
    sensor reads, what the operator types.  Only sleeps and the robot's
    answers take time.  A loop is run over the list of the readings or lines
    it is given.  The e-stop listener is a task of its own; in a sequential
    run its lines are read between two calls of the gateway, and for the
    script in which two tasks call the gateway the coroutines are also cut
    at their [await]s and interleaved by an event loop.

    A call that can raise returns an [outcome]: the value it returns or the
    exception it raises, which ends the coroutine that made the call unless
    the script catches it.  A line the operator types is a [string] whose
    characters are the code points below 256. *)

From Stdlib Require Import ZArith QArith Qabs List String Ascii Bool Lia Lqa.
From Stdlib Require Import Permutation Sorted.
Import ListNotations.

Set Implicit Arguments.

(** ** Rational comparisons as booleans *)

Definition Qltb (x y : Q) : bool := negb (Qle_bool y x).
Definition Qleb (x y : Q) : bool := Qle_bool x y.

Lemma Qltb_lt (x y : Q) : Qltb x y = true <-> x < y.
Proof.
  unfold Qltb. rewrite negb_true_iff. split; intro H.
  - apply Qnot_le_lt. intro L. apply Qle_bool_iff in L. congruence.
  - destruct (Qle_bool y x) eqn:E; [|reflexivity].
    apply Qle_bool_iff in E. exfalso. apply (Qlt_not_le _ _ H E).
Qed.

Lemma Qltb_ge (x y : Q) : Qltb x y = false <-> y <= x.
Proof.
  unfold Qltb. rewrite negb_false_iff. apply Qle_bool_iff.
Qed.

Lemma Qleb_le (x y : Q) : Qleb x y = true <-> x <= y.
Proof. apply Qle_bool_iff. Qed.

Lemma Qleb_gt (x y : Q) : Qleb x y = false <-> y < x.
Proof.
  unfold Qleb. split; intro H.
  - apply Qnot_le_lt. intro L. apply Qle_bool_iff in L. congruence.
  - destruct (Qle_bool x y) eqn:E; [|reflexivity].
    apply Qle_bool_iff in E. exfalso. apply (Qlt_not_le _ _ H E).
Qed.

(** Closed equations and closed comparisons of rationals, by evaluation. *)
Ltac decide_closed :=
  first [ reflexivity | cbv; first [ reflexivity | discriminate ] ].

(** ** Console lines: [str.strip] and [str.lower]

    A line is a [string] whose characters are the code points below 256; a
    line with a character beyond them is outside the model. *)

(** [str.isspace] on these code points: the blanks of ASCII (9-13, 28-32),
    NEL (U+0085) and the no-break space (U+00A0). *)
Definition is_space (c : ascii) : bool :=
  let n := nat_of_ascii c in
  (Nat.leb 9 n && Nat.leb n 13) || (Nat.leb 28 n && Nat.leb n 32)
  || Nat.eqb n 133 || Nat.eqb n 160.

(** The blanks among the code points below 256. *)
Definition blanks : list nat := [9; 10; 11; 12; 13; 28; 29; 30; 31; 32; 133; 160]%nat.

Lemma is_space_spec (c : ascii) :
  is_space c = true <-> In (nat_of_ascii c) blanks.
Proof.
  unfold is_space, blanks. cbv zeta.
  assert (B : (nat_of_ascii c < 256)%nat) by apply nat_ascii_bounded.
  set (n := nat_of_ascii c) in *. clearbody n. cbn [In].
  rewrite !orb_true_iff, !andb_true_iff, !Nat.leb_le, !Nat.eqb_eq. lia.
Qed.

Fixpoint lstrip (s : string) : string :=
  match s with
  | EmptyString => EmptyString
  | String c r => if is_space c then lstrip r else s
  end.

Fixpoint rstrip (s : string) : string :=
  match s with
  | EmptyString => EmptyString
  | String c r =>
      match rstrip r with
      | EmptyString => if is_space c then EmptyString else String c EmptyString
      | r' => String c r'
      end
  end.

Definition strip (s : string) : string := rstrip (lstrip s).

(** [str.lower] on one of these code points: the capitals of ASCII and of
    Latin-1 (U+00C0 to U+00DE, the multiplication sign U+00D7 apart) are 32
    below their small letters. *)
Definition lower_ascii (c : ascii) : ascii :=
  let n := nat_of_ascii c in
  if (Nat.leb 65 n && Nat.leb n 90)
     || (Nat.leb 192 n && Nat.leb n 222 && negb (Nat.eqb n 215))
  then ascii_of_nat (n + 32) else c.

Fixpoint lower (s : string) : string :=
  match s with
  | EmptyString => EmptyString
  | String c r => String (lower_ascii c) (lower r)
  end.

(** The texts that [lower] turns into the one letter [e]. *)
Lemma lower_is_e (s : string) :
  lower s = "e"%string <-> s = "e"%string \/ s = "E"%string.
Proof.
  split.
  - destruct s as [|c [|c' r]]; cbn [lower]; try discriminate.
    intros H. injection H as H.
    destruct c as [[] [] [] [] [] [] [] []]; vm_compute in H;
      try discriminate; auto.
  - intros [-> | ->]; reflexivity.
Qed.

(** A line as [sys.stdin.readline] returns it: the text and its newline. *)
Definition line_of (text : string) : string :=
  (text ++ String (ascii_of_nat 10) EmptyString)%string.

(** ** Observable effects *)

Section Effects.
Variable D : Type.   (* the script's MoveRobotDirection *)

Inductive event : Type :=
| Print (msg : string)                  (* a console or logging line (its template) *)
| Sleep (t : Q) (secs : Q)              (* await asyncio.sleep(secs), begun at clock t *)
| Execute (t : Q) (direction : D) (step : Z). (* MoveRobot(..).execute(), begun at t *)

Definition is_execute (e : event) : bool :=
  match e with Execute _ _ _ => true | _ => false end.

Definition is_sleep (e : event) : bool :=
  match e with Sleep _ _ => true | _ => false end.

(** The actuator commands of a trace, in order. *)
Definition commands (tr : list event) : list event := filter is_execute tr.

(** The sleeps of a trace, in order. *)
Definition sleeps (tr : list event) : list event := filter is_sleep tr.

(** The clock values at which the actuator commands of a trace were issued. *)
Fixpoint issue_times (tr : list event) : list Q :=
  match tr with
  | [] => []
  | Execute t _ _ :: tr' => t :: issue_times tr'
  | _ :: tr' => issue_times tr'
  end.

(** The direction and the step of each actuator command of a trace. *)
Fixpoint orders (tr : list event) : list (D * Z) :=
  match tr with
  | [] => []
  | Execute _ d n :: tr' => (d, n) :: orders tr'
  | _ :: tr' => orders tr'
  end.

(** [spaced gap lo ts]: the first time of [ts] is at least [gap] after [lo],
    and so is every time after its predecessor. *)
Fixpoint spaced (gap lo : Q) (ts : list Q) : Prop :=
  match ts with
  | [] => True
  | t :: ts' => lo + gap <= t /\ spaced gap t ts'
  end.

Lemma commands_app (a b : list event) :
  commands (a ++ b) = commands a ++ commands b.
Proof. unfold commands. apply filter_app. Qed.

Lemma issue_times_app (a b : list event) :
  issue_times (a ++ b) = issue_times a ++ issue_times b.
Proof.
  induction a as [|e a IH]; [reflexivity|].
  destruct e; cbn; rewrite IH; reflexivity.
Qed.

Lemma spaced_weaken (gap lo lo' : Q) (ts : list Q) :
  lo <= lo' -> spaced gap lo' ts -> spaced gap lo ts.
Proof.
  destruct ts as [|t ts]; cbn; [trivial|].
  intros Hle [H1 H2]. split; [lra | exact H2].
Qed.
(** An event is within the bounds when it is no command or a command whose
    step lies between them. *)
Definition step_within (lo hi : Z) (e : event) : Prop :=
  match e with
  | Execute _ _ n => (lo <= n <= hi)%Z
  | _ => True
  end.

Lemma orders_app (a b : list event) : orders (a ++ b) = orders a ++ orders b.
Proof.
  induction a as [|e a IH]; [reflexivity|].
  destruct e; cbn; rewrite IH; reflexivity.
Qed.

Lemma orders_commands (tr : list event) : orders (commands tr) = orders tr.
Proof.
  unfold commands. induction tr as [|e tr IH]; [reflexivity|].
  destruct e; cbn; rewrite ?IH; reflexivity.
Qed.

Lemma last_cons (t : Q) (ts : list Q) (lo : Q) :
  last (t :: ts) lo = last ts t.
Proof.
  revert t lo. induction ts as [|u ts IH]; intros t lo; [reflexivity|].
  change (last (t :: u :: ts) lo) with (last (u :: ts) lo).
  rewrite !(IH u). reflexivity.
Qed.

(** Two spaced lists of times, the second starting no earlier than the
    first ends, make a spaced list. *)
Lemma spaced_app (gap lo hi : Q) (a b : list Q) :
  spaced gap lo a -> last a lo <= hi -> spaced gap hi b ->
  spaced gap lo (a ++ b).
Proof.
  revert lo. induction a as [|t a IH]; intros lo Ha Hl Hb.
  - cbn in *. apply spaced_weaken with (lo' := hi); assumption.
  - destruct Ha as [H1 H2]. cbn [app spaced]. split; [exact H1|].
    apply IH; [exact H2| |exact Hb]. rewrite last_cons in Hl. exact Hl.
Qed.

Lemma last_app_cons (a b : list Q) (u x y : Q) :
  last (a ++ u :: b) x = last (u :: b) y.
Proof.
  revert x. induction a as [|t a IH]; intros x; cbn [app].
  - rewrite !last_cons. reflexivity.
  - rewrite last_cons. apply IH.
Qed.

Lemma last_app_le (a b : list Q) (lo hi y : Q) :
  last a lo <= hi -> last b hi <= y -> last (a ++ b) lo <= y.
Proof.
  intros Ha Hb. destruct b as [|u b].
  - rewrite app_nil_r. cbn in Hb. lra.
  - rewrite (last_app_cons a b u lo hi). exact Hb.
Qed.
End Effects.

Arguments Print {D} msg.
Arguments Sleep {D} t secs.
Arguments Execute {D} t direction step.

(** ** The state-and-trace monad *)

Section Monad.
Variables St Ev : Type.

Definition M (A : Type) : Type := St -> A * St * list Ev.

Definition ret {A} (a : A) : M A := fun s => (a, s, []).

Definition bind {A B} (m : M A) (k : A -> M B) : M B :=
  fun s =>
    let '(a, s1, t1) := m s in
    let '(b, s2, t2) := k a s1 in
    (b, s2, t1 ++ t2).

Definition get : M St := fun s => (s, s, []).
Definition modify (f : St -> St) : M unit := fun s => (tt, f s, []).
Definition emit (e : Ev) : M unit := fun s => (tt, s, [e]).

Definition value {A} (r : A * St * list Ev) : A := fst (fst r).
Definition final {A} (r : A * St * list Ev) : St := snd (fst r).
Definition trace {A} (r : A * St * list Ev) : list Ev := snd r.

Lemma value_of {A} (a : A) (s : St) (t : list Ev) : value (a, s, t) = a.
Proof. reflexivity. Qed.

Lemma final_of {A} (a : A) (s : St) (t : list Ev) : final (a, s, t) = s.
Proof. reflexivity. Qed.

Lemma trace_of {A} (a : A) (s : St) (t : list Ev) : trace (a, s, t) = t.
Proof. reflexivity. Qed.

Lemma bind_final {A B} (m : M A) (k : A -> M B) (s : St) :
  final (bind m k s) = final (k (value (m s)) (final (m s))).
Proof.
  unfold bind, final, value. destruct (m s) as [[a s1] t1]. cbn.
  destruct (k a s1) as [[b s2] t2]. reflexivity.
Qed.

Lemma bind_value {A B} (m : M A) (k : A -> M B) (s : St) :
  value (bind m k s) = value (k (value (m s)) (final (m s))).
Proof.
  unfold bind, final, value. destruct (m s) as [[a s1] t1]. cbn.
  destruct (k a s1) as [[b s2] t2]. reflexivity.
Qed.

Lemma bind_trace {A B} (m : M A) (k : A -> M B) (s : St) :
  trace (bind m k s) = trace (m s) ++ trace (k (value (m s)) (final (m s))).
Proof.
  unfold bind, final, value, trace. destruct (m s) as [[a s1] t1]. cbn.
  destruct (k a s1) as [[b s2] t2]. reflexivity.
Qed.
(** The monad laws, on runs. *)
Lemma bind_ret_l {A B} (a : A) (k : A -> M B) (s : St) :
  bind (ret a) k s = k a s.
Proof. unfold bind, ret. destruct (k a s) as [[b s2] t2]. reflexivity. Qed.

Lemma bind_get {B} (k : St -> M B) (s : St) : bind get k s = k s s.
Proof. unfold bind, get. destruct (k s s) as [[b s2] t2]. reflexivity. Qed.

Lemma bind_assoc {A B C} (m : M A) (k : A -> M B) (h : B -> M C) (s : St) :
  bind (bind m k) h s = bind m (fun a => bind (k a) h) s.
Proof.
  unfold bind. destruct (m s) as [[a s1] t1].
  destruct (k a s1) as [[b s2] t2]. destruct (h b s2) as [[c s3] t3].
  rewrite app_assoc. reflexivity.
Qed.

Lemma bind_run {A B} (m : M A) (k : A -> M B) (s : St)
      (a : A) (s1 : St) (t1 : list Ev) :
  m s = (a, s1, t1) ->
  bind m k s = (value (k a s1), final (k a s1), t1 ++ trace (k a s1)).
Proof.
  intros H. unfold bind. rewrite H. destruct (k a s1) as [[b s2] t2].
  reflexivity.
Qed.

Lemma unit_run (r : unit * St * list Ev) : (value r, final r, trace r) = r.
Proof. destruct r as [[[] s] t]. reflexivity. Qed.

(** What holds of every event of two computations holds of every event of
    their sequence. *)
Lemma bind_Forall (P : Ev -> Prop) {A B} (m : M A) (k : A -> M B) (s : St) :
  Forall P (trace (m s)) ->
  (forall a s', Forall P (trace (k a s'))) ->
  Forall P (trace (bind m k s)).
Proof.
  intros Hm Hk. rewrite bind_trace. apply Forall_app. split; [exact Hm|apply Hk].
Qed.

(** A computation keeps a property of the state when it leaves it true
    wherever it finds it true. *)
Definition keeps (I : St -> Prop) {A} (m : M A) : Prop :=
  forall s, I s -> I (final (m s)).

Lemma keeps_bind (I : St -> Prop) {A B} (m : M A) (k : A -> M B) :
  keeps I m -> (forall a, keeps I (k a)) -> keeps I (bind m k).
Proof.
  intros Hm Hk s Hs. rewrite bind_final. apply Hk. apply Hm. exact Hs.
Qed.
End Monad.


Arguments ret {St Ev A} a.
Arguments bind {St Ev A B} m k.
Arguments get {St Ev}.
Arguments modify {St Ev} f.
Arguments emit {St Ev} e.

(** Run the first computation of a sequence, once it is known what it
    gives. *)
Ltac seg :=
  rewrite ?bind_assoc; erewrite bind_run by reflexivity; cbv beta;
  cbn [value final trace fst snd].

Declare Scope eff_scope.
Delimit Scope eff_scope with eff.
Notation "x <- m ;; k" := (bind m (fun x => k))
  (at level 61, m at next level, right associativity) : eff_scope.
Notation "m ;; k" := (bind m (fun _ => k))
  (at level 61, right associativity) : eff_scope.

(** ** Pacing: commands kept a gap apart *)

Section Pacing.
Variables St D : Type.
Variable mark : St -> Q.   (* a command may be issued [gap] after the mark *)
Variable gap : Q.

(** A computation is paced when, from any state, its commands are issued at
    least [gap] after the mark and after one another, and it leaves the mark
    no earlier than its last command. *)
Definition paced {A} (m : M St (event D) A) : Prop :=
  forall s,
    spaced gap (mark s) (issue_times (trace (m s)))
    /\ last (issue_times (trace (m s))) (mark s) <= mark (final (m s)).

Lemma paced_bind {A B} (m : M St (event D) A) (k : A -> M St (event D) B) :
  paced m -> (forall a, paced (k a)) -> paced (bind m k).
Proof.
  intros Hm Hk s. destruct (Hm s) as [S1 L1].
  destruct (Hk (value (m s)) (final (m s))) as [S2 L2].
  rewrite bind_trace, bind_final, issue_times_app. split.
  - apply spaced_app with (hi := mark (final (m s))); assumption.
  - apply last_app_le with (hi := mark (final (m s))); assumption.
Qed.

(** A computation that issues no command and does not move the mark back is
    paced. *)
Lemma paced_quiet {A} (m : M St (event D) A) :
  (forall s, issue_times (trace (m s)) = [] /\ mark s <= mark (final (m s))) ->
  paced m.
Proof.
  intros H s. destruct (H s) as [E L]. rewrite E. split; [exact I|exact L].
Qed.

Lemma paced_ret {A} (a : A) : paced (ret a).
Proof. apply paced_quiet. intros s. split; [reflexivity|apply Qle_refl]. Qed.
End Pacing.

(** ** Exceptions *)

(** What a call gives: the value it returns, or the exception it raises. *)
Inductive outcome (A : Type) : Type :=
| Returned (a : A)
| Raised (exn : string).
Arguments Returned {A} a.
Arguments Raised {A} exn.

Section Raising.
Variables St Ev : Type.

(** [attempt m k] runs [m] and goes on with [k] on what [m] returns; an
    exception that [m] raises ends the sequence, which raises it. *)
Definition attempt {A B} (m : M St Ev (outcome A))
           (k : A -> M St Ev (outcome B)) : M St Ev (outcome B) :=
  bind m (fun r => match r with
                   | Returned a => k a
                   | Raised e => ret (Raised e)
                   end).

Definition raise {A} (e : string) : M St Ev (outcome A) := ret (Raised e).

Lemma attempt_returned {A B} (m : M St Ev (outcome A))
      (k : A -> M St Ev (outcome B)) (s : St) (a : A) :
  value (m s) = Returned a ->
  attempt m k s
  = (value (k a (final (m s))), final (k a (final (m s))),
     trace (m s) ++ trace (k a (final (m s)))).
Proof.
  unfold attempt, bind, value, final, trace.
  destruct (m s) as [[r s1] t1]. cbn. intros ->.
  destruct (k a s1) as [[b s2] t2]. reflexivity.
Qed.

Lemma attempt_raised {A B} (m : M St Ev (outcome A))
      (k : A -> M St Ev (outcome B)) (s : St) (e : string) :
  value (m s) = Raised e ->
  attempt m k s = (Raised e, final (m s), trace (m s)).
Proof.
  unfold attempt, bind, value, final, trace, ret.
  destruct (m s) as [[r s1] t1]. cbn. intros ->.
  rewrite app_nil_r. reflexivity.
Qed.

Lemma returned_run {A B} (m : M St Ev (outcome A))
      (k : A -> M St Ev (outcome B)) (s : St) (a : A) (s1 : St)
      (t1 : list Ev) :
  m s = (Returned a, s1, t1) ->
  attempt m k s = (value (k a s1), final (k a s1), t1 ++ trace (k a s1)).
Proof.
  intros H. rewrite (@attempt_returned _ _ m k s a) by (rewrite H; reflexivity).
  rewrite H. reflexivity.
Qed.

Lemma raised_run {A B} (m : M St Ev (outcome A))
      (k : A -> M St Ev (outcome B)) (s : St) (e : string) (s1 : St)
      (t1 : list Ev) :
  m s = (Raised e, s1, t1) -> attempt m k s = (Raised e, s1, t1).
Proof.
  intros H. rewrite (@attempt_raised _ _ m k s e) by (rewrite H; reflexivity).
  rewrite H. reflexivity.
Qed.

(** A sequence depends on its first computation only through its run. *)
Lemma attempt_same {A B} (m m' : M St Ev (outcome A))
      (k : A -> M St Ev (outcome B)) (s : St) :
  m s = m' s -> attempt m k s = attempt m' k s.
Proof. intros H. unfold attempt, bind. rewrite H. reflexivity. Qed.

Lemma attempt_ext {A B} (m : M St Ev (outcome A))
      (k k' : A -> M St Ev (outcome B)) (s : St) :
  (forall a s', k a s' = k' a s') -> attempt m k s = attempt m k' s.
Proof.
  intros H. unfold attempt, bind. destruct (m s) as [[[a|e] s1] t1];
    [rewrite H|]; reflexivity.
Qed.

Lemma attempt_assoc {A B C} (m : M St Ev (outcome A))
      (k : A -> M St Ev (outcome B)) (h : B -> M St Ev (outcome C)) (s : St) :
  attempt (attempt m k) h s = attempt m (fun a => attempt (k a) h) s.
Proof.
  unfold attempt, bind, ret.
  destruct (m s) as [[[a|e] s1] t1]; [|rewrite !app_nil_r; reflexivity].
  destruct (k a s1) as [[[b|e] s2] t2];
    [destruct (h b s2) as [[c s3] t3]|]; rewrite ?app_nil_r, ?app_assoc;
    reflexivity.
Qed.

Lemma attempt_ret {A B} (a : A) (k : A -> M St Ev (outcome B)) (s : St) :
  attempt (ret (Returned a)) k s = k a s.
Proof.
  unfold attempt, bind, ret. destruct (k a s) as [[b s2] t2]. reflexivity.
Qed.

Lemma attempt_Forall (P : Ev -> Prop) {A B} (m : M St Ev (outcome A))
      (k : A -> M St Ev (outcome B)) (s : St) :
  Forall P (trace (m s)) ->
  (forall a s', Forall P (trace (k a s'))) ->
  Forall P (trace (attempt m k s)).
Proof.
  intros Hm Hk. unfold attempt. apply bind_Forall; [exact Hm|].
  intros [a|e] s'; [apply Hk|constructor].
Qed.

Lemma keeps_attempt (I : St -> Prop) {A B} (m : M St Ev (outcome A))
      (k : A -> M St Ev (outcome B)) :
  keeps I m -> (forall a, keeps I (k a)) -> keeps I (attempt m k).
Proof.
  intros Hm Hk. unfold attempt. apply keeps_bind; [exact Hm|].
  intros [a|e]; [apply Hk|]. intros s Hs. exact Hs.
Qed.
End Raising.

Arguments raise {St Ev A} e.

Notation "x <~ m ;; k" := (attempt m (fun x => k))
  (at level 61, m at next level, right associativity) : eff_scope.

Lemma paced_attempt {St D : Type} (mark : St -> Q) (gap : Q) {A B}
      (m : M St (event D) (outcome A)) (k : A -> M St (event D) (outcome B)) :
  paced mark gap m -> (forall a, paced mark gap (k a)) ->
  paced mark gap (attempt m k).
Proof.
  intros Hm Hk. unfold attempt. apply paced_bind; [exact Hm|].
  intros [a|e]; [apply Hk|apply paced_ret].
Qed.

(** The outcome of one pass through a [while] body. *)
Inductive flow := Next | Break.

(** The hazard levels of the specification. *)
Inductive HazardLevel := Clear | Soft | Hard.

(** * codes/corne_code_safety.py *)

Module Corne.

Inductive MoveRobotDirection := FORWARD | BACKWARD | LEFTWARD | RIGHTWARD.

(** Configuration constants, lines 19-35. *)
Definition STEP_SIZE : Z := 1.
Definition BACKWARD_STEPS : Z := 2.
Definition SLEEP_DURATION : Q := 2.
Definition SAFE_DISTANCE_CM : Q := 20.
Definition E_STOP_KEY : string := "e".
Definition MEDIAN_WINDOW : nat := 3.
Definition OBSTACLE_CONFIRM_READS : Z := 2.
Definition HARD_STOP_CM : Q := 8.
Definition SENSOR_FAILURE_LIMIT : Z := 5.
Definition MAX_STEP : Z := 6.
Definition MIN_COMMAND_INTERVAL : Q := 4 # 10.

(** The console line that reports a confirmed obstacle, lines 189-190. *)
Definition CONFIRM_LINE : string :=
  "Obstacle confirmed ({_consecutive_close} readings). Backing up {BACKWARD_STEPS} and turning right.".

(** The module-level globals, lines 39-43, and the monotonic clock. *)
Record globals : Type := mkGlobals {
  estop_event : bool;
  _last_cmd_ts : Q;
  _distance_buf : list Q;
  _consecutive_close : Z;
  _consecutive_fail : Z;
  clock : Q
}.

Definition set_estop (s : globals) : globals :=
  mkGlobals true (_last_cmd_ts s) (_distance_buf s)
            (_consecutive_close s) (_consecutive_fail s) (clock s).
Definition set_last_cmd_ts (t : Q) (s : globals) : globals :=
  mkGlobals (estop_event s) t (_distance_buf s)
            (_consecutive_close s) (_consecutive_fail s) (clock s).
Definition set_distance_buf (b : list Q) (s : globals) : globals :=
  mkGlobals (estop_event s) (_last_cmd_ts s) b
            (_consecutive_close s) (_consecutive_fail s) (clock s).
Definition set_consecutive_close (n : Z) (s : globals) : globals :=
  mkGlobals (estop_event s) (_last_cmd_ts s) (_distance_buf s)
            n (_consecutive_fail s) (clock s).
Definition set_consecutive_fail (n : Z) (s : globals) : globals :=
  mkGlobals (estop_event s) (_last_cmd_ts s) (_distance_buf s)
            (_consecutive_close s) n (clock s).
Definition set_clock (t : Q) (s : globals) : globals :=
  mkGlobals (estop_event s) (_last_cmd_ts s) (_distance_buf s)
            (_consecutive_close s) (_consecutive_fail s) t.

(** The globals as the script initialises them, with the clock at [t0]. *)
Definition initial (t0 : Q) : globals := mkGlobals false 0 [] 0 0 t0.

Definition ev : Type := event MoveRobotDirection.
Definition Co : Type -> Type := M globals ev.

(** [sorted(values)]: a stable insertion sort. *)
Fixpoint insert (x : Q) (l : list Q) : list Q :=
  match l with
  | [] => [x]
  | y :: l' => if Qltb x y then x :: l else y :: insert x l'
  end.

Definition sorted (values : list Q) : list Q :=
  fold_left (fun acc x => insert x acc) values [].

(** [median], lines 103-110. *)
Definition median (values : list Q) : option Q :=
  match values with
  | [] => None
  | _ =>
      let s := sorted values in
      let mid := (List.length s / 2)%nat in
      if Nat.eqb (List.length s mod 2) 1 then Some (nth mid s 0)
      else Some ((1 # 2) * (nth (mid - 1) s 0 + nth mid s 0))
  end.

(** [deque(maxlen=n).append(x)]: the oldest element leaves a full deque. *)
Definition deque_append (maxlen : nat) (x : Q) (buf : list Q) : list Q :=
  let b := buf ++ [x] in skipn (List.length b - maxlen) b.

(** What drives a run of the gateway: its callers, the sleeps between the
    calls, and the lines the e-stop listener reads meanwhile. *)
Inductive action :=
| Dispatch (direction : MoveRobotDirection) (step : Z)
| Await (secs : Q)
| Operator (line : string).

(** The robot and the scheduler of the examples: every command is answered
    after a tenth of a second, with success, and no sleep overshoots. *)
Definition steady_robot : Q -> MoveRobotDirection -> Z -> Q * bool :=
  fun _ _ _ => (1 # 10, true).
Definition punctual : Q -> Q := fun _ => 0.

Section Script.
(** The environment: [robot t d n] is how long the robot takes to answer the
    command [(d, n)] issued at [t] and whether it reports success;
    [oversleep t] is by how much a sleep begun at [t] overshoots. *)
Variable robot : Q -> MoveRobotDirection -> Z -> Q * bool.
Variable oversleep : Q -> Q.

Open Scope eff_scope.

Definition print (msg : string) : Co unit := emit (Print msg).

Definition monotonic : Co Q := fun s => (clock s, s, []).

Definition sleep (secs : Q) : Co unit :=
  fun s =>
    let t := clock s in
    let d := if Qleb secs 0 then 0 else secs in
    (tt, set_clock (t + d + oversleep t) s, [Sleep t secs]).

Definition execute (direction : MoveRobotDirection) (step : Z) : Co bool :=
  fun s =>
    let t := clock s in
    (snd (robot t direction step),
     set_clock (t + fst (robot t direction step)) s,
     [Execute t direction step]).

(** [safe_move_robot], lines 61-88. *)
Definition safe_move_robot (direction : MoveRobotDirection) (step : Z)
  : Co unit :=
  s <- get ;;
  if estop_event s then
    print "[SAFETY] E-Stop set: ignoring move command."
  else
    let step := Z.max 1 (Z.min step MAX_STEP) in
    now <- monotonic ;;
    let dt := now - _last_cmd_ts s in
    (if Qltb dt MIN_COMMAND_INTERVAL
     then sleep (MIN_COMMAND_INTERVAL - dt) else ret tt) ;;
    ok <- execute direction step ;;
    ts <- monotonic ;;
    modify (set_last_cmd_ts ts) ;;
    if ok then ret tt
    else print "[WARN] Move command failed! Direction: {direction.name}, step={step}".

(** One line read by [estop_listener], lines 122-130. *)
Definition estop_listener (line : string) : Co unit :=
  if String.eqb (lower (strip line)) E_STOP_KEY then
    print "[SAFETY] E-Stop requested by user." ;;
    modify set_estop
  else ret tt.

(** The body of [avoid_obstacles] from the filtered value on, lines 172-200. *)
Definition react (filt : Q) : Co flow :=
  print "Distance (raw: {distance:.1f} cm, median: {filt:.1f} cm)" ;;
  if Qltb filt HARD_STOP_CM then
    print "[SAFETY] HARD STOP: {filt:.1f} cm < {HARD_STOP_CM} cm." ;;
    safe_move_robot BACKWARD (Z.max BACKWARD_STEPS 2) ;;
    modify set_estop ;;
    ret Break
  else
    (if Qltb filt SAFE_DISTANCE_CM
     then modify (fun s => set_consecutive_close (_consecutive_close s + 1) s)
     else modify (set_consecutive_close 0)) ;;
    s <- get ;;
    if (OBSTACLE_CONFIRM_READS <=? _consecutive_close s)%Z then
      print CONFIRM_LINE ;;
      safe_move_robot BACKWARD BACKWARD_STEPS ;;
      safe_move_robot RIGHTWARD 2 ;;
      modify (set_consecutive_close 0) ;;
      sleep SLEEP_DURATION ;;
      ret Next
    else
      print "Path clear. Moving forward." ;;
      safe_move_robot FORWARD STEP_SIZE ;;
      sleep SLEEP_DURATION ;;
      ret Next.

(** [get_distance_cm], lines 91-100; [reading] is what the sensor answers,
    [None] when the call does not succeed. *)
Definition get_distance_cm (reading : option Q) : Co (option Q) :=
  match reading with
  | Some distance => ret (Some distance)
  | None =>
      print "[WARN] Failed to get distance reading. Check robot's status." ;;
      ret None
  end.

(** One pass through the [while] body of [avoid_obstacles], lines 144-200. *)
Definition iteration (reading : option Q) : Co flow :=
  distance <- get_distance_cm reading ;;
  match distance with
  | None =>
      modify (fun s => set_consecutive_fail (_consecutive_fail s + 1) s) ;;
      print "[SAFETY] Sensor failure #{_consecutive_fail}/{SENSOR_FAILURE_LIMIT}" ;;
      s <- get ;;
      if (SENSOR_FAILURE_LIMIT <=? _consecutive_fail s)%Z then
        print "[SAFETY] Too many sensor failures. Entering safe stop." ;;
        modify set_estop ;;
        ret Break
      else
        sleep (1 # 2) ;;
        ret Next
  | Some distance =>
      modify (set_consecutive_fail 0) ;;
      if Qleb distance 0 || Qltb 5000 distance then
        print "[SAFETY] Discarding out-of-range distance: {distance}" ;;
        sleep (2 # 10) ;;
        ret Next
      else
        modify (fun s =>
          set_distance_buf
            (deque_append MEDIAN_WINDOW distance (_distance_buf s)) s) ;;
        s <- get ;;
        match median (_distance_buf s) with
        | None => sleep (1 # 10) ;; ret Next
        | Some filt => react filt
        end
  end.

(** [avoid_obstacles], lines 143-200, over the readings the sensor gives. *)
Fixpoint avoid_obstacles (readings : list (option Q)) : Co unit :=
  match readings with
  | [] => ret tt
  | distance :: rest =>
      s <- get ;;
      if estop_event s then ret tt
      else
        f <- iteration distance ;;
        match f with
        | Break => ret tt
        | Next => avoid_obstacles rest
        end
  end.

(** A run of gateway calls, sleeps and listener lines. *)
Definition perform (a : action) : Co unit :=
  match a with
  | Dispatch direction step => safe_move_robot direction step
  | Await secs => sleep secs
  | Operator line => estop_listener line
  end.

Fixpoint run (acts : list action) : Co unit :=
  match acts with
  | [] => ret tt
  | a :: rest => perform a ;; run rest
  end.

(** The clock value at which a call of the gateway, made in [s] with the
    e-stop flag clear, issues its command. *)
Definition issue_time (s : globals) : Q :=
  let dt := clock s - _last_cmd_ts s in
  if Qltb dt MIN_COMMAND_INTERVAL
  then clock s + (MIN_COMMAND_INTERVAL - dt) + oversleep (clock s)
  else clock s.

(** The state a live call of the gateway leaves, its command issued at [t]
    and answered after [took]. *)
Definition after_command (t took : Q) (s : globals) : globals :=
  set_last_cmd_ts (t + took) (set_clock (t + took) s).

(** The rate-limit sleep of a live call made in [s], if it needs one. *)
Definition waiting (s : globals) : list ev :=
  let dt := clock s - _last_cmd_ts s in
  if Qltb dt MIN_COMMAND_INTERVAL
  then [Sleep (clock s) (MIN_COMMAND_INTERVAL - dt)] else [].

(** The warning of a live call whose command the robot did not confirm. *)
Definition reported (ok : bool) : list ev :=
  if ok then []
  else [Print "[WARN] Move command failed! Direction: {direction.name}, step={step}"].

(** The counter of close readings after the filtered value [filt]. *)
Definition counted (filt : Q) (s : globals) : Z :=
  if Qltb filt SAFE_DISTANCE_CM then (_consecutive_close s + 1)%Z else 0%Z.

(** ** The gateway *)

Lemma commands_waiting (s : globals) : commands (waiting s) = [].
Proof. unfold waiting. cbn zeta. destruct (Qltb _ _); reflexivity. Qed.

Lemma commands_reported (ok : bool) : commands (reported ok) = [].
Proof. destruct ok; reflexivity. Qed.

Lemma issue_times_waiting (s : globals) : issue_times (waiting s) = [].
Proof. unfold waiting. cbn zeta. destruct (Qltb _ _); reflexivity. Qed.

Lemma issue_times_reported (ok : bool) : issue_times (reported ok) = [].
Proof. destruct ok; reflexivity. Qed.

Lemma commands_print (msg : string) (tr : list ev) :
  commands (Print msg :: tr) = commands tr.
Proof. reflexivity. Qed.

Lemma commands_sleep (t secs : Q) (tr : list ev) :
  commands (Sleep t secs :: tr) = commands tr.
Proof. reflexivity. Qed.

Lemma commands_execute (t : Q) d (n : Z) (tr : list ev) :
  commands (Execute t d n :: tr) = Execute t d n :: commands tr.
Proof. reflexivity. Qed.

Lemma commands_nil : commands (@nil ev) = [].
Proof. reflexivity. Qed.

Create Rewrite HintDb corne_trace.
Hint Rewrite (@commands_app MoveRobotDirection) commands_waiting
  commands_reported commands_print commands_sleep commands_execute
  commands_nil app_nil_r : corne_trace.

Lemma safe_move_robot_suppressed (s : globals) d n :
  estop_event s = true ->
  safe_move_robot d n s
  = (tt, s, [Print "[SAFETY] E-Stop set: ignoring move command."]).
Proof.
  intros H. unfold safe_move_robot, bind, get, print, emit. cbn.
  rewrite H. reflexivity.
Qed.

Lemma safe_move_robot_live (s : globals) d n :
  estop_event s = false ->
  safe_move_robot d n s
  = (let t := issue_time s in
     let step := Z.max 1 (Z.min n MAX_STEP) in
     let reply := robot t d step in
     (tt, after_command t (fst reply) s,
      waiting s ++ Execute t d step :: reported (snd reply))).
Proof.
  intros H.
  unfold safe_move_robot, issue_time, after_command, waiting, reported, bind,
    get, monotonic, modify, print, emit, ret, sleep, execute.
  cbn. rewrite H.
  destruct (Qltb (clock s - _last_cmd_ts s) MIN_COMMAND_INTERVAL) eqn:E; cbn.
  - assert (G : Qleb (MIN_COMMAND_INTERVAL - (clock s - _last_cmd_ts s)) 0 = false).
    { apply Qleb_gt. apply Qltb_lt in E. lra. }
    rewrite G.
    destruct (snd (robot _ d _)); reflexivity.
  - destruct (snd (robot _ d _)); reflexivity.
Qed.

Lemma issue_time_floor (s : globals) :
  (forall t, 0 <= oversleep t) ->
  _last_cmd_ts s + MIN_COMMAND_INTERVAL <= issue_time s /\ clock s <= issue_time s.
Proof.
  intros Hov. unfold issue_time. cbn zeta.
  destruct (Qltb (clock s - _last_cmd_ts s) MIN_COMMAND_INTERVAL) eqn:E.
  - apply Qltb_lt in E. specialize (Hov (clock s)). split; lra.
  - apply Qltb_ge in E. split; lra.
Qed.

Lemma estop_listener_keeps (line : string) (s : globals) :
  _last_cmd_ts (final (estop_listener line s)) = _last_cmd_ts s
  /\ issue_times (trace (estop_listener line s)) = []
  /\ commands (trace (estop_listener line s)) = []
  /\ (estop_event s = true -> estop_event (final (estop_listener line s)) = true).
Proof.
  unfold estop_listener.
  destruct (String.eqb _ _); repeat split; auto.
Qed.

(** Once the flag is set, a run issues no command and the flag stays set. *)
Lemma run_suppressed (acts : list action) :
  forall s, estop_event s = true ->
  commands (trace (run acts s)) = []
  /\ estop_event (final (run acts s)) = true
  /\ _last_cmd_ts (final (run acts s)) = _last_cmd_ts s.
Proof.
  induction acts as [|a acts IH]; intros s H; [repeat split; assumption|].
  cbn [run]. rewrite bind_trace, bind_final, commands_app.
  assert (P : commands (trace (perform a s)) = []
              /\ estop_event (final (perform a s)) = true
              /\ _last_cmd_ts (final (perform a s)) = _last_cmd_ts s).
  { destruct a as [d n|secs|line]; cbn [perform].
    - rewrite safe_move_robot_suppressed by assumption. repeat split; assumption.
    - repeat split; assumption.
    - destruct (estop_listener_keeps line s) as (L & _ & C & E). auto. }
  destruct P as (C & E & L).
  destruct (IH _ E) as (C' & E' & L').
  rewrite C, C', E', L', L. repeat split.
Qed.

Lemma run_app (pre post : list action) :
  forall s,
  trace (run (pre ++ post) s)
  = trace (run pre s) ++ trace (run post (final (run pre s))).
Proof.
  induction pre as [|a pre IH]; intros s; [reflexivity|].
  cbn [app run]. rewrite !bind_trace, bind_final, IH, app_assoc. reflexivity.
Qed.

(** From the line [e] on, a run issues no further command. *)
Lemma run_after_estop (pre post : list action) (s : globals) :
  commands (trace (run (pre ++ Operator (line_of "e") :: post) s))
  = commands (trace (run pre s)).
Proof.
  rewrite run_app, commands_app. cbn [run].
  rewrite bind_trace, commands_app.
  pose proof (run_suppressed post
                (final (perform (Operator (line_of "e")) (final (run pre s))))
                eq_refl) as (C & _).
  rewrite C. cbn [perform].
  destruct (estop_listener_keeps (line_of "e") (final (run pre s)))
    as (_ & _ & C' & _).
  rewrite C'. apply app_nil_r.
Qed.

(** The commands of a run keep the floor between them, and from the last
    command before the run. *)
Lemma run_spaced (acts : list action) :
  (forall t d n, 0 <= fst (robot t d n)) ->
  (forall t, 0 <= oversleep t) ->
  forall s,
  spaced MIN_COMMAND_INTERVAL (_last_cmd_ts s) (issue_times (trace (run acts s))).
Proof.
  intros Hrobot Hov.
  induction acts as [|a acts IH]; intros s; [exact I|].
  cbn [run]. rewrite bind_trace, issue_times_app.
  destruct a as [d n|secs|line]; cbn [perform].
  - destruct (estop_event s) eqn:E.
    + rewrite safe_move_robot_suppressed by assumption. apply IH.
    + rewrite safe_move_robot_live by assumption. cbn zeta.
      unfold final, value, trace. cbn [fst snd].
      rewrite issue_times_app, issue_times_waiting.
      cbn [app issue_times]. rewrite issue_times_reported.
      cbn [app]. split; [apply issue_time_floor; assumption|].
      eapply spaced_weaken; [|apply IH].
      cbn. specialize (Hrobot (issue_time s) d (Z.max 1 (Z.min n MAX_STEP))). lra.
  - apply (IH (final (sleep secs s))).
  - destruct (estop_listener_keeps line s) as (L & T & _).
    rewrite T. cbn [app]. rewrite <- L. apply IH.
Qed.

(** C10. A call of [safe_move_robot] made while the e-stop flag is set leaves
    every global as it was, the time stamp [_last_cmd_ts] and the clock
    among them: it neither sleeps nor issues a command, whatever the
    direction and the step. *)
Theorem estop_dispatch_frame (s : globals) d n :
  estop_event s = true ->
  final (safe_move_robot d n s) = s
  /\ _last_cmd_ts (final (safe_move_robot d n s)) = _last_cmd_ts s
  /\ sleeps (trace (safe_move_robot d n s)) = []
  /\ commands (trace (safe_move_robot d n s)) = [].
Proof.
  intros H. rewrite safe_move_robot_suppressed by assumption.
  repeat split.
Qed.

(** ** The loop body *)

Lemma react_hard (s : globals) (filt : Q) :
  estop_event s = false -> filt < HARD_STOP_CM ->
  react filt s
  = (let t := issue_time s in
     let reply := robot t BACKWARD 2 in
     (Break, set_estop (after_command t (fst reply) s),
      Print "Distance (raw: {distance:.1f} cm, median: {filt:.1f} cm)"
      :: Print "[SAFETY] HARD STOP: {filt:.1f} cm < {HARD_STOP_CM} cm."
      :: waiting s ++ Execute t BACKWARD 2 :: reported (snd reply))).
Proof.
  intros H L. apply Qltb_lt in L.
  unfold react. unfold bind at 1. cbn [print emit]. rewrite L.
  unfold bind. cbn [print emit].
  rewrite safe_move_robot_live by assumption. cbn zeta. cbn [modify ret app].
  rewrite app_nil_r. reflexivity.
Qed.

Lemma react_confirmed (s : globals) (filt : Q) :
  estop_event s = false -> HARD_STOP_CM <= filt ->
  (OBSTACLE_CONFIRM_READS <= counted filt s)%Z ->
  value (react filt s) = Next
  /\ _consecutive_close (final (react filt s)) = 0%Z
  /\ estop_event (final (react filt s)) = false
  /\ exists t1 t2,
       commands (trace (react filt s))
       = [Execute t1 BACKWARD 2; Execute t2 RIGHTWARD 2]
       /\ In (Print CONFIRM_LINE)
             (trace (react filt s)).
Proof.
  intros H L C. apply Qltb_ge in L. apply Z.leb_le in C.
  unfold react, counted in *. unfold bind at 1. cbn [print emit]. rewrite L.
  unfold bind.
  destruct (Qltb filt SAFE_DISTANCE_CM); cbn [modify get print emit];
    cbn [_consecutive_close set_consecutive_close]; rewrite C;
    cbn [print emit];
    rewrite safe_move_robot_live by exact H; cbv beta iota zeta;
    rewrite safe_move_robot_live by exact H; cbv beta iota zeta;
    cbn [modify sleep ret]; unfold value, final, trace; cbn [fst snd];
    (split; [reflexivity|]; split; [reflexivity|]; split; [exact H|];
     eexists; eexists; split;
     [ autorewrite with corne_trace; cbn [app]; autorewrite with corne_trace;
       reflexivity
     | right; left; reflexivity ]).
Qed.

Lemma react_pending (s : globals) (filt : Q) :
  estop_event s = false -> HARD_STOP_CM <= filt ->
  (counted filt s < OBSTACLE_CONFIRM_READS)%Z ->
  value (react filt s) = Next
  /\ _consecutive_close (final (react filt s)) = counted filt s
  /\ estop_event (final (react filt s)) = false
  /\ commands (trace (react filt s)) = [Execute (issue_time s) FORWARD 1]
  /\ ~ In (Print CONFIRM_LINE)
          (trace (react filt s)).
Proof.
  intros H L C. apply Qltb_ge in L. apply Z.leb_gt in C.
  unfold react, counted in *. unfold bind at 1. cbn [print emit]. rewrite L.
  unfold bind.
  destruct (Qltb filt SAFE_DISTANCE_CM); cbn [modify get print emit];
    cbn [_consecutive_close set_consecutive_close]; rewrite C;
    cbn [print emit];
    rewrite safe_move_robot_live by exact H; cbv beta iota zeta;
    cbn [modify sleep ret]; unfold value, final, trace; cbn [fst snd];
    (split; [reflexivity|]; split; [reflexivity|]; split; [exact H|]; split;
     [ autorewrite with corne_trace; cbn [app]; autorewrite with corne_trace;
       reflexivity
     | unfold waiting, CONFIRM_LINE; cbn zeta;
       destruct (Qltb (clock _ - _last_cmd_ts _) MIN_COMMAND_INTERVAL);
       destruct (snd (robot _ _ _)); cbn [reported app In];
       intuition discriminate ]).
Qed.

Lemma iteration_filtered (s : globals) (distance filt : Q) :
  0 < distance -> distance <= 5000 ->
  median (deque_append MEDIAN_WINDOW distance (_distance_buf s)) = Some filt ->
  iteration (Some distance) s
  = react filt
      (set_distance_buf (deque_append MEDIAN_WINDOW distance (_distance_buf s))
         (set_consecutive_fail 0 s)).
Proof.
  intros Hpos Hmax Hmed.
  assert (G : Qleb distance 0 || Qltb 5000 distance = false).
  { apply orb_false_iff. rewrite Qleb_gt, Qltb_ge. split; assumption. }
  unfold iteration. cbn [get_distance_cm]. rewrite bind_ret_l.
  unfold bind at 1. cbn [modify]. rewrite G.
  unfold bind at 1. cbn [modify]. unfold bind at 1. cbn [get].
  change (_distance_buf (set_consecutive_fail 0 s)) with (_distance_buf s).
  cbn [_distance_buf set_distance_buf]. rewrite Hmed.
  destruct (react filt _) as [[f s'] tr]. reflexivity.
Qed.

Lemma iteration_discards (s : globals) (distance : Q) :
  distance <= 0 \/ 5000 < distance ->
  iteration (Some distance) s
  = (Next,
     set_clock (clock s + (2 # 10) + oversleep (clock s))
       (set_consecutive_fail 0 s),
     [Print "[SAFETY] Discarding out-of-range distance: {distance}";
      Sleep (clock s) (2 # 10)]).
Proof.
  intros H.
  assert (G : Qleb distance 0 || Qltb 5000 distance = true).
  { apply orb_true_iff. rewrite Qleb_le, Qltb_lt. exact H. }
  unfold iteration. cbn [get_distance_cm]. rewrite bind_ret_l.
  unfold bind at 1. cbn [modify]. rewrite G.
  reflexivity.
Qed.

Lemma iteration_failure (s : globals) :
  iteration None s
  = if (SENSOR_FAILURE_LIMIT <=? _consecutive_fail s + 1)%Z then
      (Break, set_estop (set_consecutive_fail (_consecutive_fail s + 1) s),
       [Print "[WARN] Failed to get distance reading. Check robot's status.";
        Print "[SAFETY] Sensor failure #{_consecutive_fail}/{SENSOR_FAILURE_LIMIT}";
        Print "[SAFETY] Too many sensor failures. Entering safe stop."])
    else
      (Next,
       set_clock (clock s + (1 # 2) + oversleep (clock s))
         (set_consecutive_fail (_consecutive_fail s + 1) s),
       [Print "[WARN] Failed to get distance reading. Check robot's status.";
        Print "[SAFETY] Sensor failure #{_consecutive_fail}/{SENSOR_FAILURE_LIMIT}";
        Sleep (clock s) (1 # 2)]).
Proof.
  unfold iteration, get_distance_cm, bind, modify, print, emit, get, ret, sleep.
  cbn.
  destruct (SENSOR_FAILURE_LIMIT <=? _consecutive_fail s + 1)%Z; reflexivity.
Qed.

Lemma avoid_obstacles_stopped (readings : list (option Q)) (s : globals) :
  estop_event s = true -> avoid_obstacles readings s = (tt, s, []).
Proof.
  intros H. destruct readings as [|d rest]; [reflexivity|].
  cbn [avoid_obstacles]. unfold bind, get. rewrite H. reflexivity.
Qed.

Lemma avoid_obstacles_break (d : option Q) (rest : list (option Q)) (s : globals) :
  estop_event s = false -> value (iteration d s) = Break ->
  avoid_obstacles (d :: rest) s = avoid_obstacles [d] s.
Proof.
  intros H B. cbn [avoid_obstacles]. unfold bind, get. rewrite H.
  unfold value in B. destruct (iteration d s) as [[f s'] tr]. cbn in B.
  subst f. reflexivity.
Qed.

(** C4, as amended. A distance reading outside the sane range ([<= 0] or
    [> 5000]) is never appended to the filter window, so the window and its
    median stay as they were, and the loop goes on without a command; the
    reading counts as a successful read, so the counter of consecutive
    failures is reset to zero, not incremented. *)
Theorem out_of_range_discarded (s : globals) (distance : Q) :
  distance <= 0 \/ 5000 < distance ->
  _distance_buf (final (iteration (Some distance) s)) = _distance_buf s
  /\ median (_distance_buf (final (iteration (Some distance) s)))
     = median (_distance_buf s)
  /\ _consecutive_fail (final (iteration (Some distance) s)) = 0%Z
  /\ value (iteration (Some distance) s) = Next
  /\ commands (trace (iteration (Some distance) s)) = [].
Proof.
  intros H. rewrite iteration_discards by assumption.
  repeat split.
Qed.


(** The loop ends on a filtered value exactly in the hard-stop branch. *)
Lemma react_value (s : globals) (filt : Q) :
  value (react filt s) = if Qltb filt HARD_STOP_CM then Break else Next.
Proof.
  unfold react. rewrite bind_value. cbv beta.
  destruct (Qltb filt HARD_STOP_CM).
  - repeat (rewrite bind_value; cbv beta). reflexivity.
  - rewrite bind_value; cbv beta. rewrite bind_value; cbv beta.
    match goal with |- context [if ?c then _ else _] => destruct c end;
      repeat (rewrite bind_value; cbv beta); reflexivity.
Qed.

(** A single filtered value below [HARD_STOP_CM] stops the loop in the same
    pass: one backward command of two steps, then the e-stop flag. *)
Lemma hard_stop_pass (s : globals) (distance filt : Q) :
  estop_event s = false ->
  0 < distance -> distance <= 5000 ->
  median (deque_append MEDIAN_WINDOW distance (_distance_buf s)) = Some filt ->
  filt < HARD_STOP_CM ->
  value (iteration (Some distance) s) = Break
  /\ estop_event (final (iteration (Some distance) s)) = true
  /\ commands (trace (iteration (Some distance) s))
     = [Execute (issue_time s) BACKWARD 2].
Proof.
  intros H Hpos Hmax Hmed Hhard.
  rewrite (iteration_filtered s Hpos Hmax Hmed).
  rewrite react_hard by assumption. cbv zeta.
  unfold value, final, trace. cbn [fst snd].
  split; [reflexivity|]. split; [reflexivity|].
  autorewrite with corne_trace. cbn [app]. autorewrite with corne_trace.
  reflexivity.
Qed.

(** After the hard stop the flag is set: the loop is over and the gateway
    suppresses every later call. *)
Lemma hard_stop_latches (s : globals) (distance filt : Q) :
  estop_event s = false ->
  0 < distance -> distance <= 5000 ->
  median (deque_append MEDIAN_WINDOW distance (_distance_buf s)) = Some filt ->
  filt < HARD_STOP_CM ->
  (forall readings,
     avoid_obstacles readings (final (iteration (Some distance) s))
     = (tt, final (iteration (Some distance) s), []))
  /\ (forall acts,
        commands (trace (run acts (final (iteration (Some distance) s)))) = []).
Proof.
  intros H Hpos Hmax Hmed Hhard.
  destruct (hard_stop_pass s H Hpos Hmax Hmed Hhard) as (_ & E & _).
  split.
  - intros readings. apply avoid_obstacles_stopped. exact E.
  - intros acts. apply run_suppressed. exact E.
Qed.

End Script.

Lemma estop_dispatch_frame_witness :
  let s := set_estop (initial 100) in
  final (safe_move_robot steady_robot punctual FORWARD 9 s) = s
  /\ _last_cmd_ts (final (safe_move_robot steady_robot punctual FORWARD 9 s)) = 0
  /\ sleeps (trace (safe_move_robot steady_robot punctual FORWARD 9 s)) = []
  /\ commands (trace (safe_move_robot steady_robot punctual FORWARD 9 s)) = [].
Proof.
  exact (estop_dispatch_frame steady_robot punctual (set_estop (initial 100))
           FORWARD 9 eq_refl).
Defined.


(** C4, the claim as stated fails: with three failures counted, a reading of
    0 cm leaves the counter at zero, not at four. *)
Lemma out_of_range_resets_counter :
  let s := set_consecutive_fail 3 (initial 100) in
  _consecutive_fail s = 3%Z
  /\ _consecutive_fail (final (iteration steady_robot punctual (Some 0) s)) = 0%Z
  /\ _distance_buf (final (iteration steady_robot punctual (Some 0) s)) = [].
Proof. repeat split. Qed.

Lemma out_of_range_discarded_witness :
  let s := set_distance_buf [30; 31] (set_consecutive_fail 3 (initial 100)) in
  let r := iteration steady_robot punctual (Some 6000) s in
  _distance_buf (final r) = [30; 31]
  /\ median (_distance_buf (final r)) = median [30; 31]
  /\ _consecutive_fail (final r) = 0%Z
  /\ value r = Next
  /\ commands (trace r) = [].
Proof.
  apply (out_of_range_discarded steady_robot punctual
           (set_distance_buf [30; 31] (set_consecutive_fail 3 (initial 100)))
           (distance := 6000)).
  right. reflexivity.
Defined.

(** C3, the claim as stated fails here: one reading of 5 cm trips the hard
    stop, which sets the e-stop flag; the loop reads no further sample and a
    later forward command is suppressed. *)
Lemma hard_stop_is_terminal :
  let s := final (iteration steady_robot punctual (Some 5) (initial 100)) in
  estop_event s = true
  /\ commands (trace (safe_move_robot steady_robot punctual FORWARD 1 s)) = []
  /\ avoid_obstacles steady_robot punctual [Some 50; Some 50] s = (tt, s, []).
Proof. repeat split. Qed.

(** C8, the claim as stated fails: a filtered distance of exactly 8 cm is
    not below [HARD_STOP_CM]; it is counted as a close reading, the robot is
    sent one step forward and the loop goes on. *)
Lemma boundary_distance_is_soft :
  HARD_STOP_CM = 8
  /\ value (react steady_robot punctual 8 (initial 100)) = Next
  /\ estop_event (final (react steady_robot punctual 8 (initial 100))) = false
  /\ _consecutive_close (final (react steady_robot punctual 8 (initial 100))) = 1%Z
  /\ orders (trace (react steady_robot punctual 8 (initial 100)))
     = [(FORWARD, 1%Z)].
Proof. repeat split. Qed.

(** ** The median filter *)

Lemma insert_Forall (P : Q -> Prop) (x : Q) (l : list Q) :
  P x -> Forall P l -> Forall P (insert x l).
Proof.
  intros Hx Hl. induction Hl as [|y l Hy Hl IH]; cbn.
  - constructor; [exact Hx|constructor].
  - destruct (Qltb x y); repeat constructor; assumption.
Qed.

Lemma insert_length (x : Q) (l : list Q) :
  List.length (insert x l) = S (List.length l).
Proof.
  induction l as [|y l IH]; [reflexivity|].
  cbn. destruct (Qltb x y); cbn; [reflexivity|]. rewrite IH. reflexivity.
Qed.

Lemma insert_perm (x : Q) (l : list Q) : Permutation (insert x l) (x :: l).
Proof.
  induction l as [|y l IH]; [apply Permutation_refl|].
  cbn. destruct (Qltb x y); [apply Permutation_refl|].
  apply Permutation_trans with (y :: x :: l);
    [apply perm_skip; exact IH | apply perm_swap].
Qed.

Lemma insert_sorted (x : Q) (l : list Q) :
  StronglySorted Qle l -> StronglySorted Qle (insert x l).
Proof.
  intros Hl. induction Hl as [|y l Hl IH Hy]; cbn.
  - constructor; constructor.
  - destruct (Qltb x y) eqn:E.
    + apply Qltb_lt in E. constructor; [constructor; assumption|].
      constructor; [apply Qlt_le_weak; exact E|].
      eapply Forall_impl; [|exact Hy]. intros z Hz. cbv beta in Hz.
      apply Qle_trans with y; [apply Qlt_le_weak; exact E|exact Hz].
    + apply Qltb_ge in E. constructor; [exact IH|].
      apply insert_Forall; assumption.
Qed.

Lemma sorted_from (values acc : list Q) :
  Permutation (fold_left (fun acc x => insert x acc) values acc) (values ++ acc)
  /\ (StronglySorted Qle acc ->
      StronglySorted Qle (fold_left (fun acc x => insert x acc) values acc)).
Proof.
  revert acc. induction values as [|v values IH]; intros acc.
  - split; [apply Permutation_refl|trivial].
  - cbn [fold_left app]. destruct (IH (insert v acc)) as [P S]. split.
    + apply Permutation_trans with (values ++ insert v acc); [exact P|].
      apply Permutation_trans with (values ++ v :: acc).
      * apply Permutation_app_head. apply insert_perm.
      * apply Permutation_sym. apply Permutation_middle.
    + intros Hacc. apply S. apply insert_sorted. exact Hacc.
Qed.

(** [sorted] gives the values in ascending order: a rearrangement of its
    argument in which no value is followed by a smaller one. *)
Lemma sorted_ascending (values : list Q) :
  Permutation (sorted values) values
  /\ StronglySorted Qle (sorted values)
  /\ List.length (sorted values) = List.length values.
Proof.
  unfold sorted. destruct (sorted_from values []) as [P S].
  rewrite app_nil_r in P. split; [exact P|]. split; [apply S; constructor|].
  apply Permutation_length. exact P.
Qed.

Lemma median_none (values : list Q) : median values = None <-> values = [].
Proof.
  destruct values as [|v values]; [split; reflexivity|].
  split; [|discriminate]. unfold median.
  destruct (Nat.eqb _ _); discriminate.
Qed.

Lemma median_between (values : list Q) (lo hi m : Q) :
  Forall (fun v => lo <= v <= hi) values ->
  median values = Some m -> lo <= m <= hi.
Proof.
  intros B Hm. destruct values as [|v values]; [discriminate|].
  destruct (sorted_ascending (v :: values)) as (P & _ & L).
  assert (Bs : Forall (fun v => lo <= v <= hi) (sorted (v :: values))).
  { apply Forall_forall. intros x Hx.
    rewrite Forall_forall in B. apply B.
    apply Permutation_in with (sorted (v :: values)); assumption. }
  assert (N : forall i, (i < List.length (sorted (v :: values)))%nat ->
              lo <= nth i (sorted (v :: values)) 0 <= hi).
  { intros i Hi. rewrite Forall_forall in Bs. apply Bs. apply nth_In. exact Hi. }
  assert (Pos : (0 < List.length (sorted (v :: values)))%nat)
    by (rewrite L; cbn; lia).
  unfold median in Hm.
  set (n := List.length (sorted (v :: values))) in *.
  assert (D : (n / 2 < n)%nat) by (apply Nat.div_lt; lia).
  destruct (Nat.eqb (n mod 2) 1) eqn:E.
  + injection Hm as <-. change (fst (Nat.divmod n 1 0 1)) with (n / 2)%nat.
    apply N. exact D.
  + injection Hm as <-.
    assert (D' : (n / 2 - 1 < n)%nat) by lia.
    pose proof (N _ D) as [A1 A2]. pose proof (N _ D') as [B1 B2].
    change (fst (Nat.divmod n 1 0 1)) with (n / 2)%nat.
    clear - A1 A2 B1 B2. split; lra.
Qed.

(** X1. [median] returns [None] exactly on the empty list, and otherwise a
    value that lies within any bounds that hold of all the values. *)
Theorem median_within_bounds (values : list Q) (lo hi : Q) :
  (median values = None <-> values = [])
  /\ (Forall (fun v => lo <= v <= hi) values ->
      forall m, median values = Some m -> lo <= m <= hi).
Proof.
  split; [apply median_none|].
  intros B m Hm. exact (median_between B Hm).
Qed.

(** The median of three readings is no farther out than the first two. *)
Lemma median3_between (a b c : Q) :
  exists m,
    median [a; b; c] = Some m
    /\ (a <= m \/ b <= m) /\ (m <= a \/ m <= b).
Proof.
  unfold median, sorted. cbn [fold_left insert].
  destruct (Qltb b a) eqn:E1; cbn [insert];
    repeat match goal with
           | |- context [Qltb ?x ?y] =>
               let E := fresh "E" in destruct (Qltb x y) eqn:E; cbn [insert]
           end;
    repeat match goal with
           | H : Qltb _ _ = true |- _ => apply Qltb_lt in H
           | H : Qltb _ _ = false |- _ => apply Qltb_ge in H
           end;
    cbn; eexists; (split; [reflexivity|]); split; lra.
Qed.

(** X2. The median of a window of three lies between any two of its
    readings and is one of the three: one reading alone, however far off,
    cannot move the filtered value outside the range of the other two. *)
Theorem median_of_three (a b c : Q) :
  exists m,
    median [a; b; c] = Some m
    /\ (m = a \/ m = b \/ m = c)
    /\ ((a <= m \/ b <= m) /\ (m <= a \/ m <= b))
    /\ ((b <= m \/ c <= m) /\ (m <= b \/ m <= c))
    /\ ((a <= m \/ c <= m) /\ (m <= a \/ m <= c)).
Proof.
  unfold median, sorted. cbn [fold_left insert].
  destruct (Qltb b a) eqn:E1; cbn [insert];
    repeat match goal with
           | |- context [Qltb ?x ?y] =>
               let E := fresh "E" in destruct (Qltb x y) eqn:E; cbn [insert]
           end;
    repeat match goal with
           | H : Qltb _ _ = true |- _ => apply Qltb_lt in H
           | H : Qltb _ _ = false |- _ => apply Qltb_ge in H
           end;
    cbn; eexists; (split; [reflexivity|]);
    (split; [tauto|]); repeat split; lra.
Qed.

Lemma deque_append_recent (n : nat) (x : Q) (buf : list Q) :
  (0 < n)%nat ->
  exists old kept,
    buf = old ++ kept
    /\ deque_append n x buf = kept ++ [x]
    /\ List.length kept = Nat.min (List.length buf) (n - 1).
Proof.
  unfold deque_append. cbv zeta.
  assert (L : List.length (buf ++ [x]) = S (List.length buf))
    by (rewrite length_app; cbn; lia).
  rewrite L. intros Hn.
  exists (firstn (S (List.length buf) - n) buf),
         (skipn (S (List.length buf) - n) buf).
  split; [symmetry; apply firstn_skipn|]. split.
  + rewrite skipn_app.
    replace (S (List.length buf) - n - List.length buf)%nat with 0%nat by lia.
    reflexivity.
  + rewrite length_skipn. lia.
Qed.

Lemma deque_append_length (n : nat) (x : Q) (buf : list Q) :
  (List.length (deque_append n x buf) <= n)%nat.
Proof.
  unfold deque_append. cbv zeta. rewrite length_skipn, length_app. cbn. lia.
Qed.

(** X3. [deque(maxlen=n).append(x)]: with [n = 0] the deque stays empty;
    otherwise the new window is the [n - 1] most recent old readings, in
    order, followed by [x], so that it never holds more than [n]. *)
Theorem deque_append_window (n : nat) (x : Q) (buf : list Q) :
  (n = 0%nat -> deque_append n x buf = [])
  /\ ((0 < n)%nat ->
      exists old kept,
        buf = old ++ kept
        /\ deque_append n x buf = kept ++ [x]
        /\ List.length kept = Nat.min (List.length buf) (n - 1))
  /\ (List.length (deque_append n x buf) <= n)%nat.
Proof.
  split; [|split].
  - intros ->. unfold deque_append. cbv zeta. apply skipn_all2. lia.
  - apply deque_append_recent.
  - apply deque_append_length.
Qed.

(** ** The loop as a whole *)

(** The window holds at most [MEDIAN_WINDOW] readings, all of them sane. *)
Definition window_ok (s : globals) : Prop :=
  (List.length (_distance_buf s) <= MEDIAN_WINDOW)%nat
  /\ Forall (fun v => 0 < v /\ v <= 5000) (_distance_buf s).

(** The counters as the loop head finds them. *)
Definition counters_ok (s : globals) : Prop :=
  (0 <= _consecutive_close s < OBSTACLE_CONFIRM_READS)%Z
  /\ (0 <= _consecutive_fail s < SENSOR_FAILURE_LIMIT)%Z.

(** The steps the gateway lets through. *)
Definition clamped (tr : list ev) : Prop := Forall (step_within 1 MAX_STEP) tr.

Section Loop.
Variable robot : Q -> MoveRobotDirection -> Z -> Q * bool.
Variable oversleep : Q -> Q.
Hypothesis robot_takes_time : forall t d n, 0 <= fst (robot t d n).
Hypothesis sleep_not_short : forall t, 0 <= oversleep t.

(** What a call of the gateway leaves alone, flag set or not. *)
Lemma safe_move_robot_frame (s : globals) d n :
  estop_event (final (safe_move_robot robot oversleep d n s)) = estop_event s
  /\ _distance_buf (final (safe_move_robot robot oversleep d n s)) = _distance_buf s
  /\ _consecutive_close (final (safe_move_robot robot oversleep d n s))
     = _consecutive_close s
  /\ _consecutive_fail (final (safe_move_robot robot oversleep d n s))
     = _consecutive_fail s.
Proof.
  destruct (estop_event s) eqn:E.
  - rewrite safe_move_robot_suppressed by assumption. repeat split. exact E.
  - rewrite safe_move_robot_live by assumption. repeat split. exact E.
Qed.

Lemma safe_move_robot_clamped (s : globals) d n :
  clamped (trace (safe_move_robot robot oversleep d n s)).
Proof.
  unfold clamped. destruct (estop_event s) eqn:E.
  - rewrite safe_move_robot_suppressed by assumption. repeat constructor.
  - rewrite safe_move_robot_live by assumption. cbv zeta.
    unfold trace, waiting, reported. cbn [snd].
    apply Forall_app. split.
    + destruct (Qltb _ _); repeat constructor.
    + constructor.
      * cbn. unfold MAX_STEP. lia.
      * destruct (snd _); repeat constructor.
Qed.

Lemma safe_move_robot_paced d n :
  paced _last_cmd_ts MIN_COMMAND_INTERVAL (safe_move_robot robot oversleep d n).
Proof.
  intros s. destruct (estop_event s) eqn:E.
  - rewrite safe_move_robot_suppressed by assumption.
    split; [exact I|apply Qle_refl].
  - rewrite safe_move_robot_live by assumption. cbv zeta.
    unfold trace, final. cbn [fst snd].
    rewrite issue_times_app, issue_times_waiting. cbn [app issue_times].
    rewrite issue_times_reported. cbn [spaced last].
    split.
    + split; [apply issue_time_floor; exact sleep_not_short|exact I].
    + cbn. specialize (robot_takes_time (issue_time oversleep s) d
                         (Z.max 1 (Z.min n MAX_STEP))). lra.
Qed.

(** One step of a proof that a computation of the script keeps a property
    that the gateway keeps and that only reads fields the leaf leaves alone. *)
Ltac keep G :=
  repeat match goal with
         | |- keeps _ (bind _ _) => apply keeps_bind; [|intros ?]
         | |- keeps _ (if ?c then _ else _) => destruct c
         | |- keeps _ (safe_move_robot _ _ _ _) => intros ? ?; apply G; assumption
         | |- keeps _ _ =>
             let s := fresh "s" in let Hs := fresh "Hs" in
             intros s Hs; first [exact Hs | reflexivity]
         end.

Ltac pace :=
  repeat match goal with
         | |- paced _ _ (bind _ _) => apply paced_bind; [|intros ?]
         | |- paced _ _ (if ?c then _ else _) => destruct c
         | |- paced _ _ (match ?o with Some _ => _ | None => _ end) => destruct o
         | |- paced _ _ (safe_move_robot _ _ _ _) => apply safe_move_robot_paced
         | |- paced _ _ _ =>
             apply paced_quiet; intros ?; split; [reflexivity|apply Qle_refl]
         end.

Ltac clamp_all :=
  repeat match goal with
         | |- Forall _ (trace (bind _ _ _)) => apply bind_Forall; [|intros ? ?]
         | |- Forall _ (trace ((if ?c then _ else _) _)) => destruct c
         | |- Forall _ (trace ((match ?o with Some _ => _ | None => _ end) _)) =>
             destruct o
         | |- Forall _ (trace (safe_move_robot _ _ _ _ _)) =>
             apply safe_move_robot_clamped
         | |- Forall _ (trace _) => cbn; repeat constructor
         end.

Lemma window_ok_gateway (s : globals) d n :
  window_ok s -> window_ok (final (safe_move_robot robot oversleep d n s)).
Proof.
  unfold window_ok. destruct (safe_move_robot_frame s d n) as (_ & B & _).
  rewrite B. trivial.
Qed.

Lemma react_keeps_window (filt : Q) : keeps window_ok (react robot oversleep filt).
Proof. unfold react. keep window_ok_gateway. Qed.

Lemma iteration_keeps_window (reading : option Q) :
  keeps window_ok (iteration robot oversleep reading).
Proof.
  unfold iteration. apply keeps_bind.
  - destruct reading; unfold get_distance_cm; keep window_ok_gateway.
  - intros [distance|]; [|keep window_ok_gateway].
    apply keeps_bind; [keep window_ok_gateway|]. intros _.
    destruct (Qleb distance 0 || Qltb 5000 distance) eqn:G;
      [keep window_ok_gateway|].
    apply orb_false_iff in G. destruct G as [G1 G2].
    apply Qleb_gt in G1. apply Qltb_ge in G2.
    apply keeps_bind.
    + intros s [L F]. unfold modify, final, window_ok. cbn [fst snd].
      cbn [_distance_buf set_distance_buf].
      split; [apply deque_append_length|].
      destruct (deque_append_recent (n := MEDIAN_WINDOW) distance (_distance_buf s))
        as (old & kept & E1 & E2 & _); [unfold MEDIAN_WINDOW; lia|].
      rewrite E2. apply Forall_app. split.
      * rewrite E1 in F. apply Forall_app in F. apply F.
      * repeat constructor; assumption.
    + intros _. apply keeps_bind; [keep window_ok_gateway|]. intros s0.
      destruct (median (_distance_buf s0));
        [apply react_keeps_window|keep window_ok_gateway].
Qed.

(** X4. Whatever the sensor reads, the window of [avoid_obstacles] never
    holds more than [MEDIAN_WINDOW] readings, and only readings in the sane
    range (above 0, at most 5000). *)
Theorem window_invariant (readings : list (option Q)) (s : globals) :
  window_ok s -> window_ok (final (avoid_obstacles robot oversleep readings s)).
Proof.
  revert s. induction readings as [|d rest IH]; intros s Hs; [exact Hs|].
  cbn [avoid_obstacles]. rewrite bind_final. cbv beta.
  change (final (get s)) with s. change (value (get s)) with s.
  destruct (estop_event s); [exact Hs|].
  rewrite bind_final.
  pose proof (iteration_keeps_window d Hs) as H1.
  destruct (value (iteration robot oversleep d s)); [apply IH; exact H1|exact H1].
Qed.

(** X5. Every command of [avoid_obstacles], and of any run of gateway
    calls, carries a step between 1 and [MAX_STEP], whatever step was asked
    for; a step asked for within these bounds is issued as it is. *)
Theorem steps_always_clamped :
  (forall readings s, clamped (trace (avoid_obstacles robot oversleep readings s)))
  /\ (forall acts s, clamped (trace (run robot oversleep acts s)))
  /\ (forall s d n,
        estop_event s = false -> (1 <= n <= MAX_STEP)%Z ->
        orders (trace (safe_move_robot robot oversleep d n s)) = [(d, n)]).
Proof.
  split; [|split].
  - unfold clamped. induction readings as [|d rest IH]; intros s.
    + constructor.
    + cbn [avoid_obstacles]. apply bind_Forall; [constructor|]. intros s0 s1.
      destruct (estop_event s0); [constructor|].
      apply bind_Forall.
      * unfold iteration, get_distance_cm, react. destruct d; clamp_all.
      * intros [|] s2; [apply IH|constructor].
  - unfold clamped. induction acts as [|a rest IH]; intros s.
    + constructor.
    + cbn [run]. apply bind_Forall; [|intros ? ?; apply IH].
      destruct a; cbn [perform]; unfold estop_listener, sleep; clamp_all.
  - intros s d n E B. rewrite safe_move_robot_live by assumption. cbv zeta.
    unfold trace. cbn [snd]. rewrite orders_app.
    replace (Z.max 1 (Z.min n MAX_STEP)) with n by lia.
    unfold waiting, reported.
    destruct (Qltb _ _); destruct (snd _); reflexivity.
Qed.

(** X6. In every execution of [avoid_obstacles] any two consecutive
    commands are at least [MIN_COMMAND_INTERVAL] apart, and the first is that
    long after the time stamp the loop starts with. *)
Theorem loop_keeps_floor (readings : list (option Q)) (s : globals) :
  spaced MIN_COMMAND_INTERVAL (_last_cmd_ts s)
    (issue_times (trace (avoid_obstacles robot oversleep readings s))).
Proof.
  assert (P : forall rs, paced _last_cmd_ts MIN_COMMAND_INTERVAL
                           (avoid_obstacles robot oversleep rs)).
  { induction rs as [|d rest IH]; cbn [avoid_obstacles]; [apply paced_ret|].
    apply paced_bind; [pace|]. intros s0.
    destruct (estop_event s0); [apply paced_ret|].
    apply paced_bind.
    - unfold iteration, get_distance_cm, react. destruct d; pace.
    - intros [|]; [apply IH|apply paced_ret]. }
  apply P.
Qed.
End Loop.

Section Verdicts.
Variable robot : Q -> MoveRobotDirection -> Z -> Q * bool.
Variable oversleep : Q -> Q.

Lemma react_final_fields (s : globals) (filt : Q) :
  (filt < HARD_STOP_CM ->
   estop_event (final (react robot oversleep filt s)) = true)
  /\ (HARD_STOP_CM <= filt ->
      estop_event (final (react robot oversleep filt s)) = estop_event s
      /\ _consecutive_close (final (react robot oversleep filt s))
         = (if (OBSTACLE_CONFIRM_READS <=? counted filt s)%Z
            then 0%Z else counted filt s))
  /\ _consecutive_fail (final (react robot oversleep filt s)) = _consecutive_fail s.
Proof.
  unfold react, counted.
  rewrite bind_final. cbv beta. change (final (print _ s)) with s.
  destruct (Qltb filt HARD_STOP_CM) eqn:H.
  - apply Qltb_lt in H.
    repeat (rewrite bind_final; cbv beta).
    change (final (print "[SAFETY] HARD STOP: {filt:.1f} cm < {HARD_STOP_CM} cm." s))
      with s.
    destruct (safe_move_robot_frame robot oversleep s BACKWARD
                (Z.max BACKWARD_STEPS 2)) as (_ & _ & _ & F).
    split; [intros _; reflexivity|]. split; [intros C; exfalso; lra|].
    cbn. exact F.
  - apply Qltb_ge in H.
    split; [intros C; exfalso; lra|].
    rewrite bind_final. cbv beta. rewrite bind_final. cbv beta.
    assert (S1 : forall s1 : globals,
               estop_event s1 = estop_event s ->
               _consecutive_fail s1 = _consecutive_fail s ->
               let r := (if (OBSTACLE_CONFIRM_READS <=? _consecutive_close s1)%Z
                         then
                           bind (print CONFIRM_LINE) (fun _ =>
                           bind (safe_move_robot robot oversleep BACKWARD BACKWARD_STEPS) (fun _ =>
                           bind (safe_move_robot robot oversleep RIGHTWARD 2) (fun _ =>
                           bind (modify (set_consecutive_close 0)) (fun _ =>
                           bind (sleep oversleep SLEEP_DURATION) (fun _ => ret Next)))))
                         else
                           bind (print "Path clear. Moving forward.") (fun _ =>
                           bind (safe_move_robot robot oversleep FORWARD STEP_SIZE) (fun _ =>
                           bind (sleep oversleep SLEEP_DURATION) (fun _ => ret Next))))
                          s1 in
               estop_event (final r) = estop_event s
               /\ _consecutive_close (final r)
                  = (if (OBSTACLE_CONFIRM_READS <=? _consecutive_close s1)%Z
                     then 0%Z else _consecutive_close s1)
               /\ _consecutive_fail (final r) = _consecutive_fail s).
    { intros s1 E1 F1. cbv zeta.
      destruct (OBSTACLE_CONFIRM_READS <=? _consecutive_close s1)%Z.
      - repeat (rewrite bind_final; cbv beta).
        change (final (print CONFIRM_LINE s1)) with s1.
        destruct (safe_move_robot_frame robot oversleep s1 BACKWARD BACKWARD_STEPS)
          as (A1 & _ & _ & A4).
        destruct (safe_move_robot_frame robot oversleep
                    (final (safe_move_robot robot oversleep BACKWARD BACKWARD_STEPS s1))
                    RIGHTWARD 2) as (B1 & _ & _ & B4).
        unfold ret, sleep, modify; cbn [final fst snd];
        cbn [estop_event _consecutive_close _consecutive_fail set_clock
               set_consecutive_close].
        rewrite B1, A1, B4, A4. auto.
      - repeat (rewrite bind_final; cbv beta).
        change (final (print "Path clear. Moving forward." s1)) with s1.
        destruct (safe_move_robot_frame robot oversleep s1 FORWARD STEP_SIZE)
          as (A1 & _ & A3 & A4).
        unfold ret, sleep, modify; cbn [final fst snd];
        cbn [estop_event _consecutive_close _consecutive_fail set_clock
               set_consecutive_close].
        rewrite A1, A3, A4. auto. }
    destruct (Qltb filt SAFE_DISTANCE_CM).
    + destruct (S1 (set_consecutive_close (_consecutive_close s + 1) s)
                  eq_refl eq_refl) as (E & C & F).
      split; [intros _; split; [exact E|exact C]|exact F].
    + destruct (S1 (set_consecutive_close 0 s) eq_refl eq_refl) as (E & C & F).
      split; [intros _; split; [exact E|exact C]|exact F].
Qed.

(** X7. A pass through the body of [avoid_obstacles] leaves the [while]
    loop only with the e-stop flag set, and no pass ever clears the flag. *)
Theorem loop_left_only_stopped (reading : option Q) (s : globals) :
  (value (iteration robot oversleep reading s) = Break ->
   estop_event (final (iteration robot oversleep reading s)) = true)
  /\ (estop_event s = true ->
      estop_event (final (iteration robot oversleep reading s)) = true).
Proof.
  destruct reading as [distance|].
  - destruct (Qlt_le_dec 0 distance) as [Hpos|Hneg];
      [destruct (Qlt_le_dec 5000 distance) as [Hbig|Hmax]|].
    + rewrite iteration_discards by (right; exact Hbig).
      split; [discriminate|trivial].
    + destruct (median (deque_append MEDIAN_WINDOW distance (_distance_buf s)))
        as [filt|] eqn:M.
      * rewrite (iteration_filtered robot oversleep s Hpos Hmax M).
        rewrite react_value.
        destruct (react_final_fields
                    (set_distance_buf
                       (deque_append MEDIAN_WINDOW distance (_distance_buf s))
                       (set_consecutive_fail 0 s)) filt) as (Hh & Hs & _).
        destruct (Qltb filt HARD_STOP_CM) eqn:E.
        -- apply Qltb_lt in E. split; intros _; apply Hh; exact E.
        -- apply Qltb_ge in E. split; [discriminate|].
           intros Es. destruct (Hs E) as (Ef & _). rewrite Ef. exact Es.
      * exfalso. apply median_none in M.
        destruct (deque_append_recent (n := MEDIAN_WINDOW) distance (_distance_buf s))
          as (old & kept & _ & E2 & _); [unfold MEDIAN_WINDOW; lia|].
        rewrite E2 in M. destruct kept; discriminate.
    + rewrite iteration_discards by (left; exact Hneg).
      split; [discriminate|trivial].
  - rewrite iteration_failure.
    destruct (SENSOR_FAILURE_LIMIT <=? _consecutive_fail s + 1)%Z.
    + split; reflexivity.
    + split; [discriminate|trivial].
Qed.

(** X8. The counters at the loop head: with the counter of close readings
    in [0, OBSTACLE_CONFIRM_READS) and the counter of failed reads in
    [0, SENSOR_FAILURE_LIMIT), a pass that returns to the loop head leaves
    them so. *)
Theorem counters_invariant (reading : option Q) (s : globals) :
  counters_ok s ->
  value (iteration robot oversleep reading s) = Next ->
  counters_ok (final (iteration robot oversleep reading s)).
Proof.
  unfold counters_ok, OBSTACLE_CONFIRM_READS, SENSOR_FAILURE_LIMIT.
  intros (C & F). destruct reading as [distance|].
  - destruct (Qlt_le_dec 0 distance) as [Hpos|Hneg];
      [destruct (Qlt_le_dec 5000 distance) as [Hbig|Hmax]|].
    + rewrite iteration_discards by (right; exact Hbig). intros _. cbn. lia.
    + destruct (median (deque_append MEDIAN_WINDOW distance (_distance_buf s)))
        as [filt|] eqn:M.
      * rewrite (iteration_filtered robot oversleep s Hpos Hmax M).
        rewrite react_value.
        destruct (react_final_fields
                    (set_distance_buf
                       (deque_append MEDIAN_WINDOW distance (_distance_buf s))
                       (set_consecutive_fail 0 s)) filt) as (_ & Hs & Hf).
        destruct (Qltb filt HARD_STOP_CM) eqn:E; [discriminate|].
        apply Qltb_ge in E. intros _. destruct (Hs E) as (_ & Hc).
        rewrite Hc, Hf. unfold counted, OBSTACLE_CONFIRM_READS. cbn.
        destruct (Qltb filt SAFE_DISTANCE_CM);
          [destruct (2 <=? _consecutive_close s + 1)%Z eqn:L|]; cbn;
          try apply Z.leb_gt in L; lia.
      * exfalso. apply median_none in M.
        destruct (deque_append_recent (n := MEDIAN_WINDOW) distance (_distance_buf s))
          as (old & kept & _ & E2 & _); [unfold MEDIAN_WINDOW; lia|].
        rewrite E2 in M. destruct kept; discriminate.
    + rewrite iteration_discards by (left; exact Hneg). intros _. cbn. lia.
  - rewrite iteration_failure. unfold SENSOR_FAILURE_LIMIT.
    destruct (5 <=? _consecutive_fail s + 1)%Z eqn:L; [discriminate|].
    apply Z.leb_gt in L. intros _. cbn. lia.
Qed.

(** X9. The filter decides by the majority of a full window.  With two
    readings in the window, [a] and [b] the latest, and a sane new reading
    [d]: when [a] and [b] are both at least [HARD_STOP_CM] the pass does not
    trip the hard stop, however close [d] is; when both are below
    [HARD_STOP_CM] the pass trips it, however far [d] is. *)
Theorem filter_decides_by_majority (s : globals) (older : list Q) (a b d : Q) :
  _distance_buf s = older ++ [a; b] ->
  (List.length older <= 1)%nat ->
  0 < d -> d <= 5000 ->
  (HARD_STOP_CM <= a -> HARD_STOP_CM <= b ->
   value (iteration robot oversleep (Some d) s) = Next)
  /\ (a < HARD_STOP_CM -> b < HARD_STOP_CM ->
      value (iteration robot oversleep (Some d) s) = Break).
Proof.
  intros B L Hpos Hmax.
  assert (W : deque_append MEDIAN_WINDOW d (_distance_buf s) = [a; b; d]).
  { rewrite B. destruct older as [|x [|y older]]; [reflexivity|reflexivity|].
    cbn in L. lia. }
  destruct (median3_between a b d) as (m & M & Lo & Hi).
  rewrite <- W in M.
  rewrite (iteration_filtered robot oversleep s Hpos Hmax M), react_value.
  split; intros Ha Hb.
  - assert (E : Qltb m HARD_STOP_CM = false) by (apply Qltb_ge; lra).
    rewrite E. reflexivity.
  - assert (E : Qltb m HARD_STOP_CM = true) by (apply Qltb_lt; lra).
    rewrite E. reflexivity.
Qed.
End Verdicts.

Lemma window_invariant_witness :
  window_ok
    (final (avoid_obstacles steady_robot punctual
              [Some 30; Some 0; None; Some 25; Some 40; Some 6000; Some 50]
              (initial 100))).
Proof.
  apply (window_invariant steady_robot punctual).
  split; [cbn; lia|constructor].
Defined.

Lemma loop_keeps_floor_witness :
  spaced MIN_COMMAND_INTERVAL 0
    (issue_times
       (trace (avoid_obstacles steady_robot punctual
                 [Some 30; Some 15; Some 15; Some 30] (initial 100)))).
Proof.
  assert (P : 0 <= 1 # 10) by (cbv; discriminate).
  exact (loop_keeps_floor steady_robot punctual (fun _ _ _ => P)
           (fun _ => Qle_refl 0) [Some 30; Some 15; Some 15; Some 30]
           (initial 100)).
Defined.

Lemma counters_invariant_witness :
  counters_ok (final (iteration steady_robot punctual (Some 15) (initial 100))).
Proof.
  apply (@counters_invariant steady_robot punctual (Some 15) (initial 100)).
  - unfold counters_ok, OBSTACLE_CONFIRM_READS, SENSOR_FAILURE_LIMIT. cbn. lia.
  - reflexivity.
Defined.

Lemma filter_decides_by_majority_witness :
  value (iteration steady_robot punctual (Some 3)
           (set_distance_buf [25; 30; 40] (initial 100))) = Next.
Proof.
  refine (proj1 (@filter_decides_by_majority steady_robot punctual
                   (set_distance_buf [25; 30; 40] (initial 100))
                   [25] 30 40 3 eq_refl _ _ _) _ _);
    first [ cbn; lia | cbv; reflexivity | cbv; discriminate ].
Defined.

End Corne.

(** * codes/final_codes/Low battery detection safety.py *)

Module LowBattery.

(** The SDK is no part of the repository; its calls are modelled as the
    scripts that drive the robot use them (codes/movement.py,
    codes/corne_code_safety.py, Navigation/Navigation-Automation.py):
    [MoveRobotDirection] has the members [FORWARD], [BACKWARD], [LEFTWARD]
    and [RIGHTWARD]; the constructor [MoveRobot(is_serial, direction, step)]
    is called with keywords and asserts that [direction] is a member and
    [step] a positive integer; an API object has the method [execute], which
    sends the command and returns the pair [(resultType, response)], and no
    method [exec].  Where a script uses the SDK otherwise, the call raises,
    and the embedding has the exception. *)
Inductive MoveRobotDirection := FORWARD | BACKWARD | LEFTWARD | RIGHTWARD.

(** Configuration constants, lines 19-40. *)
Definition BATTERY_LOW_THRESHOLD : Z := 20.
Definition CHECK_INTERVAL_S : Q := 5.
Definition STEP_MIN : Z := 1.
Definition STEP_MAX : Z := 6.
Definition RATE_LIMIT_S : Q := 4 # 10.
Definition TESTING_BATTERY_START : Z := 35.
Definition TESTING_DRAIN_PER_CYCLE : Z := 3.
Definition RETURN_ROUTE : list (string * Z) :=
  [("FORWARD", 4); ("LEFT", 2); ("FORWARD", 6); ("RIGHT", 2); ("FORWARD", 4)]%string%Z.

(** The module-level globals, lines 43-45, and the clock [time.time()]. *)
Record globals : Type := mkGlobals {
  _last_move_ts : Q;
  _estop : bool;
  _is_returning : bool;
  clock : Q
}.

Definition set_last_move_ts (t : Q) (s : globals) : globals :=
  mkGlobals t (_estop s) (_is_returning s) (clock s).
Definition set_estop (s : globals) : globals :=
  mkGlobals (_last_move_ts s) true (_is_returning s) (clock s).
Definition set_returning (s : globals) : globals :=
  mkGlobals (_last_move_ts s) (_estop s) true (clock s).
Definition set_clock (t : Q) (s : globals) : globals :=
  mkGlobals (_last_move_ts s) (_estop s) (_is_returning s) t.

Definition initial (t0 : Q) : globals := mkGlobals 0 false false t0.

Definition ev : Type := event MoveRobotDirection.
Definition Co : Type -> Type := M globals ev.

(** [_clamp_steps], lines 48-49. *)
Definition _clamp_steps (n : Z) : Z := Z.max STEP_MIN (Z.min STEP_MAX n).

(** [max(0.0, x)]. *)
Definition max0 (x : Q) : Q := if Qltb 0 x then x else 0.

(** [getattr(MoveRobotDirection, name)], line 100, and the attribute
    [MoveRobotDirection.<name>] of lines 175 and 177: a name that is no
    member of the enumeration raises. *)
Definition direction_named (name : string) : outcome MoveRobotDirection :=
  if String.eqb name "FORWARD" then Returned FORWARD
  else if String.eqb name "BACKWARD" then Returned BACKWARD
  else if String.eqb name "LEFTWARD" then Returned LEFTWARD
  else if String.eqb name "RIGHTWARD" then Returned RIGHTWARD
  else Raised "AttributeError: type object 'MoveRobotDirection' has no attribute '{name}'".

(** [res.result], line 68: [res] is the pair that [execute()] has returned,
    and a tuple has no attribute [result]. *)
Definition result_of (res : bool) : outcome bool :=
  Raised "AttributeError: 'tuple' object has no attribute 'result'".

(** What a task does between two of its [await]s. *)
Inductive action :=
| Dispatch (direction : MoveRobotDirection) (steps : Z)
| Await (secs : Q)
| Operator (line : string).

(** The robots and the scheduler of the examples: a robot that answers after
    a tenth of a second, one that takes a second to carry out a command, and
    sleeps that do not overshoot. *)
Definition steady_robot : Q -> MoveRobotDirection -> Z -> Q * bool :=
  fun _ _ _ => (1 # 10, true).
Definition walking_robot : Q -> MoveRobotDirection -> Z -> Q * bool :=
  fun _ _ _ => (1, true).
Definition punctual : Q -> Q := fun _ => 0.

(** An instance of [MockBattery], lines 79-86: each attribute is there once
    it has been assigned. *)
Record MockBattery : Type := mkMockBattery {
  pct : option Z;
  drain : option Z
}.

(** [MockBattery()]: the class defines no [__init__], so the new instance
    has no attribute of its own. *)
Definition MockBattery_new : MockBattery := mkMockBattery None None.

(** The method [_init_], lines 80-82. *)
Definition _init_ (self : MockBattery) (start drain : Z) : MockBattery :=
  mkMockBattery (Some start) (Some drain).

(** The method [tick], lines 84-86: the new charge and the instance. *)
Definition tick (self : MockBattery) : outcome (Z * MockBattery) :=
  match pct self with
  | None => Raised "AttributeError: 'MockBattery' object has no attribute 'pct'"
  | Some p =>
      match drain self with
      | None => Raised "AttributeError: 'MockBattery' object has no attribute 'drain'"
      | Some d =>
          let p' := Z.max 0 (p - d) in
          Returned (p', mkMockBattery (Some p') (Some d))
      end
  end.

(** [n] calls of [tick] in a row: the charge the last one returns. *)
Fixpoint ticks (n : nat) (self : MockBattery) : outcome (Z * MockBattery) :=
  match n with
  | O => match pct self with
         | Some p => Returned (p, self)
         | None => Raised "AttributeError: 'MockBattery' object has no attribute 'pct'"
         end
  | S n' =>
      match tick self with
      | Returned (_, self') => ticks n' self'
      | Raised e => Raised e
      end
  end.

(** Two tasks of the script call the gateway: the wandering loop of
    [connect_and_run] and, through [go_to_idle_hub], the task of
    [low_battery_return_loop].  A task is suspended at an [await]; what it
    does when the event loop resumes it is its frame. *)
Inductive frame :=
| AfterWait (direction : MoveRobotDirection) (steps : Z) (* the rate-limit sleep is over *)
| AfterReply                                            (* the robot has answered *)
| AfterAwait.                                           (* a sleep of the caller is over *)

Record task : Type := mkTask {
  resume_at : Q;          (* when the awaited sleep or answer is due *)
  awaiting : frame;
  todo : list action      (* what the task does after that *)
}.

(** The first of the tasks that are due earliest, and the other tasks. *)
Fixpoint earliest (ts : list task) : option (task * list task) :=
  match ts with
  | [] => None
  | t :: rest =>
      match earliest rest with
      | None => Some (t, [])
      | Some (t', others) =>
          if Qleb (resume_at t) (resume_at t') then Some (t, rest)
          else Some (t', t :: others)
      end
  end.

(** The steps the gateway lets through. *)
Definition bounded (tr : list ev) : Prop :=
  Forall (step_within STEP_MIN STEP_MAX) tr.

Section Script.
(** The environment, as in [Corne]: [robot t d n] is how long the robot
    takes to answer a command sent at [t] and whether its result type is
    [Success]. *)
Variable robot : Q -> MoveRobotDirection -> Z -> Q * bool.
Variable oversleep : Q -> Q.

Open Scope eff_scope.

Definition logging (msg : string) : Co unit := emit (Print msg).

Definition time : Co Q := fun s => (clock s, s, []).

Definition sleep (secs : Q) : Co unit :=
  fun s =>
    let t := clock s in
    let d := if Qleb secs 0 then 0 else secs in
    (tt, set_clock (t + d + oversleep t) s, [Sleep t secs]).

(** [await req.execute()], lines 65-66. *)
Definition execute (direction : MoveRobotDirection) (steps : Z) : Co bool :=
  fun s =>
    let t := clock s in
    (snd (robot t direction steps),
     set_clock (t + fst (robot t direction steps)) s,
     [Execute t direction steps]).

(** [safe_move], lines 52-71.  The command is sent and the time stamp
    written; then line 68 raises, so that a call that is not suppressed
    never returns. *)
Definition safe_move (direction : MoveRobotDirection) (steps : Z)
  : Co (outcome bool) :=
  s <- get ;;
  if _estop s then
    logging "E-STOP active: ignoring move." ;;
    ret (Returned false)
  else
    let steps := _clamp_steps steps in
    now <- time ;;
    let to_wait := max0 (RATE_LIMIT_S - (now - _last_move_ts s)) in
    (if Qltb 0 to_wait then sleep to_wait else ret tt) ;;
    res <- execute direction steps ;;
    ts <- time ;;
    modify (set_last_move_ts ts) ;;
    ok <~ ret (result_of res) ;;
    (if ok then ret tt else logging "Move failed: {res.result}") ;;
    ret (Returned ok).

(** [stop_all], lines 74-76. *)
Definition stop_all : Co unit :=
  modify set_estop ;;
  logging "Stopping all actions (E-STOP).".

(** One line read by [estop_listener], lines 140-146. *)
Definition estop_listener (line : string) : Co unit :=
  if String.eqb (lower (strip line)) "e" then
    logging "E-STOP requested by operator." ;;
    modify set_estop
  else sleep (5 # 100).

(** A run of one task that calls the gateway and sleeps, each call awaited
    before the next, with the lines the listener reads in between; an
    exception ends it. *)
Definition perform (a : action) : Co (outcome unit) :=
  match a with
  | Dispatch direction steps =>
      _ <~ safe_move direction steps ;; ret (Returned tt)
  | Await secs => sleep secs ;; ret (Returned tt)
  | Operator line => estop_listener line ;; ret (Returned tt)
  end.

Fixpoint run (acts : list action) : Co (outcome unit) :=
  match acts with
  | [] => ret (Returned tt)
  | a :: rest => _ <~ perform a ;; run rest
  end.

(** The same calls in turn, each begun when the one before it has returned
    or raised: what callers that do not overlap make of the gateway, be they
    one caller that goes on after the exception or tasks that run one after
    the other. *)
Fixpoint in_turn (acts : list action) : Co unit :=
  match acts with
  | [] => ret tt
  | a :: rest => perform a ;; in_turn rest
  end.

(** [announce], lines 89-91. *)
Definition announce (text : string) : Co unit :=
  logging ("[AlphaMini says] " ++ text).

(** The [for] loop of [go_to_idle_hub], lines 96-105, over what is left of
    the route; it tells whether the function goes on to its last line
    ([True]) or has returned from inside the loop. *)
Fixpoint follow (route : list (string * Z)) : Co (outcome bool) :=
  match route with
  | [] => ret (Returned true)
  | (direction_name, steps) :: rest =>
      s <- get ;;
      if _estop s then
        logging "E-STOP during return; aborting path." ;;
        ret (Returned false)
      else
        direction <~ ret (direction_named direction_name) ;;
        ok <~ safe_move direction steps ;;
        if ok then
          sleep (6 # 10) ;;
          follow rest
        else
          logging "Path step failed: {direction_name} {steps}" ;;
          ret (Returned true)
  end.

(** [go_to_idle_hub], lines 94-106. *)
Definition go_to_idle_hub : Co (outcome unit) :=
  logging "Navigating to Idle Hub…" ;;
  through <~ follow RETURN_ROUTE ;;
  if through then
    logging "Arrived at Idle Hub (end of scripted path)." ;;
    ret (Returned tt)
  else ret (Returned tt).

(** The [while] loop of [low_battery_return_loop], lines 114-129, for at
    most [polls] polls of the battery [mock]. *)
Fixpoint polling (polls : nat) (mock : MockBattery) (told_low : bool)
  : Co (outcome unit) :=
  match polls with
  | O => ret (Returned tt)
  | S polls' =>
      s <- get ;;
      if _estop s then ret (Returned tt)
      else
        ticked <~ ret (tick mock) ;;
        let '(pct, mock) := ticked in
        logging "Battery (mock): {pct}%" ;;
        if (pct <=? BATTERY_LOW_THRESHOLD)%Z && negb (_is_returning s) then
          modify set_returning ;;
          (if negb told_low
           then announce "Battery low at {pct} percent. Returning to charging station."
           else ret tt) ;;
          sleep (8 # 10) ;;
          _ <~ go_to_idle_hub ;;
          announce "Docking complete. Entering low-power standby." ;;
          stop_all ;;
          ret (Returned tt)
        else
          sleep CHECK_INTERVAL_S ;;
          polling polls' mock told_low
  end.

(** [low_battery_return_loop], lines 109-129. *)
Definition low_battery_return_loop (polls : nat) : Co (outcome unit) :=
  polling polls MockBattery_new false.

(** The wandering loop of [connect_and_run], lines 174-178, for at most
    [rounds] rounds. *)
Fixpoint wander (rounds : nat) : Co (outcome unit) :=
  match rounds with
  | O => ret (Returned tt)
  | S rounds' =>
      s <- get ;;
      if negb (_estop s) && negb (_is_returning s) then
        forward <~ ret (direction_named "FORWARD") ;;
        _ <~ safe_move forward 2 ;;
        sleep (12 # 10) ;;
        left <~ ret (direction_named "LEFT") ;;
        _ <~ safe_move left 1 ;;
        sleep (8 # 10) ;;
        wander rounds'
      else ret (Returned tt)
  end.

(** The same coroutines cut at their [await]s, for tasks that interleave.
    [issue] is the part of [safe_move] from the end of its sleep to the
    [await] of the answer, lines 65-66. *)
Definition issue (direction : MoveRobotDirection) (steps : Z)
           (rest : list action) : Co (option task) :=
  fun s =>
    let t := clock s in
    (Some (mkTask (t + fst (robot t direction steps)) AfterReply rest), s,
     [Execute t direction steps]).

Definition suspend (secs : Q) (k : frame) (rest : list action)
  : Co (option task) :=
  fun s =>
    let t := clock s in
    let d := if Qleb secs 0 then 0 else secs in
    (Some (mkTask (t + d + oversleep t) k rest), s, [Sleep t secs]).

(** A task runs its actions up to the first [await] that suspends it;
    [None] when it has run to its end. *)
Fixpoint start (acts : list action) : Co (option task) :=
  match acts with
  | [] => ret None
  | Dispatch direction steps :: rest =>
      s <- get ;;
      if _estop s then
        logging "E-STOP active: ignoring move." ;;
        start rest
      else
        let steps := _clamp_steps steps in
        now <- time ;;
        let to_wait := max0 (RATE_LIMIT_S - (now - _last_move_ts s)) in
        if Qltb 0 to_wait then suspend to_wait (AfterWait direction steps) rest
        else issue direction steps rest
  | Await secs :: rest => suspend secs AfterAwait rest
  | Operator line :: rest =>
      if String.eqb (lower (strip line)) "e" then
        logging "E-STOP requested by operator." ;;
        modify set_estop ;;
        start rest
      else suspend (5 # 100) AfterAwait rest
  end.

(** The event loop resumes a task when what it awaits is due.  A task
    resumed with the robot's answer writes the time stamp, line 67, and
    ends with the exception of line 68. *)
Definition resume (t : task) : Co (option task) :=
  modify (set_clock (resume_at t)) ;;
  match awaiting t with
  | AfterWait direction steps => issue direction steps (todo t)
  | AfterReply =>
      ts <- time ;;
      modify (set_last_move_ts ts) ;;
      ret None
  | AfterAwait => start (todo t)
  end.

(** The event loop: at most [rounds] times, resume the task due earliest. *)
Fixpoint event_loop (rounds : nat) (ts : list task) : Co unit :=
  match rounds with
  | O => ret tt
  | S rounds' =>
      match earliest ts with
      | None => ret tt
      | Some (t, others) =>
          r <- resume t ;;
          event_loop rounds'
            (match r with Some t' => others ++ [t'] | None => others end)
      end
  end.

(** A task created at [t0] to run [acts]. *)
Definition spawn (t0 : Q) (acts : list action) : task :=
  mkTask t0 AfterAwait acts.

(** The clock value at which a live call of [safe_move] issues its command. *)
Definition issue_time (s : globals) : Q :=
  let to_wait := max0 (RATE_LIMIT_S - (clock s - _last_move_ts s)) in
  if Qltb 0 to_wait then clock s + to_wait + oversleep (clock s) else clock s.

Definition waiting (s : globals) : list ev :=
  let to_wait := max0 (RATE_LIMIT_S - (clock s - _last_move_ts s)) in
  if Qltb 0 to_wait then [Sleep (clock s) to_wait] else [].

Definition after_command (t took : Q) (s : globals) : globals :=
  set_last_move_ts (t + took) (set_clock (t + took) s).

Lemma max0_spec (x : Q) :
  (0 < x -> max0 x = x) /\ (x <= 0 -> max0 x = 0) /\ 0 <= max0 x.
Proof.
  unfold max0. destruct (Qltb 0 x) eqn:E.
  - apply Qltb_lt in E. repeat split; intros; try reflexivity; lra.
  - apply Qltb_ge in E. repeat split; intros; try reflexivity; lra.
Qed.

Lemma safe_move_suppressed (s : globals) d n :
  _estop s = true ->
  safe_move d n s = (Returned false, s, [Print "E-STOP active: ignoring move."]).
Proof.
  intros H. unfold safe_move, bind, get, logging, emit, ret. cbn.
  rewrite H. reflexivity.
Qed.

(** A call that is not suppressed waits as the rate limit asks, sends the
    command with the step clamped, writes the time stamp when the robot has
    answered, and raises. *)
Lemma safe_move_live (s : globals) d n :
  _estop s = false ->
  safe_move d n s
  = (let t := issue_time s in
     (Raised "AttributeError: 'tuple' object has no attribute 'result'",
      after_command t (fst (robot t d (_clamp_steps n))) s,
      waiting s ++ [Execute t d (_clamp_steps n)])).
Proof.
  intros H.
  unfold safe_move, attempt, result_of, issue_time, after_command, waiting,
    bind, get, time, modify, logging, emit, ret, sleep, execute.
  cbn. rewrite H.
  destruct (Qltb 0 (max0 (RATE_LIMIT_S - (clock s - _last_move_ts s)))) eqn:E; cbn.
  - assert (G : Qleb (max0 (RATE_LIMIT_S - (clock s - _last_move_ts s))) 0 = false).
    { apply Qleb_gt. apply Qltb_lt in E. exact E. }
    rewrite G. reflexivity.
  - reflexivity.
Qed.

Lemma battery_issue_time_floor (s : globals) :
  (forall t, 0 <= oversleep t) ->
  _last_move_ts s + RATE_LIMIT_S <= issue_time s /\ clock s <= issue_time s.
Proof.
  intros Hov. unfold issue_time. cbn zeta.
  destruct (max0_spec (RATE_LIMIT_S - (clock s - _last_move_ts s))) as (P & N & G).
  destruct (Qltb 0 (max0 _)) eqn:E.
  - apply Qltb_lt in E. specialize (Hov (clock s)).
    destruct (Qlt_le_dec 0 (RATE_LIMIT_S - (clock s - _last_move_ts s))) as [L|L].
    + rewrite (P L). split; lra.
    + rewrite (N L) in E. exfalso. lra.
  - apply Qltb_ge in E.
    destruct (Qlt_le_dec 0 (RATE_LIMIT_S - (clock s - _last_move_ts s))) as [L|L].
    + rewrite (P L) in E. exfalso. lra.
    + split; lra.
Qed.

Lemma battery_waiting_times (s : globals) : issue_times (waiting s) = [].
Proof. unfold waiting. cbv zeta. destruct (Qltb _ _); reflexivity. Qed.

Lemma battery_waiting_orders (s : globals) : orders (waiting s) = [].
Proof. unfold waiting. cbv zeta. destruct (Qltb _ _); reflexivity. Qed.

(** What a call of the gateway leaves alone, flag set or not. *)
Lemma safe_move_frame (s : globals) d n :
  _estop (final (safe_move d n s)) = _estop s
  /\ _is_returning (final (safe_move d n s)) = _is_returning s.
Proof.
  destruct (_estop s) eqn:E.
  - rewrite safe_move_suppressed by assumption. split; [exact E|reflexivity].
  - rewrite safe_move_live by assumption. split; [exact E|reflexivity].
Qed.

(** A call returns only when it is suppressed, and then [False]. *)
Lemma safe_move_value (s : globals) d n :
  (_estop s = true -> value (safe_move d n s) = Returned false)
  /\ (_estop s = false -> exists e, value (safe_move d n s) = Raised e).
Proof.
  split; intros E.
  - rewrite safe_move_suppressed by assumption. reflexivity.
  - rewrite safe_move_live by assumption. eexists. reflexivity.
Qed.

Lemma safe_move_bounded (s : globals) d n : bounded (trace (safe_move d n s)).
Proof.
  unfold bounded. destruct (_estop s) eqn:E.
  - rewrite safe_move_suppressed by assumption. repeat constructor.
  - rewrite safe_move_live by assumption. cbv zeta.
    unfold trace, waiting. cbn [snd].
    apply Forall_app. split.
    + destruct (Qltb _ _); repeat constructor.
    + repeat constructor; cbn; unfold _clamp_steps, STEP_MIN, STEP_MAX; lia.
Qed.

(** The commands of a live call: one, with the step clamped. *)
Lemma battery_safe_move_orders (s : globals) d n :
  _estop s = false ->
  orders (trace (safe_move d n s)) = [(d, _clamp_steps n)].
Proof.
  intros E. rewrite safe_move_live by assumption. cbv zeta.
  unfold trace. cbn [snd]. rewrite orders_app, battery_waiting_orders.
  reflexivity.
Qed.

Lemma battery_listener_keeps (line : string) (s : globals) :
  _last_move_ts (final (estop_listener line s)) = _last_move_ts s
  /\ issue_times (trace (estop_listener line s)) = []
  /\ commands (trace (estop_listener line s)) = []
  /\ (_estop s = true -> _estop (final (estop_listener line s)) = true).
Proof.
  unfold estop_listener.
  destruct (String.eqb _ _); repeat split; auto.
Qed.

Lemma perform_suppressed (a : action) (s : globals) :
  _estop s = true ->
  value (perform a s) = Returned tt
  /\ commands (trace (perform a s)) = []
  /\ _estop (final (perform a s)) = true
  /\ _last_move_ts (final (perform a s)) = _last_move_ts s.
Proof.
  intros H. destruct a as [d n|secs|line]; cbn [perform].
  - rewrite (attempt_returned _ _ s (a := false))
      by (rewrite safe_move_suppressed by assumption; reflexivity).
    rewrite safe_move_suppressed by assumption.
    repeat split; assumption.
  - repeat split; assumption.
  - destruct (battery_listener_keeps line s) as (L & _ & C & E).
    rewrite bind_value, bind_trace, bind_final, commands_app.
    cbn [ret value final trace fst snd]. rewrite app_nil_r.
    repeat split; auto.
Qed.

Lemma battery_run_suppressed (acts : list action) :
  forall s, _estop s = true ->
  commands (trace (run acts s)) = []
  /\ _estop (final (run acts s)) = true
  /\ _last_move_ts (final (run acts s)) = _last_move_ts s.
Proof.
  induction acts as [|a acts IH]; intros s H; [repeat split; assumption|].
  cbn [run].
  destruct (perform_suppressed a s H) as (V & C & E & L).
  rewrite (attempt_returned _ _ s V). unfold trace, final. cbn [fst snd].
  destruct (IH _ E) as (C' & E' & L').
  rewrite commands_app. fold (trace (perform a s)).
  rewrite C.
  change (snd (run acts (snd (fst (perform a s)))))
    with (trace (run acts (final (perform a s)))).
  change (snd (fst (run acts (snd (fst (perform a s))))))
    with (final (run acts (final (perform a s)))).
  rewrite C', E', L', L. repeat split.
Qed.

(** ** One task on the event loop is the sequential run *)

(** The event loop with one task, or none. *)
Definition alone (rounds : nat) (o : option task) : Co unit :=
  event_loop rounds (match o with Some t => [t] | None => [] end).

(** Two runs that end in the same globals with the same trace, the first
    after the events [pre]. *)
Definition extends {A B} (pre : list ev) (x : A * globals * list ev)
           (y : B * globals * list ev) : Prop :=
  final x = final y /\ pre ++ trace x = trace y.

Lemma alone_some (r : nat) (t : task) (s : globals) :
  alone (S r) (Some t) s = bind (resume t) (alone r) s.
Proof. reflexivity. Qed.

Lemma alone_none (r : nat) (s : globals) : alone r None s = (tt, s, []).
Proof. destruct r; reflexivity. Qed.

Lemma extends_bind {A B C} (pre : list ev) (m : Co A) (k : A -> Co B)
      (s : globals) (a : A) (s1 : globals) (t1 : list ev)
      (z : C * globals * list ev) :
  m s = (a, s1, t1) ->
  extends (pre ++ t1) (k a s1) z -> extends pre (bind m k s) z.
Proof.
  intros H [F T]. rewrite (bind_run _ _ s H). unfold extends, final, trace.
  cbn [fst snd]. unfold final, trace in F, T. rewrite F, <- T, app_assoc.
  split; reflexivity.
Qed.

Lemma extends_same {A B C} (pre : list ev) (x : A * globals * list ev)
      (y : B * globals * list ev) (z : C * globals * list ev) :
  extends [] x y -> final z = final y -> trace z = pre ++ trace y ->
  extends pre x z.
Proof.
  intros [F T] Fz Tz. cbn [app] in T. unfold extends.
  rewrite F, T, Fz, Tz. split; reflexivity.
Qed.

Ltac step :=
  rewrite ?bind_assoc; eapply extends_bind; [reflexivity|]; cbv beta.

Lemma start_alone (acts : list action) :
  forall r s, (3 * List.length acts <= r)%nat ->
  extends [] (bind (start acts) (alone r) s)
    (run acts s).
Proof.
  induction acts as [|a rest IH]; intros r s R.
  - cbn [start run]. rewrite bind_ret_l, alone_none. split; reflexivity.
  - cbn [List.length] in R.
    destruct a as [d n|secs|line]; cbn [start run].
    + rewrite !bind_assoc, bind_get. cbv beta.
      destruct (_estop s) eqn:E.
      * assert (P : perform (Dispatch d n) s
                    = (Returned tt, s, [Print "E-STOP active: ignoring move."])).
        { cbn [perform].
          rewrite (attempt_returned _ _ s (a := false))
            by (rewrite safe_move_suppressed by assumption; reflexivity).
          rewrite safe_move_suppressed by assumption. reflexivity. }
        rewrite bind_assoc.
        eapply extends_bind; [reflexivity|].
        apply extends_same with (y := run rest s);
          [apply IH; lia| |];
          rewrite (attempt_returned _ _ s (a := tt)) by (rewrite P; reflexivity);
          rewrite P; reflexivity.
      * assert (P : run (Dispatch d n :: rest) s
                    = (Raised "AttributeError: 'tuple' object has no attribute 'result'",
                       final (safe_move d n s),
                       trace (safe_move d n s))).
        { cbn [run perform].
          assert (V : value (safe_move d n s)
                      = Raised "AttributeError: 'tuple' object has no attribute 'result'")
            by (rewrite safe_move_live by assumption; reflexivity).
          rewrite (attempt_raised _ _ s (e := "AttributeError: 'tuple' object has no attribute 'result'"));
            rewrite (attempt_raised _ _ s V); reflexivity. }
        cbn [run] in P. rewrite P. rewrite safe_move_live by assumption.
        cbv zeta. unfold issue_time, waiting, after_command. cbv zeta.
        rewrite bind_assoc.
        eapply extends_bind; [reflexivity|]. cbv beta.
        cbn [clock].
        destruct (Qltb 0 (max0 (RATE_LIMIT_S - (clock s - _last_move_ts s)))) eqn:W.
        -- destruct r as [|[|r]]; try lia.
           assert (G : Qleb (max0 (RATE_LIMIT_S - (clock s - _last_move_ts s))) 0
                       = false).
           { apply Qleb_gt. apply Qltb_lt in W. exact W. }
           step. rewrite alone_some. unfold resume. cbn [awaiting todo resume_at].
           step. step.
           rewrite alone_some. unfold resume. cbn [awaiting todo resume_at].
           step. step. step. step.
           rewrite alone_none, G. split; reflexivity.
        -- destruct r as [|r]; try lia.
           step. rewrite alone_some. unfold resume. cbn [awaiting todo resume_at].
           step. step. step. step.
           rewrite alone_none. split; reflexivity.
    + destruct r as [|r]; [lia|].
      eapply extends_bind; [reflexivity|].
      rewrite alone_some. unfold resume. cbn [awaiting todo resume_at].
      rewrite bind_assoc.
      eapply extends_bind; [reflexivity|].
      apply extends_same
        with (y := run rest (final (sleep secs s)));
        [apply IH; lia| |];
        rewrite (attempt_returned _ _ s (a := tt)) by reflexivity; reflexivity.
    + assert (P : perform (Operator line) s
                  = (Returned tt, final (estop_listener line s),
                     trace (estop_listener line s))).
      { cbn [perform].
        rewrite (bind_run _ _ s (a := tt) (s1 := final (estop_listener line s))
                   (t1 := trace (estop_listener line s))).
        - cbn [ret value final trace fst snd]. rewrite app_nil_r. reflexivity.
        - destruct (estop_listener line s) as [[[] s1] t1]. reflexivity. }
      revert P. unfold estop_listener.
      destruct (String.eqb (lower (strip line)) "e"); intros P.
      * step. step.
        apply extends_same with (y := run rest (set_estop s));
          [apply IH; lia| |];
          rewrite (attempt_returned _ _ s (a := tt)) by (rewrite P; reflexivity);
          rewrite P; reflexivity.
      * destruct r as [|r]; [lia|].
        step. rewrite alone_some. unfold resume. cbn [awaiting todo resume_at].
        step.
        apply extends_same
          with (y := run rest (final (sleep (5 # 100) s)));
          [apply IH; lia| |];
          rewrite (attempt_returned _ _ s (a := tt)) by (rewrite P; reflexivity);
          rewrite P; reflexivity.
Qed.

(** A task that is alone on the event loop does what the sequential run of
    its actions does: the same globals at the end and the same trace. *)
Lemma solo_task_runs (acts : list action) (r : nat) (s : globals) :
  (3 * List.length acts < r)%nat ->
  final (event_loop r [spawn (clock s) acts] s)
  = final (run acts s)
  /\ trace (event_loop r [spawn (clock s) acts] s)
     = trace (run acts s).
Proof.
  intros R. destruct r as [|r]; [lia|].
  change (extends [] (alone (S r) (Some (spawn (clock s) acts)) s)
            (run acts s)).
  rewrite alone_some. unfold resume, spawn. cbn [awaiting todo resume_at].
  rewrite bind_assoc. eapply extends_bind; [reflexivity|].
  replace (set_clock (clock s) s) with s by (destruct s; reflexivity).
  apply start_alone. lia.
Qed.

Section Paced.
Hypothesis robot_takes_time : forall t d n, 0 <= fst (robot t d n).
Hypothesis sleep_not_short : forall t, 0 <= oversleep t.

Lemma safe_move_paced d n : paced _last_move_ts RATE_LIMIT_S (safe_move d n).
Proof.
  intros s. destruct (_estop s) eqn:E.
  - rewrite safe_move_suppressed by assumption.
    split; [exact I|apply Qle_refl].
  - rewrite safe_move_live by assumption. cbv zeta.
    unfold trace, final. cbn [fst snd].
    rewrite issue_times_app, battery_waiting_times. cbn [app issue_times].
    cbn [spaced last].
    split.
    + split; [apply battery_issue_time_floor; exact sleep_not_short|exact I].
    + cbn. specialize (robot_takes_time (issue_time s) d (_clamp_steps n)). lra.
Qed.

Ltac pace :=
  repeat match goal with
         | |- paced _ _ (attempt _ _) => apply paced_attempt; [|intros ?]
         | |- paced _ _ (bind _ _) => apply paced_bind; [|intros ?]
         | |- paced _ _ (if ?c then _ else _) => destruct c
         | |- paced _ _ (let '(_, _) := ?p in _) => destruct p
         | |- paced _ _ (safe_move _ _) => apply safe_move_paced
         | |- paced _ _ _ =>
             apply paced_quiet; intros ?; split; [reflexivity|apply Qle_refl]
         end.

Lemma run_paced (acts : list action) :
  paced _last_move_ts RATE_LIMIT_S (run acts).
Proof.
  induction acts as [|a acts IH]; cbn [run]; [apply paced_ret|].
  apply paced_attempt; [|intros _; exact IH].
  destruct a as [d n|secs|line]; cbn [perform]; unfold estop_listener; pace.
Qed.

Lemma follow_paced (route : list (string * Z)) :
  paced _last_move_ts RATE_LIMIT_S (follow route).
Proof.
  induction route as [|[name steps] rest IH]; cbn [follow]; [apply paced_ret|].
  apply paced_bind; [pace|]. intros s0. destruct (_estop s0); [pace|].
  apply paced_attempt; [pace|]. intros d.
  apply paced_attempt; [apply safe_move_paced|]. intros [|]; [|pace].
  apply paced_bind; [pace|]. intros _. apply IH.
Qed.

Lemma go_to_idle_hub_paced : paced _last_move_ts RATE_LIMIT_S go_to_idle_hub.
Proof.
  unfold go_to_idle_hub. apply paced_bind; [pace|]. intros _.
  apply paced_attempt; [apply follow_paced|]. intros [|]; pace.
Qed.

Lemma wander_paced (rounds : nat) :
  paced _last_move_ts RATE_LIMIT_S (wander rounds).
Proof.
  induction rounds as [|r IH]; cbn [wander]; [apply paced_ret|].
  apply paced_bind; [pace|]. intros s0.
  destruct (negb (_estop s0) && negb (_is_returning s0)); [|apply paced_ret].
  apply paced_attempt; [pace|]. intros d.
  apply paced_attempt; [apply safe_move_paced|]. intros _.
  apply paced_bind; [pace|]. intros _.
  apply paced_attempt; [pace|]. intros d'.
  apply paced_attempt; [apply safe_move_paced|]. intros _.
  apply paced_bind; [pace|]. intros _. apply IH.
Qed.

Lemma polling_paced (polls : nat) :
  forall mock told, paced _last_move_ts RATE_LIMIT_S (polling polls mock told).
Proof.
  induction polls as [|p IH]; intros mock told; cbn [polling]; [apply paced_ret|].
  apply paced_bind; [pace|]. intros s0. destruct (_estop s0); [apply paced_ret|].
  apply paced_attempt; [pace|]. intros [v mock'].
  apply paced_bind; [pace|]. intros _.
  destruct ((v <=? BATTERY_LOW_THRESHOLD)%Z && negb (_is_returning s0)).
  - apply paced_bind; [pace|]. intros _.
    apply paced_bind; [unfold announce; pace|]. intros _.
    apply paced_bind; [pace|]. intros _.
    apply paced_attempt; [apply go_to_idle_hub_paced|]. intros _.
    unfold announce, stop_all; pace.
  - apply paced_bind; [pace|]. intros _. apply IH.
Qed.

Lemma battery_run_spaced (acts : list action) (s : globals) :
  spaced RATE_LIMIT_S (_last_move_ts s) (issue_times (trace (run acts s))).
Proof. apply run_paced. Qed.

Lemma in_turn_spaced (acts : list action) (s : globals) :
  spaced RATE_LIMIT_S (_last_move_ts s) (issue_times (trace (in_turn acts s))).
Proof.
  assert (P : paced _last_move_ts RATE_LIMIT_S (in_turn acts)).
  { induction acts as [|a acts IH]; cbn [in_turn]; [apply paced_ret|].
    apply paced_bind; [|intros _; exact IH].
    destruct a as [d n|secs|line]; cbn [perform]; unfold estop_listener; pace. }
  apply P.
Qed.
End Paced.
End Script.
(** X10. [MockBattery()] runs no initialiser, so [tick] on it raises; once
    [_init_] has run with a drain that is not negative, the [n]-th [tick]
    returns the start value less [n] drains, and 0 from the point where that
    would be negative. *)
Theorem mock_battery_drains (start d : Z) (n : nat) :
  (0 <= d)%Z ->
  (forall k, exists e, ticks (S k) MockBattery_new = Raised e)
  /\ (exists b, ticks (S n) (_init_ MockBattery_new start d)
                = Returned (Z.max 0 (start - Z.of_nat (S n) * d), b))%Z
  /\ (forall p b, ticks (S n) (_init_ MockBattery_new start d) = Returned (p, b) ->
                  (0 <= p)%Z).
Proof.
  intros Hd.
  assert (G : forall m p, pct p <> None -> drain p = Some d ->
              exists b, ticks (S m) p
                        = Returned (Z.max 0 (match pct p with Some v => v | None => 0 end
                                             - Z.of_nat (S m) * d), b)%Z
                        /\ drain b = Some d).
  { induction m as [|m IH]; intros p Hp Hdr.
    - cbn [ticks]. unfold tick. destruct (pct p) as [v|]; [|congruence].
      rewrite Hdr. cbn [pct].
      exists (mkMockBattery (Some (Z.max 0 (v - d))) (Some d)).
      split; [|reflexivity].
      replace (Z.of_nat 1 * d)%Z with d by lia. reflexivity.
    - change (ticks (S (S m)) p)
        with (match tick p with
              | Returned (_, self') => ticks (S m) self'
              | Raised e => Raised e
              end).
      unfold tick. destruct (pct p) as [v|]; [|congruence]. rewrite Hdr.
      destruct (IH (mkMockBattery (Some (Z.max 0 (v - d))) (Some d)))
        as (b & E & B); [cbn; congruence|reflexivity|].
      rewrite E. cbn [pct]. exists b. split; [|exact B].
      f_equal. f_equal. lia. }
  split; [|split].
  - intros k. cbn [ticks]. unfold tick. cbn. eexists. reflexivity.
  - destruct (G n (_init_ MockBattery_new start d)) as (b & E & _);
      [cbn; congruence|reflexivity|].
    exists b. exact E.
  - intros p b E.
    destruct (G n (_init_ MockBattery_new start d)) as (b' & E' & _);
      [cbn; congruence|reflexivity|].
    rewrite E' in E. injection E as E1 _. lia.
Qed.

Lemma mock_battery_drains_witness :
  exists b, ticks 5 (_init_ MockBattery_new TESTING_BATTERY_START
                       TESTING_DRAIN_PER_CYCLE) = Returned (20%Z, b).
Proof.
  destruct (@mock_battery_drains TESTING_BATTERY_START TESTING_DRAIN_PER_CYCLE 4)
    as (_ & (b & E) & _); [unfold TESTING_DRAIN_PER_CYCLE; lia|].
  exists b. exact E.
Defined.

Section Tasks.
Variable robot : Q -> MoveRobotDirection -> Z -> Q * bool.
Variable oversleep : Q -> Q.

Ltac bound_all :=
  repeat match goal with
         | |- Forall _ (trace (attempt _ _ _)) => apply attempt_Forall; [|intros ? ?]
         | |- Forall _ (trace (bind _ _ _)) => apply bind_Forall; [|intros ? ?]
         | |- Forall _ (trace ((if ?c then _ else _) _)) => destruct c
         | |- Forall _ (trace ((let '(_, _) := ?p in _) _)) => destruct p
         | |- Forall _ (trace (safe_move _ _ _ _ _)) => apply safe_move_bounded
         | |- Forall _ (trace _) => cbn; repeat constructor
         end.

Lemma follow_bounded (route : list (string * Z)) :
  forall s, bounded (trace (follow robot oversleep route s)).
Proof.
  unfold bounded. induction route as [|[name steps] rest IH]; intros s.
  - constructor.
  - cbn [follow]. apply bind_Forall; [constructor|]. intros s0 s1.
    destruct (_estop s0); [bound_all|].
    apply attempt_Forall; [destruct (direction_named name); constructor|].
    intros d s2.
    apply attempt_Forall; [apply safe_move_bounded|]. intros ok s3.
    destruct ok; [|bound_all].
    apply bind_Forall; [constructor; [exact I|constructor]|].
    intros ? ?. apply IH.
Qed.

Lemma go_to_idle_hub_bounded (s : globals) :
  bounded (trace (go_to_idle_hub robot oversleep s)).
Proof.
  unfold bounded, go_to_idle_hub.
  apply bind_Forall; [repeat constructor|]. intros _ s1.
  apply attempt_Forall; [apply follow_bounded|]. intros [|] s2; bound_all.
Qed.

(** X11. Every command of the script's tasks, the wandering loop, the return
    route and the battery loop, and of any run of gateway calls, carries a
    step between [STEP_MIN] and [STEP_MAX], whatever step was asked for. *)
Theorem battery_steps_bounded :
  (forall s, bounded (trace (go_to_idle_hub robot oversleep s)))
  /\ (forall rounds s, bounded (trace (wander robot oversleep rounds s)))
  /\ (forall polls mock told s,
        bounded (trace (polling robot oversleep polls mock told s)))
  /\ (forall acts s, bounded (trace (run robot oversleep acts s))).
Proof.
  split; [exact go_to_idle_hub_bounded|]. split; [|split].
  - unfold bounded. induction rounds as [|r IH]; intros s; [constructor|].
    cbn [wander]. apply bind_Forall; [constructor|]. intros s0 s1.
    destruct (negb (_estop s0) && negb (_is_returning s0)); [|constructor].
    apply attempt_Forall; [constructor|]. intros d s2.
    apply attempt_Forall; [apply safe_move_bounded|]. intros _ s3.
    apply bind_Forall; [constructor; [exact I|constructor]|]. intros _ s4.
    apply attempt_Forall; [constructor|]. intros d' s5.
    apply attempt_Forall; [apply safe_move_bounded|]. intros _ s6.
    apply bind_Forall; [constructor; [exact I|constructor]|]. intros _ s7.
    apply IH.
  - unfold bounded. induction polls as [|p IH]; intros mock told s; [constructor|].
    cbn [polling]. apply bind_Forall; [constructor|]. intros s0 s1.
    destruct (_estop s0); [constructor|].
    apply attempt_Forall; [destruct (tick mock); constructor|].
    intros [v mock'] s2.
    apply bind_Forall; [repeat constructor|]. intros _ s3.
    destruct ((v <=? BATTERY_LOW_THRESHOLD)%Z && negb (_is_returning s0)).
    + apply bind_Forall; [constructor|]. intros _ s4.
      apply bind_Forall; [destruct (negb told); repeat constructor|]. intros _ s5.
      apply bind_Forall; [repeat constructor|]. intros _ s6.
      apply attempt_Forall; [apply go_to_idle_hub_bounded|]. intros _ s7.
      bound_all.
    + apply bind_Forall; [repeat constructor|]. intros _ s4. apply IH.
  - unfold bounded. induction acts as [|a rest IH]; intros s; [constructor|].
    cbn [run]. apply attempt_Forall; [|intros ? ?; apply IH].
    destruct a; cbn [perform]; unfold estop_listener, sleep; bound_all.
Qed.

(** X12. As the script stands the battery task fails at its first poll:
    [MockBattery()] has no [pct], the first [tick] raises, and the task ends
    having logged nothing, issued no command and left [_is_returning] and
    every other global as they were; with the e-stop flag already set it
    returns at the loop head instead. *)
Theorem return_loop_fails_at_first_poll (polls : nat) (s : globals) :
  trace (low_battery_return_loop robot oversleep polls s) = []
  /\ final (low_battery_return_loop robot oversleep polls s) = s
  /\ (_estop s = false ->
      exists e, value (low_battery_return_loop robot oversleep (S polls) s)
                = Raised e)
  /\ (_estop s = true ->
      value (low_battery_return_loop robot oversleep polls s) = Returned tt).
Proof.
  unfold low_battery_return_loop.
  destruct polls as [|p]; cbn [polling];
    unfold attempt, bind, get, ret, value, final, trace; cbn;
    destruct (_estop s) eqn:E; cbn;
    repeat split; try reflexivity; try discriminate;
    intros _; eexists; reflexivity.
Qed.

(** With the flag clear what is left of the route is not followed beyond
    its first leg: the leg is issued and the call of the gateway raises, or
    the name of the leg is no member of [MoveRobotDirection]. *)
Lemma follow_first_leg (name : string) (steps : Z) (rest : list (string * Z))
      (s : globals) :
  _estop s = false ->
  (forall d, direction_named name = Returned d ->
     orders (trace (follow robot oversleep ((name, steps) :: rest) s))
     = [(d, _clamp_steps steps)]
     /\ exists e, value (follow robot oversleep ((name, steps) :: rest) s)
                  = Raised e)
  /\ (forall e, direction_named name = Raised e ->
        follow robot oversleep ((name, steps) :: rest) s = (Raised e, s, [])).
Proof.
  intros E. cbn [follow]. rewrite bind_get. rewrite E. split.
  - intros d N. rewrite N.
    rewrite (attempt_returned _ _ s (a := d)) by reflexivity.
    cbn [ret value final trace fst snd app].
    destruct (proj2 (safe_move_value robot oversleep s d steps) E) as (e & V).
    rewrite (attempt_raised _ _ s V). cbn [value trace fst snd].
    split; [apply battery_safe_move_orders; exact E|].
    exists e. reflexivity.
  - intros e N. rewrite N. apply attempt_raised. reflexivity.
Qed.

Lemma follow_one_command (route : list (string * Z)) (s : globals) :
  (List.length (commands (trace (follow robot oversleep route s))) <= 1)%nat.
Proof.
  destruct route as [|[name steps] rest]; [cbn; lia|].
  destruct (_estop s) eqn:E.
  - cbn [follow]. rewrite bind_get, E. cbn. lia.
  - destruct (follow_first_leg name steps rest s E) as [Ok No].
    destruct (direction_named name) as [d|e].
    + destruct (Ok d eq_refl) as [O _].
      rewrite <- orders_commands in O.
      assert (L : List.length (orders (commands
                    (trace (follow robot oversleep ((name, steps) :: rest) s))))
                  = 1%nat) by (rewrite O; reflexivity).
      assert (G : forall tr : list ev,
                List.length (orders (commands tr)) = List.length (commands tr)).
      { unfold commands. induction tr as [|x tr IH]; [reflexivity|].
        destruct x; cbn; rewrite ?IH; reflexivity. }
      rewrite G in L. lia.
    + rewrite (No e eq_refl). cbn. lia.
Qed.

(** X13. [go_to_idle_hub] does not get beyond the first leg of
    [RETURN_ROUTE]: with the e-stop flag set it returns before any step,
    having sent nothing; with the flag clear it sends [FORWARD 4] and ends
    with the exception that [safe_move] raises once the command is
    answered, so that no later leg is ever sent.  Whatever the route, the
    loop sends at most one command. *)
Theorem idle_hub_ends_at_first_leg (s : globals) :
  (_estop s = true ->
   go_to_idle_hub robot oversleep s
   = (Returned tt, s,
      [Print "Navigating to Idle Hub…";
       Print "E-STOP during return; aborting path."]))
  /\ (_estop s = false ->
      orders (trace (go_to_idle_hub robot oversleep s)) = [(FORWARD, 4%Z)]
      /\ exists e, value (go_to_idle_hub robot oversleep s) = Raised e)
  /\ (forall route,
        (List.length (commands (trace (follow robot oversleep route s))) <= 1)%nat).
Proof.
  split; [|split].
  - intros E. unfold go_to_idle_hub, RETURN_ROUTE. cbn [follow].
    unfold attempt, bind, get, logging, emit, ret. cbn. rewrite E. reflexivity.
  - intros E. unfold go_to_idle_hub.
    rewrite bind_trace, bind_value, orders_app. cbv beta.
    change (final (logging "Navigating to Idle Hub…" s)) with s.
    change (orders (trace (logging "Navigating to Idle Hub…" s)))
      with (@nil (MoveRobotDirection * Z)).
    cbn [app]. unfold RETURN_ROUTE.
    destruct (follow_first_leg "FORWARD" 4
                [("LEFT", 2); ("FORWARD", 6); ("RIGHT", 2); ("FORWARD", 4)]%string%Z
                s E) as [Ok _].
    destruct (Ok FORWARD eq_refl) as (O & e & V).
    rewrite (attempt_raised _ _ s V). cbn [value trace fst snd].
    split; [exact O|]. exists e. reflexivity.
  - intros route. apply follow_one_command.
Qed.

Lemma wander_idle (rounds : nat) (s : globals) :
  _estop s = true \/ _is_returning s = true ->
  wander robot oversleep rounds s = (Returned tt, s, []).
Proof.
  intros H. destruct rounds as [|r]; [reflexivity|].
  cbn [wander]. rewrite bind_get.
  destruct H as [H|H]; rewrite H; [reflexivity|].
  destruct (_estop s); reflexivity.
Qed.

(** X15. The wandering loop of [connect_and_run] starts a round only with
    both flags clear: with the e-stop or the returning flag set it does
    nothing at all.  With both clear its first round sends [FORWARD 2] and
    ends with the exception that [safe_move] raises once the command is
    answered: the loop sends this one command and never a second. *)
Theorem wander_ends_at_first_command (rounds : nat) (s : globals) :
  (_estop s = true \/ _is_returning s = true ->
   wander robot oversleep rounds s = (Returned tt, s, []))
  /\ (_estop s = false -> _is_returning s = false ->
      orders (trace (wander robot oversleep (S rounds) s)) = [(FORWARD, 2%Z)]
      /\ exists e, value (wander robot oversleep (S rounds) s) = Raised e).
Proof.
  split; [apply wander_idle|].
  intros E R. cbn [wander]. rewrite bind_get, E, R. cbn [negb andb].
  rewrite (attempt_returned _ _ s (a := FORWARD)) by reflexivity.
  cbn [ret value final trace fst snd app].
  destruct (proj2 (safe_move_value robot oversleep s FORWARD 2) E) as (e & V).
  rewrite (attempt_raised _ _ s V). cbn [value trace fst snd].
  split; [apply battery_safe_move_orders; exact E|].
  exists e. reflexivity.
Qed.

(** X16. [stop_all] latches the stop for every caller of the gateway: after
    it the return route aborts before its first step, the wandering loop
    does not start a round, the battery loop returns at its head and no run
    of gateway calls issues a command; the flag stays set. *)
Theorem stop_all_latches (s : globals) :
  _estop (final (stop_all s)) = true
  /\ commands (trace (go_to_idle_hub robot oversleep (final (stop_all s)))) = []
  /\ (forall rounds,
        wander robot oversleep rounds (final (stop_all s))
        = (Returned tt, final (stop_all s), []))
  /\ (forall polls mock told,
        polling robot oversleep polls mock told (final (stop_all s))
        = (Returned tt, final (stop_all s), []))
  /\ (forall acts,
        commands (trace (run robot oversleep acts (final (stop_all s)))) = []
        /\ _estop (final (run robot oversleep acts (final (stop_all s)))) = true).
Proof.
  set (s' := final (stop_all s)).
  assert (E : _estop s' = true) by reflexivity.
  clearbody s'.
  split; [exact E|]. split; [|split; [|split]].
  - unfold go_to_idle_hub, RETURN_ROUTE. cbn [follow].
    unfold attempt, bind, get, logging, emit, ret, trace. cbn.
    rewrite E. reflexivity.
  - intros rounds. apply wander_idle. left. exact E.
  - intros [|p] mock told; [reflexivity|].
    cbn [polling]. rewrite bind_get, E. reflexivity.
  - intros acts. destruct (battery_run_suppressed robot oversleep acts s' E)
      as (C & F & _). split; assumption.
Qed.

Section Floor.
Hypothesis robot_takes_time : forall t d n, 0 <= fst (robot t d n).
Hypothesis sleep_not_short : forall t, 0 <= oversleep t.

(** X14. Each task of the script keeps the rate limit on its own: in the
    wandering loop, on the return route and in the battery loop (from any
    battery object) two consecutive commands are at least [RATE_LIMIT_S]
    apart, and the first is that long after the time stamp the task finds. *)
Theorem battery_tasks_keep_floor (s : globals) :
  (forall rounds,
     spaced RATE_LIMIT_S (_last_move_ts s)
       (issue_times (trace (wander robot oversleep rounds s))))
  /\ spaced RATE_LIMIT_S (_last_move_ts s)
       (issue_times (trace (go_to_idle_hub robot oversleep s)))
  /\ (forall polls mock told,
        spaced RATE_LIMIT_S (_last_move_ts s)
          (issue_times (trace (polling robot oversleep polls mock told s)))).
Proof.
  split; [|split].
  - intros rounds. apply wander_paced; assumption.
  - apply go_to_idle_hub_paced; assumption.
  - intros polls mock told. apply polling_paced; assumption.
Qed.
End Floor.
End Tasks.

Lemma battery_tasks_keep_floor_witness :
  spaced RATE_LIMIT_S 0
    (issue_times (trace (go_to_idle_hub steady_robot punctual (initial 100)))).
Proof.
  assert (P : 0 <= 1 # 10) by (cbv; discriminate).
  exact (proj1 (proj2 (@battery_tasks_keep_floor steady_robot punctual
                         (fun _ _ _ => P) (fun _ => Qle_refl 0) (initial 100)))).
Defined.

(** ** Calls that overlap *)

Section Overlap.
Variable robot : Q -> MoveRobotDirection -> Z -> Q * bool.
Variable oversleep : Q -> Q.

Lemma no_wait (x : Q) : x <= 0 -> Qltb 0 (max0 x) = false.
Proof.
  intros H. destruct (max0_spec x) as (_ & N & _). rewrite (N H).
  apply Qltb_ge. apply Qle_refl.
Qed.

(** A task whose first action is a call of the gateway issues the command
    as soon as it is resumed, when the flag is clear and the time stamp it
    reads is old enough. *)
Lemma resume_issues (s0 : globals) (t : Q) d n (rest : list action) :
  _estop s0 = false ->
  Qltb 0 (max0 (RATE_LIMIT_S - (t - _last_move_ts s0))) = false ->
  resume robot oversleep (mkTask t AfterAwait (Dispatch d n :: rest)) s0
  = (Some (mkTask (t + fst (robot t d (_clamp_steps n))) AfterReply rest),
     set_clock t s0, [Execute t d (_clamp_steps n)]).
Proof.
  intros E W. unfold resume. cbn [awaiting todo resume_at start].
  unfold bind, modify, get, time, issue.
  cbn [fst snd _estop set_clock clock _last_move_ts app].
  rewrite E. cbn [fst snd clock set_clock _last_move_ts]. rewrite W. reflexivity.
Qed.

(** A task resumed with the robot's answer writes the time stamp and ends. *)
Lemma resume_answered (s0 : globals) (t : Q) (rest : list action) :
  resume robot oversleep (mkTask t AfterReply rest) s0
  = (None, set_last_move_ts t (set_clock t s0), []).
Proof. reflexivity. Qed.

Lemma event_loop_round (rounds : nat) (ts others : list task) (t : task)
      (s0 s1 : globals) (r : option task) (tr : list ev) :
  earliest ts = Some (t, others) ->
  resume robot oversleep t s0 = (r, s1, tr) ->
  trace (event_loop robot oversleep (S rounds) ts s0)
  = tr ++ trace (event_loop robot oversleep rounds
                   (match r with Some t' => others ++ [t'] | None => others end)
                   s1).
Proof.
  intros H1 H2. cbn [event_loop]. rewrite H1, bind_trace.
  unfold trace at 1, value, final. rewrite H2. reflexivity.
Qed.

Lemma earliest_Forall (P : task -> Prop) (ts : list task) :
  forall t others, earliest ts = Some (t, others) ->
  Forall P ts -> P t /\ Forall P others.
Proof.
  induction ts as [|u rest IH]; intros t others H F; [discriminate|].
  inversion F as [|x l Pu Prest]; subst. cbn [earliest] in H.
  destruct (earliest rest) as [[t' others']|].
  - destruct (IH t' others' eq_refl Prest) as [Pt' Po'].
    destruct (Qleb _ _); injection H as <- <-; auto.
  - injection H as <- <-. auto.
Qed.

(** Tasks that only await the robot's answer issue nothing more. *)
Lemma answers_are_quiet (rounds : nat) :
  forall ts s0,
  Forall (fun t => awaiting t = AfterReply) ts ->
  issue_times (trace (event_loop robot oversleep rounds ts s0)) = []
  /\ orders (trace (event_loop robot oversleep rounds ts s0)) = [].
Proof.
  induction rounds as [|r IH]; intros ts s0 F; [split; reflexivity|].
  destruct (earliest ts) as [[t others]|] eqn:H.
  - destruct (@earliest_Forall _ ts t others H F) as [Pt Po].
    rewrite (@event_loop_round r ts others t s0
               (set_last_move_ts (resume_at t) (set_clock (resume_at t) s0))
               None [] H)
      by (destruct t as [at_ fr td]; cbn in Pt; subst fr; apply resume_answered).
    cbn [app]. apply IH. exact Po.
  - cbn [event_loop]. rewrite H. split; reflexivity.
Qed.

(** X17. [safe_move] does not serialise callers that overlap.  It writes the
    time stamp only when the robot has answered, so when a second task calls
    it [delta] after a first task's command was issued and before that
    command is answered, the time stamp it reads is still the old one: with
    that stamp at least [RATE_LIMIT_S] old the second command is issued at
    once, [delta] after the first, and for [delta] below [RATE_LIMIT_S] the
    two commands break the floor. *)
Theorem overlapping_calls_unserialised
        (s : globals) (d1 d2 : MoveRobotDirection) (n1 n2 : Z) (delta : Q) :
  _estop s = false ->
  RATE_LIMIT_S <= clock s - _last_move_ts s ->
  0 <= delta ->
  delta < fst (robot (clock s) d1 (_clamp_steps n1)) ->
  issue_times
    (trace (event_loop robot oversleep 4
              [spawn (clock s) [Dispatch d1 n1];
               spawn (clock s + delta) [Dispatch d2 n2]] s))
  = [clock s; clock s + delta]
  /\ orders
       (trace (event_loop robot oversleep 4
                 [spawn (clock s) [Dispatch d1 n1];
                  spawn (clock s + delta) [Dispatch d2 n2]] s))
     = [(d1, _clamp_steps n1); (d2, _clamp_steps n2)]
  /\ (delta < RATE_LIMIT_S ->
      ~ spaced RATE_LIMIT_S (_last_move_ts s)
          (issue_times
             (trace (event_loop robot oversleep 4
                       [spawn (clock s) [Dispatch d1 n1];
                        spawn (clock s + delta) [Dispatch d2 n2]] s)))).
Proof.
  intros E Old D0 D1.
  assert (H1 : Qleb (clock s) (clock s + delta) = true) by (apply Qleb_le; lra).
  assert (H2 : Qltb 0 (max0 (RATE_LIMIT_S - (clock s - _last_move_ts s))) = false)
    by (apply no_wait; lra).
  assert (H3 : Qltb 0 (max0 (RATE_LIMIT_S - (clock s + delta - _last_move_ts s)))
               = false) by (apply no_wait; lra).
  assert (H4 : Qleb (clock s + delta)
                 (clock s + fst (robot (clock s) d1 (_clamp_steps n1))) = true)
    by (apply Qleb_le; lra).
  set (reply1 := robot (clock s) d1 (_clamp_steps n1)) in *.
  set (reply2 := robot (clock s + delta) d2 (_clamp_steps n2)).
  set (t1 := mkTask (clock s + fst reply1) AfterReply []).
  set (t2 := mkTask (clock s + delta + fst reply2) AfterReply []).
  assert (T : exists quiet,
            trace (event_loop robot oversleep 4
                     [spawn (clock s) [Dispatch d1 n1];
                      spawn (clock s + delta) [Dispatch d2 n2]] s)
            = Execute (clock s) d1 (_clamp_steps n1)
              :: Execute (clock s + delta) d2 (_clamp_steps n2) :: quiet
            /\ issue_times quiet = [] /\ orders quiet = []).
  { rewrite (@event_loop_round 3
               [spawn (clock s) [Dispatch d1 n1];
                spawn (clock s + delta) [Dispatch d2 n2]]
               [spawn (clock s + delta) [Dispatch d2 n2]]
               (spawn (clock s) [Dispatch d1 n1])
               s (set_clock (clock s) s) (Some t1)
               [Execute (clock s) d1 (_clamp_steps n1)]).
    2:{ unfold earliest, spawn. cbn [resume_at]. rewrite H1. reflexivity. }
    2:{ unfold spawn. apply resume_issues; assumption. }
    cbn [app].
    rewrite (@event_loop_round 2
               [spawn (clock s + delta) [Dispatch d2 n2]; t1] [t1]
               (spawn (clock s + delta) [Dispatch d2 n2])
               (set_clock (clock s) s)
               (set_clock (clock s + delta) (set_clock (clock s) s))
               (Some t2)
               [Execute (clock s + delta) d2 (_clamp_steps n2)]).
    2:{ unfold earliest, spawn, t1. cbn [resume_at]. rewrite H4. reflexivity. }
    2:{ unfold spawn. apply resume_issues; assumption. }
    cbn [app]. eexists. split; [reflexivity|].
    apply answers_are_quiet. repeat constructor. }
  destruct T as (quiet & T & Q1 & Q2). rewrite T.
  cbn [issue_times orders]. rewrite Q1, Q2.
  split; [reflexivity|]. split; [reflexivity|].
  intros Lt (_ & G & _). lra.
Qed.
End Overlap.

Lemma overlapping_calls_unserialised_witness :
  issue_times
    (trace (event_loop walking_robot punctual 4
              [spawn 100 [Dispatch LEFTWARD 1];
               spawn (100 + (1 # 10)) [Dispatch FORWARD 4]]
              (mkGlobals 0 false false 100)))
  = [100; 100 + (1 # 10)].
Proof.
  refine (proj1 (@overlapping_calls_unserialised walking_robot punctual
                   (mkGlobals 0 false false 100) LEFTWARD FORWARD 1 4 (1 # 10)
                   eq_refl _ _ _));
    cbv; first [reflexivity | discriminate].
Defined.

(** Two calls of the gateway that overlap.  A task calls [safe_move] at
    100 s, the time stamp being old: its [FORWARD 2] is sent at once, and the
    robot takes a second to answer.  Another task calls [safe_move] a tenth
    of a second later: the time stamp is still the old one, being written
    only when the robot has answered, and its [FORWARD 4] is sent at once,
    0.1 s after the command before it and so less than [RATE_LIMIT_S]. *)
Remark overlapping_calls_break_floor :
  let first := spawn 100 [Dispatch FORWARD 2] in
  let second := spawn (1001 # 10) [Dispatch FORWARD 4] in
  let s0 := mkGlobals (98 # 1) false false 100 in
  let r := event_loop walking_robot punctual 4 [first; second] s0 in
  orders (trace r) = [(FORWARD, 2%Z); (FORWARD, 4%Z)]
  /\ issue_times (trace r) = [100; 1001 # 10]
  /\ (1001 # 10) - 100 < RATE_LIMIT_S
  /\ ~ spaced RATE_LIMIT_S (_last_move_ts s0) (issue_times (trace r)).
Proof.
  cbv zeta. split; [reflexivity|]. split; [reflexivity|].
  split; [reflexivity|].
  intros (_ & G & _). revert G. cbv. intros G. apply G. reflexivity.
Qed.

End LowBattery.

(** * codes/final_codes/Posture Stability Safety.py *)

Module Posture.

(** The SDK is no part of the repository; see [LowBattery] for how its
    calls are modelled. *)
Inductive MoveRobotDirection := FORWARD | BACKWARD | LEFTWARD | RIGHTWARD.

(** Configuration constants, lines 25-30. *)
Definition SAFE_TILT_WARN : Q := 10.
Definition SAFE_TILT_TRIP : Q := 18.
Definition SAMPLE_HZ : Q := 20.
Definition MOVE_COOLDOWN : Q := 35 # 100.
Definition MAX_STEPS : Z := 6.
Definition DEBOUNCE : Z := 3.

(** The global [estop_event], line 32, and the clock. *)
Record globals : Type := mkGlobals {
  estop_event : bool;
  clock : Q
}.

Definition set_estop (s : globals) : globals := mkGlobals true (clock s).
Definition set_clock (t : Q) (s : globals) : globals :=
  mkGlobals (estop_event s) t.

Definition initial (t0 : Q) : globals := mkGlobals false t0.

Definition ev : Type := event MoveRobotDirection.
Definition Co : Type -> Type := M globals ev.

(** [clamp], lines 35-36. *)
Definition clamp (v lo hi : Z) : Z := Z.max lo (Z.min hi v).

(** The robot and the scheduler of the examples. *)
Definition steady_robot : Q -> MoveRobotDirection -> Z -> Q * bool :=
  fun _ _ _ => (1 # 10, true).
Definition punctual : Q -> Q := fun _ => 0.

(** An API object [MoveRobot] once it is built. *)
Record request : Type := mkRequest {
  req_direction : MoveRobotDirection;
  req_step : Z
}.

(** [MoveRobot(direction, steps)], line 50.  The constructor of the SDK is
    [MoveRobot(is_serial, direction, step)] and asserts that its [direction]
    is a member of [MoveRobotDirection]; the scripts that drive the robot
    build the object with keywords, [MoveRobot(step=step, direction=direction)].
    Called with the direction and the step in the first two places, it finds
    the step where it expects the direction: the assertion fails, before
    anything is sent. *)
Definition MoveRobot (direction : MoveRobotDirection) (steps : Z)
  : outcome request :=
  Raised "AssertionError".

(** The console lines that report a confirmed level, and those of the
    recovery. *)
Definition WARN_LINE : string := "[WARN] Approaching unsafe tilt.".
Definition RECOVERY_LINE : string :=
  "[RECOVERY] Excessive tilt detected -> backing off & settling...".
Definition RECOVERY_DONE_LINE : string := "[RECOVERY] Done.".
Definition TRIP_LINE : string :=
  "[TRIP] Tilt beyond safe limit! Initiating recovery.".

(** The console lines of a trace, in order. *)
Fixpoint printed (tr : list ev) : list string :=
  match tr with
  | [] => []
  | Print msg :: tr' => msg :: printed tr'
  | _ :: tr' => printed tr'
  end.

(** How many times a trace reports the level confirmed. *)
Definition confirmations (level : HazardLevel) (tr : list ev) : nat :=
  match level with
  | Soft => count_occ string_dec (printed tr) WARN_LINE
  | Hard => count_occ string_dec (printed tr) TRIP_LINE
  | Clear => 0
  end.

(** The counter of a level among the two locals [(warn_count, trip_count)]. *)
Definition counter (level : HazardLevel) (c : Z * Z) : Z :=
  match level with
  | Soft => fst c
  | Hard => snd c
  | Clear => 0
  end.

(** The level the branches of [posture_monitor], lines 176-184, give a
    reading. *)
Definition tilt_level (pitch roll : Q) : HazardLevel :=
  if Qleb SAFE_TILT_TRIP (Qabs pitch) || Qleb SAFE_TILT_TRIP (Qabs roll) then Hard
  else if Qleb SAFE_TILT_WARN (Qabs pitch) || Qleb SAFE_TILT_WARN (Qabs roll) then Soft
  else Clear.


Section Script.
Variable robot : Q -> MoveRobotDirection -> Z -> Q * bool.
Variable oversleep : Q -> Q.

Open Scope eff_scope.

Definition print (msg : string) : Co unit := emit (Print msg).

Definition sleep (secs : Q) : Co unit :=
  fun s =>
    let t := clock s in
    let d := if Qleb secs 0 then 0 else secs in
    (tt, set_clock (t + d + oversleep t) s, [Sleep t secs]).

(** [await req.execute()]. *)
Definition execute (req : request) : Co bool :=
  fun s =>
    let t := clock s in
    (snd (robot t (req_direction req) (req_step req)),
     set_clock (t + fst (robot t (req_direction req) (req_step req))) s,
     [Execute t (req_direction req) (req_step req)]).

(** [move_safe], lines 46-53.  The object of line 50 is never built, so
    that a call that is not suppressed raises and sends nothing. *)
Definition move_safe (direction : MoveRobotDirection) (steps : Z)
  : Co (outcome unit) :=
  s <- get ;;
  if estop_event s then ret (Returned tt)
  else
    let steps := clamp steps 1 MAX_STEPS in
    req <~ ret (MoveRobot direction steps) ;;
    ok <- execute req ;;
    (if ok then ret tt else print "[WARN] Move {direction} failed: {getattr(resp,'result',None)}") ;;
    sleep MOVE_COOLDOWN ;;
    ret (Returned tt).

Arguments move_safe : simpl never.

(** [recovery_sequence], lines 155-159. *)
Definition recovery_sequence : Co (outcome unit) :=
  print RECOVERY_LINE ;;
  _ <~ move_safe BACKWARD 1 ;;
  _ <~ move_safe FORWARD 1 ;;
  print RECOVERY_DONE_LINE ;;
  ret (Returned tt).

Arguments recovery_sequence : simpl never.

(** One pass through the [while] body of [posture_monitor], lines 172-195:
    [(pitch, roll)] is what [get_pitch_roll] returned, [c] the locals
    [(warn_count, trip_count)]. *)
Definition pass (pitch roll : Q) (c : Z * Z) : Co (outcome (Z * Z)) :=
  let '(warn_count, trip_count) := c in
  let '(warn_count, trip_count) :=
    if Qleb SAFE_TILT_TRIP (Qabs pitch) || Qleb SAFE_TILT_TRIP (Qabs roll)
    then (0, trip_count + 1)%Z
    else if Qleb SAFE_TILT_WARN (Qabs pitch) || Qleb SAFE_TILT_WARN (Qabs roll)
    then (warn_count + 1, 0)%Z
    else (0, 0)%Z in
  warn_count <-
    (if (DEBOUNCE <=? warn_count)%Z
     then print WARN_LINE ;; ret 0%Z
     else ret warn_count) ;;
  trip_count <~
    (if (DEBOUNCE <=? trip_count)%Z
     then print TRIP_LINE ;; _ <~ recovery_sequence ;; ret (Returned 0%Z)
     else ret (Returned trip_count)) ;;
  sleep (1 / SAMPLE_HZ) ;;
  ret (Returned (warn_count, trip_count)).

(** The [while] loop of [posture_monitor] from the locals [c], over the
    readings the posture provider gives. *)
Fixpoint monitor (readings : list (Q * Q)) (c : Z * Z) : Co (outcome (Z * Z)) :=
  match readings with
  | [] => ret (Returned c)
  | (pitch, roll) :: rest =>
      s <- get ;;
      if estop_event s then ret (Returned c)
      else
        c' <~ pass pitch roll c ;;
        monitor rest c'
  end.

(** [posture_monitor], lines 162-195. *)
Definition posture_monitor (readings : list (Q * Q)) : Co (outcome (Z * Z)) :=
  print "[MONITOR] Posture monitor running @ {SAMPLE_HZ} Hz | Mode: {mode}" ;;
  monitor readings (0, 0)%Z.

(** The locals after the counting branches, lines 176-184. *)
Definition bumped (pitch roll : Q) (c : Z * Z) : Z * Z :=
  match tilt_level pitch roll with
  | Hard => (0, snd c + 1)%Z
  | Soft => (fst c + 1, 0)%Z
  | Clear => (0, 0)%Z
  end.

(** A counter after its confirmation test, lines 186-193. *)
Definition settled (n : Z) : Z := if (DEBOUNCE <=? n)%Z then 0%Z else n.

(** The globals after the sleep that ends a pass. *)
Definition ticked (s : globals) : globals :=
  set_clock (clock s + 1 / SAMPLE_HZ + oversleep (clock s)) s.

(** What a pass prints for the warn counter [n] after counting. *)
Definition warned (n : Z) : list ev :=
  if (DEBOUNCE <=? n)%Z then [Print WARN_LINE] else [].

(** ** The gateway and the recovery *)

Lemma printed_app (a b : list ev) : printed (a ++ b) = printed a ++ printed b.
Proof.
  induction a as [|e a IH]; [reflexivity|].
  destruct e; cbn; rewrite IH; reflexivity.
Qed.

Lemma confirmations_app (level : HazardLevel) (a b : list ev) :
  confirmations level (a ++ b)
  = (confirmations level a + confirmations level b)%nat.
Proof.
  destruct level; cbn [confirmations]; [reflexivity| |];
    rewrite printed_app; apply count_occ_app.
Qed.

Lemma move_safe_suppressed (s : globals) d n :
  estop_event s = true -> move_safe d n s = (Returned tt, s, []).
Proof.
  intros H. unfold move_safe. rewrite bind_get, H. reflexivity.
Qed.

(** A call that is not suppressed raises: no command, no sleep, the globals
    as they were. *)
Lemma move_safe_live (s : globals) d n :
  estop_event s = false -> move_safe d n s = (Raised "AssertionError", s, []).
Proof.
  intros H. unfold move_safe. rewrite bind_get, H. reflexivity.
Qed.

Lemma recovery_suppressed (s : globals) :
  estop_event s = true ->
  recovery_sequence s
  = (Returned tt, s, [Print RECOVERY_LINE; Print RECOVERY_DONE_LINE]).
Proof.
  intros H. unfold recovery_sequence, attempt, bind, print, emit, ret. cbn.
  rewrite !move_safe_suppressed by assumption. reflexivity.
Qed.

Lemma recovery_live (s : globals) :
  estop_event s = false ->
  recovery_sequence s = (Raised "AssertionError", s, [Print RECOVERY_LINE]).
Proof.
  intros H. unfold recovery_sequence, attempt, bind, print, emit, ret. cbn.
  rewrite move_safe_live by assumption. reflexivity.
Qed.

(** ** The monitor *)

(** What a pass does, by the counters after counting: below [DEBOUNCE] it
    sleeps and returns them; a confirmed trip is printed and starts the
    recovery, which raises unless the flag is set. *)
Lemma pass_run (s : globals) (pitch roll : Q) (c : Z * Z) :
  pass pitch roll c s
  = (let b := bumped pitch roll c in
     if (DEBOUNCE <=? snd b)%Z then
       if estop_event s then
         (Returned (settled (fst b), 0%Z), ticked s,
          warned (fst b)
          ++ [Print TRIP_LINE; Print RECOVERY_LINE; Print RECOVERY_DONE_LINE;
              Sleep (clock s) (1 / SAMPLE_HZ)])
       else
         (Raised "AssertionError", s,
          warned (fst b) ++ [Print TRIP_LINE; Print RECOVERY_LINE])
     else
       (Returned (settled (fst b), snd b), ticked s,
        warned (fst b) ++ [Sleep (clock s) (1 / SAMPLE_HZ)])).
Proof.
  destruct c as [w t]. unfold pass, bumped, tilt_level, settled, warned, ticked.
  cbv zeta.
  destruct (Qleb SAFE_TILT_TRIP (Qabs pitch) || Qleb SAFE_TILT_TRIP (Qabs roll));
    [|destruct (Qleb SAFE_TILT_WARN (Qabs pitch) || Qleb SAFE_TILT_WARN (Qabs roll))];
    cbn [fst snd]; change (DEBOUNCE <=? 0)%Z with false; cbv iota.
  - destruct (DEBOUNCE <=? t + 1)%Z.
    + destruct (estop_event s) eqn:E.
      * unfold attempt, bind, print, emit, ret, sleep. cbn.
        rewrite recovery_suppressed by assumption. reflexivity.
      * unfold attempt, bind, print, emit, ret, sleep. cbn.
        rewrite recovery_live by assumption. reflexivity.
    + reflexivity.
  - destruct (DEBOUNCE <=? w + 1)%Z; reflexivity.
  - reflexivity.
Qed.

Lemma warned_quiet (n : Z) :
  commands (warned n) = [] /\ confirmations Hard (warned n) = 0%nat
  /\ confirmations Soft (warned n)
     = (if (DEBOUNCE <=? n)%Z then 1 else 0)%nat.
Proof. unfold warned. destruct (DEBOUNCE <=? n)%Z; repeat split. Qed.

Lemma pass_facts (s : globals) (pitch roll : Q) (c : Z * Z) :
  commands (trace (pass pitch roll c s)) = []
  /\ estop_event (final (pass pitch roll c s)) = estop_event s
  /\ confirmations Soft (trace (pass pitch roll c s))
     = (if (DEBOUNCE <=? fst (bumped pitch roll c))%Z then 1 else 0)%nat
  /\ confirmations Hard (trace (pass pitch roll c s))
     = (if (DEBOUNCE <=? snd (bumped pitch roll c))%Z then 1 else 0)%nat
  /\ ((snd (bumped pitch roll c) < DEBOUNCE)%Z ->
      value (pass pitch roll c s)
      = Returned (settled (fst (bumped pitch roll c)), snd (bumped pitch roll c))).
Proof.
  rewrite pass_run. cbv zeta.
  destruct (warned_quiet (fst (bumped pitch roll c))) as (W1 & W2 & W3).
  destruct (DEBOUNCE <=? snd (bumped pitch roll c))%Z eqn:T;
    [destruct (estop_event s) eqn:E|];
    unfold trace, final, value; cbn [fst snd];
    rewrite commands_app, !confirmations_app, W1, W2, W3;
    repeat split; try assumption;
    try (destruct (DEBOUNCE <=? fst (bumped pitch roll c))%Z; reflexivity);
    try (intros B; apply Z.leb_le in T; lia).
Qed.

(** The counter of a level after the counting branches: one more for the
    level of the reading, zero for the other. *)
Lemma bumped_counter (pitch roll : Q) (c : Z * Z) (level : HazardLevel) :
  level <> Clear ->
  (tilt_level pitch roll = level ->
   counter level (bumped pitch roll c) = (counter level c + 1)%Z)
  /\ (tilt_level pitch roll <> level ->
      counter level (bumped pitch roll c) = 0%Z).
Proof.
  intros NC. unfold bumped.
  destruct level; [congruence| |];
    destruct (tilt_level pitch roll); split; intros E;
    try discriminate; try congruence; reflexivity.
Qed.

Lemma monitor_stopped (readings : list (Q * Q)) (c : Z * Z) (s : globals) :
  estop_event s = true -> monitor readings c s = (Returned c, s, []).
Proof.
  intros H. destruct readings as [|[pitch roll] rest]; [reflexivity|].
  cbn [monitor]. rewrite bind_get, H. reflexivity.
Qed.

Lemma monitor_running (pitch roll : Q) (rest : list (Q * Q)) (c : Z * Z)
      (s : globals) :
  estop_event s = false ->
  monitor ((pitch, roll) :: rest) c s
  = attempt (pass pitch roll c) (monitor rest) s.
Proof. intros H. cbn [monitor]. rewrite bind_get, H. reflexivity. Qed.

Lemma monitor_estop (rs : list (Q * Q)) :
  forall c s, estop_event (final (monitor rs c s)) = estop_event s.
Proof.
  induction rs as [|[p r] rs IH]; intros c s; [reflexivity|].
  destruct (estop_event s) eqn:E.
  - rewrite monitor_stopped by assumption. exact E.
  - rewrite monitor_running by assumption.
    destruct (pass_facts s p r c) as (_ & Es & _).
    destruct (value (pass p r c s)) as [c'|e] eqn:V.
    + rewrite (attempt_returned _ _ s V). unfold final at 1. cbn [fst snd].
      rewrite IH, Es. exact E.
    + rewrite (attempt_raised _ _ s V). unfold final at 1. cbn [fst snd].
      rewrite Es. exact E.
Qed.

(** The monitor never sends a command. *)
Lemma monitor_quiet (rs : list (Q * Q)) :
  forall c s, commands (trace (monitor rs c s)) = [].
Proof.
  induction rs as [|[p r] rs IH]; intros c s; [reflexivity|].
  destruct (estop_event s) eqn:E.
  - rewrite monitor_stopped by assumption. reflexivity.
  - rewrite monitor_running by assumption.
    destruct (pass_facts s p r c) as (C & _).
    destruct (value (pass p r c s)) as [c'|e] eqn:V.
    + rewrite (attempt_returned _ _ s V). unfold trace at 1. cbn [snd].
      rewrite commands_app, C, IH. reflexivity.
    + rewrite (attempt_raised _ _ s V). unfold trace at 1. cbn [snd]. exact C.
Qed.

(** A pass that does not confirm a trip returns, and the monitor goes on. *)
Lemma monitor_step (pitch roll : Q) (rest : list (Q * Q)) (c : Z * Z)
      (s : globals) :
  estop_event s = false ->
  (snd (bumped pitch roll c) < DEBOUNCE)%Z ->
  let c' := (settled (fst (bumped pitch roll c)), snd (bumped pitch roll c)) in
  monitor ((pitch, roll) :: rest) c s
  = (value (monitor rest c' (ticked s)), final (monitor rest c' (ticked s)),
     (warned (fst (bumped pitch roll c)) ++ [Sleep (clock s) (1 / SAMPLE_HZ)])
     ++ trace (monitor rest c' (ticked s))).
Proof.
  intros E B c'. rewrite monitor_running by assumption.
  assert (P : pass pitch roll c s
              = (Returned c', ticked s,
                 warned (fst (bumped pitch roll c))
                 ++ [Sleep (clock s) (1 / SAMPLE_HZ)])).
  { rewrite pass_run. cbv zeta. apply Z.leb_gt in B. rewrite B. reflexivity. }
  rewrite (attempt_returned _ _ s (a := c')) by (rewrite P; reflexivity).
  rewrite P. reflexivity.
Qed.

(** A confirmed trip, the flag clear: the trip is printed, the recovery is
    started and raises at its first step, and the monitor ends with the
    exception, whatever readings are left. *)
Lemma monitor_trips (pitch roll : Q) (rest : list (Q * Q)) (c : Z * Z)
      (s : globals) :
  estop_event s = false ->
  tilt_level pitch roll = Hard ->
  (DEBOUNCE <= snd c + 1)%Z ->
  pass pitch roll c s
  = (Raised "AssertionError", s, [Print TRIP_LINE; Print RECOVERY_LINE])
  /\ monitor ((pitch, roll) :: rest) c s
     = (Raised "AssertionError", s, [Print TRIP_LINE; Print RECOVERY_LINE]).
Proof.
  intros E Hl B.
  assert (P : pass pitch roll c s
              = (Raised "AssertionError", s,
                 [Print TRIP_LINE; Print RECOVERY_LINE])).
  { rewrite pass_run. cbv zeta. unfold bumped. rewrite Hl. cbn [fst snd].
    apply Z.leb_le in B. rewrite B, E. reflexivity. }
  split; [exact P|].
  rewrite monitor_running by assumption.
  rewrite (attempt_raised _ _ s (e := "AssertionError")) by (rewrite P; reflexivity).
  rewrite P. reflexivity.
Qed.

(** A trip reading that does not complete [DEBOUNCE] in a row: no command,
    no recovery. *)
Lemma trip_waits (s : globals) (pitch roll : Q) (c : Z * Z) :
  tilt_level pitch roll = Hard ->
  (snd c + 1 < DEBOUNCE)%Z ->
  commands (trace (pass pitch roll c s)) = []
  /\ confirmations Hard (trace (pass pitch roll c s)) = 0%nat
  /\ value (pass pitch roll c s) = Returned (0, snd c + 1)%Z.
Proof.
  intros Hl B.
  destruct (pass_facts s pitch roll c) as (C & _ & _ & T & V).
  unfold bumped in T, V. rewrite Hl in T, V. cbn [fst snd] in T, V.
  split; [exact C|]. split.
  - rewrite T. apply Z.leb_gt in B. rewrite B. reflexivity.
  - rewrite (V B). reflexivity.
Qed.

Lemma tilt_level_spec (pitch roll : Q) :
  (tilt_level pitch roll = Hard
   <-> SAFE_TILT_TRIP <= Qabs pitch \/ SAFE_TILT_TRIP <= Qabs roll)
  /\ (tilt_level pitch roll = Soft
      <-> (Qabs pitch < SAFE_TILT_TRIP /\ Qabs roll < SAFE_TILT_TRIP)
          /\ (SAFE_TILT_WARN <= Qabs pitch \/ SAFE_TILT_WARN <= Qabs roll))
  /\ (tilt_level pitch roll = Clear
      <-> Qabs pitch < SAFE_TILT_WARN /\ Qabs roll < SAFE_TILT_WARN).
Proof.
  clear robot oversleep. unfold tilt_level.
  destruct (Qleb SAFE_TILT_TRIP (Qabs pitch)) eqn:TP;
    [apply Qleb_le in TP | apply Qleb_gt in TP];
    (destruct (Qleb SAFE_TILT_TRIP (Qabs roll)) eqn:TR;
     [apply Qleb_le in TR | apply Qleb_gt in TR]);
    (destruct (Qleb SAFE_TILT_WARN (Qabs pitch)) eqn:WP;
     [apply Qleb_le in WP | apply Qleb_gt in WP]);
    (destruct (Qleb SAFE_TILT_WARN (Qabs roll)) eqn:WR;
     [apply Qleb_le in WR | apply Qleb_gt in WR]);
    cbn [orb]; unfold SAFE_TILT_TRIP, SAFE_TILT_WARN in *;
    repeat split; intros; try discriminate; try tauto;
    try (exfalso; intuition lra); intuition lra.
Qed.

End Script.


(** ** What the monitor keeps *)

(** The locals [(warn_count, trip_count)] as the loop head finds them. *)
Definition counts_ok (c : Z * Z) : Prop :=
  (0 <= fst c < DEBOUNCE)%Z /\ (0 <= snd c < DEBOUNCE)%Z
  /\ (fst c = 0 \/ snd c = 0)%Z.

(** The clock value from which a command may be issued: [MOVE_COOLDOWN]
    after this mark. *)
Definition cooled (s : globals) : Q := clock s - MOVE_COOLDOWN.

(** The level of every reading of a list. *)
Definition all_level (level : HazardLevel) (readings : list (Q * Q)) : Prop :=
  Forall (fun r => tilt_level (fst r) (snd r) = level) readings.

Section Monitor.
Variable robot : Q -> MoveRobotDirection -> Z -> Q * bool.
Variable oversleep : Q -> Q.

(** X18. [clamp] keeps a value between its bounds and leaves a value that is
    within them alone; with the bounds the wrong way round it returns the
    lower one.  [move_safe] under a set flag returns at once; with the flag
    clear it raises where it builds the API object, so that no command is
    sent and no cooldown is slept, whatever the direction and the step. *)
Theorem move_safe_clamps (s : globals) (d : MoveRobotDirection) (n : Z) :
  (forall v lo hi, (lo <= hi -> lo <= clamp v lo hi <= hi)
                   /\ (lo <= v <= hi -> clamp v lo hi = v)
                   /\ (hi < lo -> clamp v lo hi = lo))%Z
  /\ (estop_event s = true ->
      move_safe robot oversleep d n s = (Returned tt, s, []))
  /\ (estop_event s = false ->
      exists e, move_safe robot oversleep d n s = (Raised e, s, [])).
Proof.
  split; [|split].
  - intros v lo hi. unfold clamp. repeat split; intros; lia.
  - apply move_safe_suppressed.
  - intros E. eexists. apply move_safe_live. exact E.
Qed.

Lemma counts_step (pitch roll : Q) (c : Z * Z) :
  counts_ok c ->
  (snd (bumped pitch roll c) < DEBOUNCE)%Z ->
  counts_ok (settled (fst (bumped pitch roll c)), snd (bumped pitch roll c)).
Proof.
  clear robot oversleep.
  intros (W & T & O) B. unfold counts_ok, bumped, settled, DEBOUNCE in *.
  destruct (tilt_level pitch roll); cbn [fst snd] in *;
    repeat match goal with
           | |- context [(?a <=? ?b)%Z] => destruct (Z.leb_spec a b)
           end; cbn [fst snd]; lia.
Qed.

(** How the monitor ends, the flag clear: it returns where no trip was
    confirmed, and raises at the first confirmed trip, with the trip line
    and the first line of the recovery the last things it prints. *)
Lemma monitor_outcome (readings : list (Q * Q)) :
  forall (c : Z * Z) (s : globals),
    estop_event s = false ->
    match value (monitor robot oversleep readings c s) with
    | Returned c' =>
        confirmations Hard (trace (monitor robot oversleep readings c s)) = 0%nat
        /\ (counts_ok c -> counts_ok c')
    | Raised e =>
        confirmations Hard (trace (monitor robot oversleep readings c s)) = 1%nat
        /\ exists before,
             trace (monitor robot oversleep readings c s)
             = before ++ [Print TRIP_LINE; Print RECOVERY_LINE]
    end.
Proof.
  induction readings as [|[pitch roll] rest IH]; intros c s E.
  - split; [reflexivity|auto].
  - destruct (Z.ltb_spec (snd (bumped pitch roll c)) DEBOUNCE) as [B|B].
    + rewrite (monitor_step robot oversleep pitch roll rest c s E B).
      cbv zeta. rewrite value_of, !trace_of.
      specialize (IH (settled (fst (bumped pitch roll c)), snd (bumped pitch roll c))
                     (ticked oversleep s) E).
      destruct (warned_quiet (fst (bumped pitch roll c))) as (_ & W & _).
      destruct (value (monitor robot oversleep rest _ (ticked oversleep s))).
      * destruct IH as (H0 & K). split.
        -- rewrite !confirmations_app, W, H0. reflexivity.
        -- intros Ok. apply K. apply counts_step; assumption.
      * destruct IH as (H1 & before & Eb). split.
        -- rewrite !confirmations_app, W, H1. reflexivity.
        -- eexists. rewrite Eb, app_assoc. reflexivity.
    + rewrite monitor_running by assumption.
      assert (P : pass robot oversleep pitch roll c s
                  = (Raised "AssertionError", s,
                     warned (fst (bumped pitch roll c))
                     ++ [Print TRIP_LINE; Print RECOVERY_LINE])).
      { rewrite pass_run. cbv zeta. apply Z.leb_le in B. rewrite B, E.
        reflexivity. }
      rewrite (attempt_raised _ _ s (e := "AssertionError"))
        by (rewrite P; reflexivity).
      rewrite P. unfold value, trace. cbn [fst snd].
      destruct (warned_quiet (fst (bumped pitch roll c))) as (_ & W & _).
      split; [rewrite confirmations_app, W; reflexivity|].
      eexists. reflexivity.
Qed.

(** X19. The two debounce counters of [posture_monitor] stay where the loop
    puts them: each is at least 0 and below [DEBOUNCE] at every loop head,
    and at most one of them is not zero.  The loop heads are those the
    monitor reaches: it ends with an exception only with the flag clear and
    a trip confirmed. *)
Theorem monitor_counts_invariant (readings : list (Q * Q)) (c : Z * Z)
        (s : globals) :
  counts_ok c ->
  match value (monitor robot oversleep readings c s) with
  | Returned c' => counts_ok c'
  | Raised _ =>
      estop_event s = false
      /\ confirmations Hard (trace (monitor robot oversleep readings c s)) = 1%nat
  end.
Proof.
  intros H. destruct (estop_event s) eqn:E.
  - rewrite monitor_stopped by assumption. exact H.
  - pose proof (monitor_outcome readings c s E) as O.
    destruct (value (monitor robot oversleep readings c s)).
    + apply O. exact H.
    + split; [reflexivity|apply O].
Qed.

(** X20. The monitor sends no command.  With the flag set it returns at the
    first loop head.  With the flag clear it returns exactly when no trip
    was confirmed; the first confirmed trip is printed, the recovery is
    started and raises in its first [move_safe], and the monitor ends there
    with the exception: the trip line and the first line of the recovery
    are the last events, and no reading after that is looked at. *)
Theorem monitor_ends_at_first_trip (readings : list (Q * Q)) (c : Z * Z)
        (s : globals) :
  commands (trace (monitor robot oversleep readings c s)) = []
  /\ (estop_event s = true ->
      monitor robot oversleep readings c s = (Returned c, s, []))
  /\ (estop_event s = false ->
      match value (monitor robot oversleep readings c s) with
      | Returned _ =>
          confirmations Hard (trace (monitor robot oversleep readings c s)) = 0%nat
      | Raised _ =>
          confirmations Hard (trace (monitor robot oversleep readings c s)) = 1%nat
          /\ exists before,
               trace (monitor robot oversleep readings c s)
               = before ++ [Print TRIP_LINE; Print RECOVERY_LINE]
      end)
  /\ (forall pitch roll rest,
        estop_event s = false -> tilt_level pitch roll = Hard ->
        (DEBOUNCE <= snd c + 1)%Z ->
        exists e,
          monitor robot oversleep ((pitch, roll) :: rest) c s
          = (Raised e, s, [Print TRIP_LINE; Print RECOVERY_LINE])).
Proof.
  split; [apply monitor_quiet|]. split; [apply monitor_stopped|]. split.
  - intros E. pose proof (monitor_outcome readings c s E) as O.
    destruct (value (monitor robot oversleep readings c s)); apply O.
  - intros pitch roll rest E Hl B. eexists.
    apply (monitor_trips robot oversleep pitch roll rest c s E Hl B).
Qed.

(** ** Streaks of readings *)

(** The loop over readings in two parts. *)
Lemma monitor_app (a b : list (Q * Q)) :
  forall (c : Z * Z) (s : globals),
    monitor robot oversleep (a ++ b) c s
    = attempt (monitor robot oversleep a c) (monitor robot oversleep b) s.
Proof.
  induction a as [|[pitch roll] a IH]; intros c s.
  - cbn [app monitor]. rewrite attempt_ret. reflexivity.
  - cbn [app]. destruct (estop_event s) eqn:E.
    + rewrite (returned_run _ _ s (monitor_stopped _ _ _ c s E)).
      rewrite !monitor_stopped by assumption. reflexivity.
    + rewrite monitor_running by assumption.
      rewrite (attempt_same _ _ _ s
                 (monitor_running robot oversleep pitch roll a c s E)).
      rewrite attempt_assoc. apply attempt_ext. intros c' s'. apply IH.
Qed.

Lemma bumped_soft (pitch roll : Q) (c : Z * Z) :
  tilt_level pitch roll = Soft -> bumped pitch roll c = (fst c + 1, 0)%Z.
Proof. clear robot oversleep. intros H. unfold bumped. rewrite H. reflexivity. Qed.

Lemma bumped_hard (pitch roll : Q) (c : Z * Z) :
  tilt_level pitch roll = Hard -> bumped pitch roll c = (0, snd c + 1)%Z.
Proof. clear robot oversleep. intros H. unfold bumped. rewrite H. reflexivity. Qed.

(** Readings of the warn level, one after the other: the warn counter
    counts them modulo [DEBOUNCE], and one warning is printed each time it
    gets there. *)
Lemma warn_streak (readings : list (Q * Q)) :
  forall (c : Z * Z) (s : globals),
    estop_event s = false ->
    all_level Soft readings ->
    (0 <= fst c < DEBOUNCE)%Z ->
    readings <> [] ->
    value (monitor robot oversleep readings c s)
    = Returned ((fst c + Z.of_nat (List.length readings)) mod DEBOUNCE, 0)%Z
    /\ Z.of_nat (confirmations Soft (trace (monitor robot oversleep readings c s)))
       = ((fst c + Z.of_nat (List.length readings)) / DEBOUNCE)%Z
    /\ confirmations Hard (trace (monitor robot oversleep readings c s)) = 0%nat.
Proof.
  induction readings as [|[pitch roll] rest IH]; intros c s E A W N;
    [congruence|].
  inversion A as [|x l Hl Ar]; subst. cbn [fst snd] in Hl.
  assert (B : (snd (bumped pitch roll c) < DEBOUNCE)%Z)
    by (rewrite (bumped_soft _ _ c Hl); reflexivity).
  rewrite (monitor_step robot oversleep pitch roll rest c s E B). cbv zeta.
  rewrite value_of, !trace_of.
  rewrite (bumped_soft _ _ c Hl). cbn [fst snd].
  rewrite !confirmations_app.
  destruct (warned_quiet (fst c + 1)) as (_ & WH & WS). rewrite WH, WS.
  change (confirmations Soft [Sleep (clock s) (1 / SAMPLE_HZ)]) with 0%nat.
  change (confirmations Hard [Sleep (clock s) (1 / SAMPLE_HZ)]) with 0%nat.
  cbn [List.length]. rewrite Nat2Z.inj_succ.
  destruct rest as [|r rest'].
  - cbn [monitor List.length]. unfold ret. rewrite value_of, trace_of.
    unfold settled, DEBOUNCE in *.
    destruct (Z.leb_spec 3 (fst c + 1)) as [L|L]; cbn [confirmations printed
      count_occ Nat.add Z.of_nat]; (split; [f_equal; f_equal|split; [|reflexivity]]);
      Z.to_euclidean_division_equations; lia.
  - assert (W' : (0 <= fst (settled (fst c + 1), 0%Z) < DEBOUNCE)%Z).
    { unfold settled, DEBOUNCE in *. cbn [fst].
      destruct (Z.leb_spec 3 (fst c + 1)); lia. }
    destruct (IH (settled (fst c + 1), 0%Z) (ticked oversleep s) E Ar W')
      as (V & S & H); [discriminate|].
    rewrite V, H. cbn [fst] in S |- *.
    rewrite !Nat2Z.inj_add, S. unfold settled, DEBOUNCE in *.
    set (n := Z.of_nat (List.length (r :: rest'))) in *.
    assert (0 <= n)%Z by apply Nat2Z.is_nonneg.
    destruct (Z.leb_spec 3 (fst c + 1)) as [L|L]; cbn [Z.of_nat Nat.add];
      (split; [f_equal; f_equal|split; [|reflexivity]]);
      Z.to_euclidean_division_equations; lia.
Qed.

(** Trip readings, one after the other, that do not complete [DEBOUNCE] in
    a row: the trip counter counts them and nothing is printed. *)
Lemma trip_streak_pending (readings : list (Q * Q)) :
  forall (c : Z * Z) (s : globals),
    estop_event s = false ->
    all_level Hard readings ->
    (snd c + Z.of_nat (List.length readings) < DEBOUNCE)%Z ->
    readings <> [] ->
    value (monitor robot oversleep readings c s)
    = Returned (0, snd c + Z.of_nat (List.length readings))%Z
    /\ printed (trace (monitor robot oversleep readings c s)) = []
    /\ commands (trace (monitor robot oversleep readings c s)) = []
    /\ estop_event (final (monitor robot oversleep readings c s)) = false.
Proof.
  induction readings as [|[pitch roll] rest IH]; intros c s E A B N;
    [congruence|].
  inversion A as [|x l Hl Ar]; subst. cbn [fst snd] in Hl.
  cbn [List.length] in B. rewrite Nat2Z.inj_succ in B.
  assert (B1 : (snd (bumped pitch roll c) < DEBOUNCE)%Z)
    by (rewrite (bumped_hard _ _ c Hl); cbn [snd]; lia).
  split; [|split; [|split; [apply monitor_quiet|rewrite monitor_estop; exact E]]].
  - rewrite (monitor_step robot oversleep pitch roll rest c s E B1). cbv zeta.
    rewrite value_of. rewrite (bumped_hard _ _ c Hl). cbn [fst snd].
    change (settled 0) with 0%Z.
    destruct rest as [|r rest'].
    + cbn. first [reflexivity | f_equal; f_equal; lia].
    + destruct (IH (0, snd c + 1)%Z (ticked oversleep s) E Ar) as (V & _);
        [cbn [snd List.length] in *; lia|discriminate|].
      rewrite V. cbn [snd List.length]. f_equal. f_equal. lia.
  - rewrite (monitor_step robot oversleep pitch roll rest c s E B1). cbv zeta.
    rewrite trace_of. rewrite (bumped_hard _ _ c Hl). cbn [fst snd].
    change (settled 0) with 0%Z.
    rewrite printed_app. change (printed (warned 0 ++ _)) with (@nil string).
    destruct rest as [|r rest']; [reflexivity|].
    destruct (IH (0, snd c + 1)%Z (ticked oversleep s) E Ar) as (_ & P & _);
      [cbn [snd List.length] in *; lia|discriminate|].
    rewrite P. reflexivity.
Qed.

(** The trip reading that completes [DEBOUNCE] in a row, the flag set or
    not: the trip is reported once and the recovery is started. *)
Lemma trip_confirmed (s : globals) (pitch roll : Q) (c : Z * Z) :
  tilt_level pitch roll = Hard ->
  (DEBOUNCE <= snd c + 1)%Z ->
  confirmations Hard (trace (pass robot oversleep pitch roll c s)) = 1%nat
  /\ exists after,
       trace (pass robot oversleep pitch roll c s)
       = Print TRIP_LINE :: Print RECOVERY_LINE :: after.
Proof.
  intros Hl B. rewrite pass_run. cbv zeta. rewrite (bumped_hard _ _ c Hl).
  cbn [fst snd]. apply Z.leb_le in B. rewrite B.
  destruct (estop_event s); rewrite trace_of;
    (split; [reflexivity|eexists; reflexivity]).
Qed.

(** Trip readings in a row that complete [DEBOUNCE], the flag clear: the
    counter counts them over the passes of the loop, the last of them is
    reported, and the monitor ends in the recovery with the exception,
    whatever readings are left. *)
Lemma trip_streak_confirmed (readings : list (Q * Q)) (pitch roll : Q)
      (rest : list (Q * Q)) (c : Z * Z) (s : globals) :
  estop_event s = false ->
  all_level Hard readings ->
  tilt_level pitch roll = Hard ->
  (snd c + Z.of_nat (List.length readings) + 1 = DEBOUNCE)%Z ->
  value (monitor robot oversleep (readings ++ (pitch, roll) :: rest) c s)
  = Raised "AssertionError"
  /\ printed (trace (monitor robot oversleep (readings ++ (pitch, roll) :: rest) c s))
     = [TRIP_LINE; RECOVERY_LINE]
  /\ commands (trace (monitor robot oversleep (readings ++ (pitch, roll) :: rest) c s))
     = [].
Proof.
  intros E A Hl B. split; [|split; [|apply monitor_quiet]].
  - destruct readings as [|r0 rs].
    + cbn [app List.length Z.of_nat] in *.
      destruct (monitor_trips robot oversleep pitch roll rest c s E Hl) as [_ ->];
        [lia|reflexivity].
    + rewrite monitor_app.
      destruct (@trip_streak_pending (r0 :: rs) c s E A) as (V & _ & _ & F);
        [lia|discriminate|].
      destruct (monitor robot oversleep (r0 :: rs) c s) as [[v s1] t1] eqn:R.
      rewrite value_of in V. rewrite final_of in F. subst v.
      rewrite (returned_run _ _ s R).
      destruct (monitor_trips robot oversleep pitch roll rest
                  (0%Z, (snd c + Z.of_nat (List.length (r0 :: rs)))%Z) s1 F Hl)
        as [_ ->]; [cbn [snd]; lia|reflexivity].
  - destruct readings as [|r0 rs].
    + cbn [app List.length Z.of_nat] in *.
      destruct (monitor_trips robot oversleep pitch roll rest c s E Hl) as [_ ->];
        [lia|reflexivity].
    + rewrite monitor_app.
      destruct (@trip_streak_pending (r0 :: rs) c s E A) as (V & P & _ & F);
        [lia|discriminate|].
      destruct (monitor robot oversleep (r0 :: rs) c s) as [[v s1] t1] eqn:R.
      rewrite value_of in V. rewrite final_of in F. rewrite trace_of in P.
      subst v. rewrite (returned_run _ _ s R).
      destruct (monitor_trips robot oversleep pitch roll rest
                  (0%Z, (snd c + Z.of_nat (List.length (r0 :: rs)))%Z) s1 F Hl)
        as [_ ->]; [cbn [snd]; lia|].
      rewrite !trace_of, printed_app, P. reflexivity.
Qed.

(** X30. Debouncing in [posture_monitor], over whole runs of the loop.
    Readings of the warn level in a row are counted modulo [DEBOUNCE]: after
    [n] of them from a warn counter [w] the counter is [(w + n) mod
    DEBOUNCE], the trip counter is 0, and one warning has been printed for
    each time the counter got to [DEBOUNCE], so [(w + n) / DEBOUNCE] of
    them.  Trip readings in a row are counted too, and the warn counter
    zeroed; while they are fewer than [DEBOUNCE] nothing is printed, and
    a reading of another level then puts the trip counter back to 0 with
    no trip ever reported for them. *)
Theorem monitor_debounces (readings : list (Q * Q)) (c : Z * Z) (s : globals) :
  estop_event s = false ->
  readings <> [] ->
  (all_level Soft readings -> (0 <= fst c < DEBOUNCE)%Z ->
   value (monitor robot oversleep readings c s)
   = Returned ((fst c + Z.of_nat (List.length readings)) mod DEBOUNCE, 0)%Z
   /\ Z.of_nat (confirmations Soft (trace (monitor robot oversleep readings c s)))
      = ((fst c + Z.of_nat (List.length readings)) / DEBOUNCE)%Z
   /\ confirmations Hard (trace (monitor robot oversleep readings c s)) = 0%nat)
  /\ (all_level Hard readings ->
      (snd c + Z.of_nat (List.length readings) < DEBOUNCE)%Z ->
      value (monitor robot oversleep readings c s)
      = Returned (0, snd c + Z.of_nat (List.length readings))%Z
      /\ printed (trace (monitor robot oversleep readings c s)) = []
      /\ forall pitch roll,
           tilt_level pitch roll <> Hard ->
           confirmations Hard
             (trace (monitor robot oversleep (readings ++ [(pitch, roll)]) c s))
           = 0%nat
           /\ exists w,
                value (monitor robot oversleep (readings ++ [(pitch, roll)]) c s)
                = Returned (w, 0%Z)).
Proof.
  intros E N. split.
  - intros A W. apply warn_streak; assumption.
  - intros A B.
    destruct (@trip_streak_pending readings c s E A B N) as (V & P & _ & F).
    split; [exact V|]. split; [exact P|].
    intros pitch roll NH. rewrite monitor_app.
    destruct (monitor robot oversleep readings c s) as [[v s1] t1] eqn:R.
    rewrite value_of in V. rewrite trace_of in P. rewrite final_of in F.
    subst v.
    rewrite (returned_run _ _ s R).
    set (c1 := (0%Z, (snd c + Z.of_nat (List.length readings))%Z)).
    assert (B1 : (snd (bumped pitch roll c1) < DEBOUNCE)%Z).
    { unfold bumped. destruct (tilt_level pitch roll); [| |congruence];
        reflexivity. }
    rewrite (monitor_step robot oversleep pitch roll [] c1 s1 F B1). cbv zeta.
    cbn [monitor]. unfold ret. rewrite !value_of, !trace_of.
    assert (Z0 : snd (bumped pitch roll c1) = 0%Z).
    { unfold bumped. destruct (tilt_level pitch roll); [| |congruence];
        reflexivity. }
    rewrite Z0. split; [|eexists; reflexivity].
    rewrite !confirmations_app.
    destruct (warned_quiet (fst (bumped pitch roll c1))) as (_ & W & _).
    rewrite W. cbn [confirmations]. rewrite P. reflexivity.
Qed.

Section Cooldown.
Hypothesis sleep_not_short : forall t, 0 <= oversleep t.

Lemma sleep_paced (secs : Q) : paced cooled MOVE_COOLDOWN (sleep oversleep secs).
Proof.
  apply paced_quiet. intros s. split; [reflexivity|].
  unfold cooled, sleep, final. cbn [fst snd clock set_clock].
  specialize (sleep_not_short (clock s)).
  destruct (Qleb secs 0) eqn:L; [|apply Qleb_gt in L]; lra.
Qed.

Lemma move_safe_paced d n :
  paced cooled MOVE_COOLDOWN (move_safe robot oversleep d n).
Proof.
  apply paced_quiet. intros s. destruct (estop_event s) eqn:E.
  - rewrite move_safe_suppressed by assumption.
    split; [reflexivity|apply Qle_refl].
  - rewrite move_safe_live by assumption.
    split; [reflexivity|apply Qle_refl].
Qed.

Ltac pace :=
  repeat match goal with
         | |- paced _ _ (bind _ _) => apply paced_bind; [|intros ?]
         | |- paced _ _ (attempt _ _) => apply paced_attempt; [|intros ?]
         | |- paced _ _ (if ?c then _ else _) => destruct c
         | |- paced _ _ (move_safe _ _ _ _) => apply move_safe_paced
         | |- paced _ _ (sleep _ _) => apply sleep_paced
         | |- paced _ _ _ =>
             apply paced_quiet; intros ?; split; [reflexivity|apply Qle_refl]
         end.


End Cooldown.
End Monitor.

Lemma monitor_counts_invariant_witness :
  match value (monitor steady_robot punctual
                 [(20, 0); (20, 0); (12, 0); (0, 19); (0, 19)] (0, 0)%Z
                 (initial 100)) with
  | Returned c' => counts_ok c'
  | Raised _ =>
      estop_event (initial 100) = false
      /\ confirmations Hard
           (trace (monitor steady_robot punctual
                     [(20, 0); (20, 0); (12, 0); (0, 19); (0, 19)] (0, 0)%Z
                     (initial 100)))
         = 1%nat
  end.
Proof.
  apply (@monitor_counts_invariant steady_robot punctual).
  unfold counts_ok, DEBOUNCE. cbn. lia.
Defined.

Lemma monitor_debounces_witness :
  value (monitor steady_robot punctual [(12, 0); (0, -11); (12, 0); (17, 0)]
           (0, 0)%Z (initial 100))
  = Returned (1, 0)%Z
  /\ confirmations Soft
       (trace (monitor steady_robot punctual [(12, 0); (0, -11); (12, 0); (17, 0)]
                 (0, 0)%Z (initial 100))) = 1%nat.
Proof.
  destruct (@monitor_debounces steady_robot punctual
              [(12, 0); (0, -11); (12, 0); (17, 0)] (0, 0)%Z (initial 100))
    as [S _]; [reflexivity|discriminate|].
  destruct S as (V & C & _);
    [repeat constructor|unfold DEBOUNCE; cbn; lia|].
  split; [exact V|]. apply Nat2Z.inj. exact C.
Defined.



(** ** The posture provider and the input listener *)

(** An instance of [PostureProvider], lines 56-123, with the attributes
    [_init_] assigns.  [cls] is the SDK class, by its name. *)
Record PostureProvider : Type := mkProvider {
  provider_name : option string;
  cls : option string;
  sim : bool;
  sim_pitch : Q;
  sim_roll : Q
}.

Definition set_sim (self : PostureProvider) : PostureProvider :=
  mkProvider (provider_name self) (cls self) true (sim_pitch self) (sim_roll self).
Definition set_sim_pitch (v : Q) (self : PostureProvider) : PostureProvider :=
  mkProvider (provider_name self) (cls self) (sim self) v (sim_roll self).
Definition set_sim_roll (v : Q) (self : PostureProvider) : PostureProvider :=
  mkProvider (provider_name self) (cls self) (sim self) (sim_pitch self) v.

Definition candidates : list string :=
  ["GetImuData"; "GetSixAxisImu"; "GetPosture"; "GetPostureData"; "GetAttitude"]%string.

(** The [for] loop of [_init_], lines 73-77: the first name that the module
    has. *)
Fixpoint first_present (names module : list string) : option string :=
  match names with
  | [] => None
  | name :: rest =>
      if existsb (String.eqb name) module then Some name
      else first_present rest module
  end.

(** The method [_init_], lines 61-79; [sence] is the names the module
    [api_sence] has, [None] where its import failed. *)
Definition _init_ (sence : option (list string)) : PostureProvider :=
  match sence with
  | None => mkProvider None None true 0 0
  | Some module =>
      match first_present candidates module with
      | Some name => mkProvider (Some name) (Some name) false 0 0
      | None => mkProvider None None true 0 0
      end
  end.

(** What [self.cls().execute()] gives: an exception, or a response with the
    attributes it has. *)
Record response : Type := mkResponse {
  result_ok : bool;     (* getattr(resp, "result", None) == MiniApiResultType.Success *)
  pitch : option Q;
  roll : option Q;
  ax : option Q;
  ay : option Q;
  az : option Q
}.

Inductive reply :=
| Raises (e : string)
| Answers (resp : response).

(** The method [sim_adjust], lines 113-123. *)
Definition sim_adjust (self : PostureProvider) (what : string) : PostureProvider :=
  if String.eqb what "tp" then set_sim_pitch (sim_pitch self + 5) self
  else if String.eqb what "tm" then set_sim_pitch (sim_pitch self - 5) self
  else if String.eqb what "rp" then set_sim_roll (sim_roll self + 5) self
  else if String.eqb what "rm" then set_sim_roll (sim_roll self - 5) self
  else if String.eqb what "r0" then set_sim_roll 0 (set_sim_pitch 0 self)
  else self.

(** The state the two coroutines of [main] share. *)
Definition world : Type := globals * PostureProvider.

Definition is_sim_command (cmd : string) : bool :=
  existsb (String.eqb cmd) ["tp"; "tm"; "rp"; "rm"; "r0"]%string.

(** One line read by [input_listener], lines 138-152: the state, the console
    lines and whether the loop goes on. *)
Definition input_line (line : string) (w : world) : world * list string * flow :=
  let '(s, posture) := w in
  let cmd := lower (strip line) in
  if String.eqb cmd "e" then
    ((set_estop s, posture), ["[E-STOP] Emergency stop activated."%string], Break)
  else if sim posture then
    if is_sim_command cmd then
      ((s, sim_adjust posture cmd),
       ["[SIM] pitch={posture.sim_pitch:.1f}°, roll={posture.sim_roll:.1f}°"%string],
       Next)
    else if String.eqb cmd "?" then
      (w, ["Commands: e | tp/tm (+/- pitch) | rp/rm (+/- roll) | r0 (reset)"%string],
       Next)
    else (w, [], Next)
  else if String.eqb cmd "?" then
    (w, ["Commands: e (E-STOP). SIM controls are disabled on real IMU."%string], Next)
  else (w, [], Next).

(** [input_listener], lines 126-152, over the lines the operator types. *)
Fixpoint listen (lines : list string) (w : world) : world * list string :=
  match lines with
  | [] => (w, [])
  | line :: rest =>
      if estop_event (fst w) then (w, [])
      else
        let '(w', out, go) := input_line line w in
        match go with
        | Break => (w', out)
        | Next => let '(w'', out') := listen rest w' in (w'', out ++ out')
        end
  end.

Definition input_listener (lines : list string) (w : world) : world * list string :=
  let '(w', out) := listen lines w in
  (w', "[INPUT] Type 'e' + Enter for E-STOP. For SIM: tp/tm/rp/rm/r0. '?' for help."%string
       :: out).

Section Provider.
(** [accel_to_pitch_roll], lines 38-44, computes with [atan2]; it is left to
    the environment. *)
Variable accel_to_pitch_roll : Q -> Q -> Q -> Q * Q.

(** The method [get_pitch_roll], lines 81-110: the reading, the instance and
    the console lines.  [r] is what the SDK call gives if it is made. *)
Definition get_pitch_roll (self : PostureProvider) (r : reply)
  : (Q * Q) * PostureProvider * list string :=
  if sim self || (match cls self with None => true | Some _ => false end) then
    ((sim_pitch self, sim_roll self), self, [])
  else
    match r with
    | Raises e =>
        ((sim_pitch self, sim_roll self), set_sim self,
         ["[WARN] {self.provider_name}.execute() error: {e}. Falling back to SIM."%string])
    | Answers resp =>
        if negb (result_ok resp) then
          ((0, 0), self,
           ["[WARN] {self.provider_name} result: {getattr(resp,'result',None)}"%string])
        else
          match pitch resp, roll resp with
          | Some p, Some r => ((p, r), self, [])
          | _, _ =>
              match ax resp, ay resp, az resp with
              | Some x, Some y, Some z => (accel_to_pitch_roll x y z, self, [])
              | _, _, _ =>
                  ((sim_pitch self, sim_roll self), set_sim self,
                   ["[WARN] {self.provider_name} returned unknown fields; using SIM."%string])
              end
          end
    end.

(** The readings of a sequence of calls, one reply for each. *)
Fixpoint reads (self : PostureProvider) (rs : list reply) : list (Q * Q) :=
  match rs with
  | [] => []
  | r :: rest =>
      let '(reading, self', _) := get_pitch_roll self r in
      reading :: reads self' rest
  end.
End Provider.


Lemma first_present_spec (names module : list string) :
  match first_present names module with
  | Some name =>
      In name module
      /\ exists before after,
           names = before ++ name :: after
           /\ Forall (fun c => ~ In c module) before
  | None => Forall (fun c => ~ In c module) names
  end.
Proof.
  induction names as [|n rest IH]; cbn [first_present]; [constructor|].
  destruct (existsb (String.eqb n) module) eqn:E.
  - apply existsb_exists in E. destruct E as (x & Hx & Ex).
    apply String.eqb_eq in Ex. subst x.
    split; [exact Hx|]. exists [], rest. split; [reflexivity|constructor].
  - assert (N : ~ In n module).
    { intros Hin. assert (T : existsb (String.eqb n) module = true).
      { apply existsb_exists. exists n. split; [exact Hin|apply String.eqb_refl]. }
      congruence. }
    destruct (first_present rest module) as [name|].
    + destruct IH as (Hin & before & after & E1 & F).
      split; [exact Hin|]. exists (n :: before), after.
      split; [rewrite E1; reflexivity|constructor; assumption].
    + constructor; assumption.
Qed.

(** X22. [_init_] puts the provider in SIM mode exactly when the sensing
    module is missing or has none of the five candidate classes; otherwise
    it takes the first candidate, in the order of the list, that the module
    has.  The simulated tilt starts level. *)
Theorem provider_init (sence : option (list string)) :
  (sim (_init_ sence) = true <-> cls (_init_ sence) = None)
  /\ (cls (_init_ sence) = None
      <-> sence = None
          \/ exists module, sence = Some module
                            /\ Forall (fun c => ~ In c module) candidates)
  /\ (forall name, cls (_init_ sence) = Some name ->
        provider_name (_init_ sence) = Some name
        /\ exists module before after,
             sence = Some module /\ In name module
             /\ candidates = before ++ name :: after
             /\ Forall (fun c => ~ In c module) before)
  /\ sim_pitch (_init_ sence) = 0 /\ sim_roll (_init_ sence) = 0.
Proof.
  destruct sence as [module|]; cbn [_init_].
  - pose proof (first_present_spec candidates module) as S.
    destruct (first_present candidates module) as [name|]; cbn.
    + destruct S as (Hin & before & after & E & F).
      split; [split; discriminate|]. split; [split|split].
      * discriminate.
      * intros [H|(m & H & Fm)]; [discriminate|]. injection H as <-.
        exfalso. rewrite E in Fm. apply Forall_app in Fm. destruct Fm as [_ Fm].
        inversion Fm; subst. contradiction.
      * intros n H. injection H as <-. split; [reflexivity|].
        exists module, before, after. auto.
      * split; reflexivity.
    + split; [split; reflexivity|]. split; [split|split].
      * intros _. right. exists module. auto.
      * reflexivity.
      * discriminate.
      * split; reflexivity.
  - cbn. split; [split; reflexivity|]. split; [split|split].
    + intros _. left. reflexivity.
    + reflexivity.
    + discriminate.
    + split; reflexivity.
Qed.

Section Reading.
Variable accel_to_pitch_roll : Q -> Q -> Q -> Q * Q.
Variable robot : Q -> MoveRobotDirection -> Z -> Q * bool.
Variable oversleep : Q -> Q.

(** X23. SIM mode latches.  A provider in SIM mode makes no SDK call and
    returns the simulated tilt; [get_pitch_roll] never leaves SIM mode and
    never changes the simulated tilt; and a call that raises, or a
    successful response with neither pitch and roll nor the three
    accelerations, puts the provider in SIM mode, so that every later
    reading is the simulated tilt. *)
Theorem sim_mode_latches (self : PostureProvider) (r : reply) :
  let self' := snd (fst (get_pitch_roll accel_to_pitch_roll self r)) in
  (sim self = true ->
   get_pitch_roll accel_to_pitch_roll self r
   = ((sim_pitch self, sim_roll self), self, []))
  /\ (sim self = true -> sim self' = true)
  /\ (sim_pitch self' = sim_pitch self /\ sim_roll self' = sim_roll self)
  /\ (sim self = false -> cls self <> None ->
      (exists e, r = Raises e)
      \/ (exists resp, r = Answers resp /\ result_ok resp = true
                       /\ (pitch resp = None \/ roll resp = None)
                       /\ (ax resp = None \/ ay resp = None \/ az resp = None)) ->
      sim self' = true)
  /\ (sim self' = true ->
      forall rs, reads accel_to_pitch_roll self' rs
                 = map (fun _ => (sim_pitch self, sim_roll self)) rs).
Proof.
  cbv zeta.
  assert (L : forall p rs, sim p = true ->
              reads accel_to_pitch_roll p rs
              = map (fun _ => (sim_pitch p, sim_roll p)) rs).
  { intros p rs Hp. induction rs as [|x rs IH]; [reflexivity|].
    cbn [reads map]. unfold get_pitch_roll. rewrite Hp. cbn [orb].
    rewrite IH. reflexivity. }
  assert (K : sim_pitch (snd (fst (get_pitch_roll accel_to_pitch_roll self r)))
              = sim_pitch self
              /\ sim_roll (snd (fst (get_pitch_roll accel_to_pitch_roll self r)))
                 = sim_roll self).
  { unfold get_pitch_roll.
    destruct (sim self || _); [split; reflexivity|].
    destruct r as [e|resp]; [split; reflexivity|].
    destruct (negb (result_ok resp)); [split; reflexivity|].
    destruct (pitch resp), (roll resp), (ax resp), (ay resp), (az resp);
      split; reflexivity. }
  split; [|split; [|split; [exact K|split]]].
  - intros H. unfold get_pitch_roll. rewrite H. reflexivity.
  - intros H. unfold get_pitch_roll. rewrite H. exact H.
  - intros S C [(e & ->)|(resp & -> & Ok & PR & A)];
      unfold get_pitch_roll; rewrite S; cbn [orb];
      (destruct (cls self); [|congruence]); [reflexivity|].
    rewrite Ok. cbn [negb].
    destruct PR as [-> | ->]; destruct A as [-> | [-> | ->]];
      destruct (pitch resp), (roll resp), (ax resp), (ay resp), (az resp);
      reflexivity.
  - intros H rs. rewrite (L _ rs H). destruct K as [-> ->]. reflexivity.
Qed.

(** X24. A read that the SDK answers with a result other than [Success] is
    taken for a level posture: [get_pitch_roll] returns (0, 0) and stays in
    its mode, and the pass of [posture_monitor] that gets this reading zeroes
    both counters whatever they were and sends no command, so a trip that
    was one sample short of confirmed starts again from nothing. *)
Theorem failed_read_cancels_streak (self : PostureProvider) (resp : response)
        (c : Z * Z) (s : globals) :
  sim self = false -> cls self <> None -> result_ok resp = false ->
  exists reading out,
    get_pitch_roll accel_to_pitch_roll self (Answers resp) = (reading, self, out)
    /\ reading = (0, 0)
    /\ tilt_level (fst reading) (snd reading) = Clear
    /\ value (pass robot oversleep (fst reading) (snd reading) c s)
       = Returned (0, 0)%Z
    /\ commands (trace (pass robot oversleep (fst reading) (snd reading) c s)) = [].
Proof.
  intros S C R. unfold get_pitch_roll. rewrite S, R. cbn [orb negb].
  destruct (cls self); [|congruence].
  eexists. eexists. split; [reflexivity|]. split; [reflexivity|].
  cbn [fst snd].
  assert (T : tilt_level 0 0 = Clear) by reflexivity.
  split; [exact T|].
  destruct (pass_facts robot oversleep s 0 0 c) as (Cm & _ & _ & _ & V).
  unfold bumped in V. rewrite T in V. cbn [fst snd] in V.
  split; [apply V; reflexivity|exact Cm].
Qed.
End Reading.

Lemma failed_read_cancels_streak_witness :
  exists reading out,
    get_pitch_roll (fun _ _ _ => (0, 0))
      (mkProvider (Some "GetImuData"%string) (Some "GetImuData"%string) false 0 0)
      (Answers (mkResponse false (Some 25) (Some 0) None None None))
    = (reading,
       mkProvider (Some "GetImuData"%string) (Some "GetImuData"%string) false 0 0,
       out)
    /\ reading = (0, 0)
    /\ tilt_level (fst reading) (snd reading) = Clear
    /\ value (pass steady_robot punctual (fst reading) (snd reading) (0, 2)%Z
                (initial 100)) = Returned (0, 0)%Z
    /\ commands (trace (pass steady_robot punctual (fst reading) (snd reading)
                          (0, 2)%Z (initial 100))) = [].
Proof.
  apply (@failed_read_cancels_streak (fun _ _ _ => (0, 0)) steady_robot punctual
           (mkProvider (Some "GetImuData"%string) (Some "GetImuData"%string)
              false 0 0)
           (mkResponse false (Some 25) (Some 0) None None None) (0, 2)%Z
           (initial 100));
    [reflexivity|discriminate|reflexivity].
Defined.

(** X25. The input listener, on a line of code points below 256, where
    [strip] and [lower] are what [str.strip] and [str.lower] do.  The line
    [e] or [E] with blanks around it, and no other, sets [estop_event], ends
    the loop and leaves the provider alone.  On a real IMU no line changes the
    provider.  In SIM mode [tp] and [tm] undo each other, as do [rp] and
    [rm], [r0] levels the simulated tilt, and a line that is none of the
    five SIM commands leaves the provider as it is.  The blanks that
    [strip] removes are the code points 9 to 13, 28 to 32, 133 and 160: the
    line made of a no-break space, [E], a next-line character and the
    newline stops the robot. *)
Theorem input_line_controls (line : string) (s : globals) (posture : PostureProvider) :
  let cmd := lower (strip line) in
  let r := input_line line (s, posture) in
  (cmd = "e"%string <-> strip line = "e"%string \/ strip line = "E"%string)
  /\ (cmd = "e"%string ->
   r = ((set_estop s, posture), ["[E-STOP] Emergency stop activated."%string], Break))
  /\ (cmd <> "e"%string -> fst (fst (fst r)) = s /\ snd r = Next)
  /\ (sim posture = false -> snd (fst (fst r)) = posture)
  /\ (is_sim_command cmd = false -> snd (fst (fst r)) = posture)
  /\ (sim_pitch (sim_adjust (sim_adjust posture "tp") "tm") == sim_pitch posture
      /\ sim_pitch (sim_adjust (sim_adjust posture "tm") "tp") == sim_pitch posture
      /\ sim_roll (sim_adjust (sim_adjust posture "rp") "rm") == sim_roll posture
      /\ sim_roll (sim_adjust (sim_adjust posture "rm") "rp") == sim_roll posture
      /\ sim_pitch (sim_adjust posture "r0") = 0
      /\ sim_roll (sim_adjust posture "r0") = 0)
  /\ (forall c, is_space c = true <-> In (nat_of_ascii c) blanks)
  /\ input_line
       (String (ascii_of_nat 160)
          (String "E" (String (ascii_of_nat 133) (line_of ""))))
       (s, posture)
     = ((set_estop s, posture), ["[E-STOP] Emergency stop activated."%string],
        Break).
Proof.
  cbv zeta.
  match goal with
  | |- ?a /\ ?b /\ ?c /\ ?d /\ ?e /\ ?f /\ ?g /\ ?h =>
      cut ((a /\ b /\ c /\ d /\ e /\ f) /\ g /\ h); [tauto|]
  end.
  split; [|split; [apply is_space_spec|reflexivity]].
  unfold input_line.
  split; [apply lower_is_e|].
  set (cmd := lower (strip line)).
  split; [|split; [|split; [|split]]].
  - intros ->. reflexivity.
  - intros N. apply String.eqb_neq in N. rewrite N.
    destruct (sim posture), (is_sim_command cmd), (String.eqb cmd "?");
      split; reflexivity.
  - intros S. rewrite S.
    destruct (String.eqb cmd "e"), (String.eqb cmd "?"); reflexivity.
  - intros C. rewrite C.
    destruct (String.eqb cmd "e"), (sim posture), (String.eqb cmd "?"); reflexivity.
  - unfold sim_adjust. cbn. repeat split; try reflexivity; ring.
Qed.

End Posture.

(** * codes/final_codes/Override Control Safety.py *)

Module Override.

(** The SDK is no part of the repository; see [LowBattery] for how its
    calls are modelled.  Its enumeration [MoveRobotDirection] has the four
    members below and no other. *)
Inductive MoveRobotDirection := FORWARD | BACKWARD | LEFTWARD | RIGHTWARD.

(** Configuration constants, lines 13-17. *)
Definition SAFE_DISTANCE_CM : Z := 20.
Definition STEP_SIZE : Z := 1.
Definition SLEEP_DURATION : Q := 8 # 10.

(** The global flags, lines 24-25, and the clock. *)
Record globals : Type := mkGlobals {
  override_event : bool;
  shutdown_event : bool;
  clock : Q
}.

Definition clear_override (s : globals) : globals :=
  mkGlobals false (shutdown_event s) (clock s).
Definition set_override (s : globals) : globals :=
  mkGlobals true (shutdown_event s) (clock s).
Definition set_shutdown (s : globals) : globals :=
  mkGlobals (override_event s) true (clock s).
Definition set_clock (t : Q) (s : globals) : globals :=
  mkGlobals (override_event s) (shutdown_event s) t.

(** The flags once the operator has engaged the override, the clock at [t0]. *)
Definition overridden (t0 : Q) : globals := mkGlobals true false t0.

Definition ev : Type := event MoveRobotDirection.
Definition Co : Type -> Type := M globals ev.

(** The attribute [MoveRobotDirection.<name>], lines 98-103 and 124-130: a
    name that is no member of the enumeration raises. *)
Definition member (name : string) : outcome MoveRobotDirection :=
  if String.eqb name "FORWARD" then Returned FORWARD
  else if String.eqb name "BACKWARD" then Returned BACKWARD
  else if String.eqb name "LEFTWARD" then Returned LEFTWARD
  else if String.eqb name "RIGHTWARD" then Returned RIGHTWARD
  else Raised "AttributeError: type object 'MoveRobotDirection' has no attribute '{name}'".

(** An API object [MoveRobot] once it is built. *)
Record request : Type := mkRequest {
  req_direction : MoveRobotDirection;
  req_step : Z
}.

(** [MoveRobot(direction=direction, step=steps)], line 59: the constructor
    asserts that the step is a positive integer and keeps both as they are
    given. *)
Definition MoveRobot (direction : MoveRobotDirection) (step : Z)
  : outcome request :=
  if (0 <? step)%Z then Returned (mkRequest direction step)
  else Raised "AssertionError".

(** [self.exec()], lines 60 and 70: the API objects of the SDK have the
    method [execute] and no method [exec], so the attribute lookup raises
    and nothing is sent. *)
Definition exec {A R : Type} (self : A) : outcome R :=
  Raised "AttributeError: object has no attribute 'exec'".

(** What [GetInfraredDistance().exec()] would give [read_front_distance_cm]:
    a result other than [Success], the values of [resp.distance], or a
    response whose [distance] cannot be listed or whose first value is no
    number. *)
Inductive ir_reply :=
| IrFailed
| IrValues (distance : list Q)
| IrMalformed.

(** The API class of line 70. *)
Inductive GetInfraredDistance := GetInfraredDistance_new.

(** [int(v)] of a number: towards zero. *)
Definition int (v : Q) : Z := Z.quot (Qnum v) (Z.pos (Qden v)).

(** Lines 71-79 of [read_front_distance_cm], on the response. *)
Definition front_distance (r : ir_reply) : option Z :=
  match r with
  | IrFailed => None
  | IrMalformed => None
  | IrValues [] => None
  | IrValues (v :: _) => Some (Z.min (Z.max 1 (int v)) 5000)
  end.

(** The sleeps of [passes] passes of the autonomous loop under override,
    the first begun at [t], and the clock after them. *)
Fixpoint pauses (oversleep : Q -> Q) (passes : nat) (t : Q) : list ev :=
  match passes with
  | O => []
  | S p => Sleep t (1 # 10) :: pauses oversleep p (t + (1 # 10) + oversleep t)
  end.

Fixpoint paused_until (oversleep : Q -> Q) (passes : nat) (t : Q) : Q :=
  match passes with
  | O => t
  | S p => paused_until oversleep p (t + (1 # 10) + oversleep t)
  end.

(** Whether a line is one of the four manual directions, and whether it
    ends the manual loop: [o] releases the override, [q] quits. *)
Definition moves (text : string) : bool :=
  existsb (String.eqb (lower (strip text))) ["w"; "s"; "a"; "d"]%string.


Section Script.
Variable oversleep : Q -> Q.

Open Scope eff_scope.

Definition print (msg : string) : Co unit := emit (Print msg).

Definition sleep (secs : Q) : Co unit :=
  fun s =>
    let t := clock s in
    let d := if Qleb secs 0 then 0 else secs in
    (tt, set_clock (t + d + oversleep t) s, [Sleep t secs]).

(** [safe_move], lines 55-62.  It neither clamps the step nor waits; the
    call of line 60 raises before anything is sent. *)
Definition safe_move (direction : MoveRobotDirection) (steps : Z)
  : Co (outcome unit) :=
  s <- get ;;
  if shutdown_event s then ret (Returned tt)
  else
    req <~ ret (MoveRobot direction steps) ;;
    ok <~ ret (exec req) ;;
    (if ok : bool then ret tt else print "[WARN] Move failed: {resp.result}") ;;
    ret (Returned tt).

(** [stop_motion], lines 64-65: [asyncio.sleep(0)] yields and returns. *)
Definition stop_motion : Co unit :=
  fun s => (tt, s, [Sleep (clock s) 0]).

(** [_readline_async], lines 171-176: the line arrives after [secs]. *)
Definition _readline_async (secs : Q) (line : string) : Co string :=
  fun s => (line, set_clock (clock s + secs) s, []).

(** [read_front_distance_cm], lines 68-79.  Line 70 is outside the [try]. *)
Definition read_front_distance_cm : Co (outcome (option Z)) :=
  resp <~ ret (exec GetInfraredDistance_new) ;;
  ret (Returned (front_distance resp)).

(** The [while] loop of [autonomous_loop], lines 85-104, for at most
    [passes] passes.  The arguments of a call are evaluated before the
    call, so that a direction that is no member raises in the loop. *)
Fixpoint autonomous (passes : nat) : Co (outcome unit) :=
  match passes with
  | O => ret (Returned tt)
  | S passes' =>
      s <- get ;;
      if shutdown_event s then ret (Returned tt)
      else if override_event s then
        sleep (1 # 10) ;;
        autonomous passes'
      else
        dist <~ read_front_distance_cm ;;
        match dist with
        | None =>
            sleep (2 # 10) ;;
            autonomous passes'
        | Some dist =>
            if (dist <=? SAFE_DISTANCE_CM)%Z then
              print "[AUTO] Obstacle at {dist} cm → avoid" ;;
              d <~ ret (member "Backward") ;;
              _ <~ safe_move d 2 ;;
              sleep SLEEP_DURATION ;;
              d <~ ret (member "RightTurn") ;;
              _ <~ safe_move d 1 ;;
              sleep SLEEP_DURATION ;;
              autonomous passes'
            else
              d <~ ret (member "Forward") ;;
              _ <~ safe_move d STEP_SIZE ;;
              sleep SLEEP_DURATION ;;
              autonomous passes'
        end
  end.

(** [autonomous_loop], lines 82-106: the [finally] clause prints whether
    the loop has returned or raised. *)
Definition autonomous_loop (passes : nat) : Co (outcome unit) :=
  print "[AUTO] Started autonomous navigation." ;;
  r <- autonomous passes ;;
  print "[AUTO] Exiting autonomous loop." ;;
  ret r.

(** One of the four manual directions, lines 123-130. *)
Definition manual_move (name : string) : Co (outcome unit) :=
  d <~ ret (member name) ;;
  safe_move d STEP_SIZE.

(** The [while] loop of [manual_loop], lines 117-142, over the lines the
    operator types, each with the time the loop waits for it. *)
Fixpoint manual_lines (lines : list (Q * string)) : Co (outcome unit) :=
  match lines with
  | [] => ret (Returned tt)
  | (secs, text) :: rest =>
      s <- get ;;
      if override_event s && negb (shutdown_event s) then
        line <- _readline_async secs text ;;
        if String.eqb line "" then manual_lines rest
        else
          let cmd := lower (strip line) in
          if String.eqb cmd "w" then
            _ <~ manual_move "Forward" ;; manual_lines rest
          else if String.eqb cmd "s" then
            _ <~ manual_move "Backward" ;; manual_lines rest
          else if String.eqb cmd "a" then
            _ <~ manual_move "LeftTurn" ;; manual_lines rest
          else if String.eqb cmd "d" then
            _ <~ manual_move "RightTurn" ;; manual_lines rest
          else if String.eqb cmd "x" then
            stop_motion ;; manual_lines rest
          else if String.eqb cmd "o" then
            modify clear_override ;;
            print "[OVERRIDE] Released. Resuming autonomy." ;;
            ret (Returned tt)
          else if String.eqb cmd "q" then
            modify set_shutdown ;;
            print "[SYSTEM] Quit requested." ;;
            ret (Returned tt)
          else
            print "[OVERRIDE] Unknown command. Try: w s a d x | o | q" ;;
            manual_lines rest
      else ret (Returned tt)
  end.

(** [manual_loop], lines 115-142. *)
Definition manual_loop (lines : list (Q * string)) : Co (outcome unit) :=
  print "{HELP_TEXT}" ;;
  manual_lines lines.

(** ** The gateway *)


(** A call that is not suppressed builds its request with the step as it is
    given, does not sleep, and raises where it would send it. *)
Lemma override_safe_move_live (s : globals) d n :
  shutdown_event s = false ->
  exists e, safe_move d n s = (Raised e, s, []).
Proof.
  intros H. unfold safe_move. rewrite bind_get, H.
  unfold MoveRobot. destruct (0 <? n)%Z; eexists; reflexivity.
Qed.


Lemma manual_move_raises (name : string) (s : globals) :
  In name ["Forward"; "Backward"; "LeftTurn"; "RightTurn"]%string ->
  exists e, manual_move name s = (Raised e, s, []).
Proof.
  intros H. cbn [In] in H.
  destruct H as [<-|[<-|[<-|[<-|[]]]]]; eexists; reflexivity.
Qed.

End Script.

(** ** The autonomous loop *)

Section Autonomy.
Variable oversleep : Q -> Q.

(** X27. With the override engaged the autonomous loop reads no sensor and
    sends no command: each pass only sleeps a tenth of a second, and the
    run of [passes] passes is these sleeps and nothing else, one begun when
    the one before has ended; the loop returns with both flags as they were
    and the clock where the last sleep leaves it.  After a shutdown it does
    nothing. *)
Theorem autonomy_pauses_under_override (passes : nat) (s : globals) :
  (shutdown_event s = true -> autonomous oversleep passes s = (Returned tt, s, []))
  /\ (shutdown_event s = false -> override_event s = true ->
      autonomous oversleep passes s
      = (Returned tt, set_clock (paused_until oversleep passes (clock s)) s,
         pauses oversleep passes (clock s))
      /\ commands (pauses oversleep passes (clock s)) = []
      /\ List.length (pauses oversleep passes (clock s)) = passes).
Proof.
  split.
  - intros H. destruct passes as [|p]; [reflexivity|].
    cbn [autonomous]. rewrite bind_get, H. reflexivity.
  - intros Sh Ov. split; [|split].
    + revert s Sh Ov. induction passes as [|p IH]; intros s Sh Ov.
      * destruct s. reflexivity.
      * cbn [autonomous]. rewrite bind_get, Sh, Ov.
        rewrite (bind_run _ _ s
                   (eq_refl : sleep oversleep (1 # 10) s
                              = (tt, set_clock (clock s + (1 # 10)
                                                + oversleep (clock s)) s,
                                 [Sleep (clock s) (1 # 10)]))).
        rewrite IH by assumption. reflexivity.
    + generalize (clock s). induction passes as [|p IH]; intros t;
        [reflexivity|apply IH].
    + generalize (clock s). induction passes as [|p IH]; intros t;
        [reflexivity|cbn; rewrite IH; reflexivity].
Qed.

(** X28. With both flags clear the autonomous loop ends in its first pass:
    the sensor read raises where it would send its request, so that no
    distance is ever obtained and no command is sent, whatever the robot
    has in front of it.  [autonomous_loop] prints its two lines, the second
    from the [finally] clause, and raises the exception. *)
Theorem autonomy_ends_at_first_read (passes : nat) (s : globals) :
  shutdown_event s = false -> override_event s = false ->
  exists e,
    read_front_distance_cm s = (Raised e, s, [])
    /\ autonomous oversleep (S passes) s = (Raised e, s, [])
    /\ autonomous_loop oversleep (S passes) s
       = (Raised e, s,
          [Print "[AUTO] Started autonomous navigation.";
           Print "[AUTO] Exiting autonomous loop."]).
Proof.
  intros Sh Ov. eexists. split; [reflexivity|].
  assert (A : autonomous oversleep (S passes) s
              = (Raised "AttributeError: object has no attribute 'exec'", s, [])).
  { cbn [autonomous]. rewrite bind_get, Sh, Ov. reflexivity. }
  split; [exact A|].
  unfold autonomous_loop, bind, print, emit, ret. rewrite A. reflexivity.
Qed.
End Autonomy.

Lemma autonomy_pauses_under_override_witness :
  autonomous (fun _ => 0) 2 (overridden 100)
  = (Returned tt,
     set_clock (paused_until (fun _ => 0) 2 (clock (overridden 100))) (overridden 100),
     pauses (fun _ => 0) 2 (clock (overridden 100))).
Proof.
  apply (@autonomy_pauses_under_override (fun _ => 0) 2 (overridden 100));
    reflexivity.
Defined.

Lemma autonomy_ends_at_first_read_witness :
  exists e,
    read_front_distance_cm (mkGlobals false false 100)
    = (Raised e, mkGlobals false false 100, [])
    /\ autonomous (fun _ => 0) 3 (mkGlobals false false 100)
       = (Raised e, mkGlobals false false 100, [])
    /\ autonomous_loop (fun _ => 0) 3 (mkGlobals false false 100)
       = (Raised e, mkGlobals false false 100,
          [Print "[AUTO] Started autonomous navigation.";
           Print "[AUTO] Exiting autonomous loop."]).
Proof.
  exact (@autonomy_ends_at_first_read (fun _ => 0) 2 (mkGlobals false false 100)
           eq_refl eq_refl).
Defined.


(** ** The manual loop *)

Section Manual.






(** A line that is one of [w], [s], [a], [d], the override engaged: the
    direction it names is no member of the enumeration, so that the loop
    raises when the line has arrived, before the gateway is called, and
    reads no further line. *)
Lemma manual_line_raises (secs : Q) (text : string) (rest : list (Q * string))
      (s : globals) :
  override_event s = true -> shutdown_event s = false ->
  String.eqb text "" = false -> moves text = true ->
  exists e,
    manual_lines ((secs, text) :: rest) s
    = (Raised e, set_clock (clock s + secs) s, []).
Proof.
  intros Ov Sh N Mv. cbn [manual_lines]. rewrite bind_get, Ov, Sh. cbn [andb negb].
  rewrite (bind_run _ _ s (eq_refl : _readline_async secs text s
                                     = (text, set_clock (clock s + secs) s, []))).
  cbv beta. rewrite N. unfold moves in Mv. cbn [existsb] in Mv.
  destruct (String.eqb (lower (strip text)) "w") eqn:W; [eexists; reflexivity|].
  destruct (String.eqb (lower (strip text)) "s") eqn:S1; [eexists; reflexivity|].
  destruct (String.eqb (lower (strip text)) "a") eqn:A1; [eexists; reflexivity|].
  destruct (String.eqb (lower (strip text)) "d") eqn:D1; [eexists; reflexivity|].
  discriminate.
Qed.

End Manual.

(** C5, the code at the failing input.  In override the operator types
    [w]: the loop looks up [MoveRobotDirection.Forward], which the
    enumeration does not have, and raises; the second [w] is never read and
    no command reaches the robot, so nothing is clamped and nothing is
    rate-limited.  The same holds of [s], [a] and [d].  The gateway itself,
    given a member, has neither a clamp nor a limiter: a step of 9 is put in
    the request as 9, and a call that is not suppressed sleeps for nothing
    and changes no global before it raises at [req.exec()]. *)
Theorem manual_commands_never_dispatched :
  let lines := [(0, line_of "w"); (1 # 20, line_of "w")] in
  (exists e,
     manual_loop lines (overridden 100)
     = (Raised e, overridden 100, [Print "{HELP_TEXT}"]))
  /\ (forall secs text rest s,
        override_event s = true -> shutdown_event s = false ->
        String.eqb text "" = false -> moves text = true ->
        exists e,
          manual_lines ((secs, text) :: rest) s
          = (Raised e, set_clock (clock s + secs) s, []))
  /\ MoveRobot FORWARD 9 = Returned (mkRequest FORWARD 9)
  /\ (forall s d n,
        shutdown_event s = false ->
        exists e, safe_move d n s = (Raised e, s, [])).
Proof.
  cbv zeta. split; [eexists; reflexivity|].
  split; [apply manual_line_raises|].
  split; [reflexivity|].
  intros s d n H. apply override_safe_move_live. exact H.
Qed.

End Override.

(** * Properties that span the scripts *)

(** C1. A call of the gateway made while the e-stop flag is set returns at
    once, whatever the direction and the step: [safe_move_robot] prints that
    it ignores the command, [safe_move] of the battery script logs it and
    returns [False], [move_safe] of the posture script returns; the globals
    are as before and no command reaches the robot.  Nothing clears the
    flag, so this holds for every call made from then on: in a run of calls,
    sleeps and listener lines no command follows the line [e]. *)
Theorem estop_suppresses_every_dispatch :
  (forall robot oversleep (s : Corne.globals),
     Corne.estop_event s = true ->
     (forall d n,
        Corne.safe_move_robot robot oversleep d n s
        = (tt, s, [Print "[SAFETY] E-Stop set: ignoring move command."]))
     /\ (forall acts,
           commands (trace (Corne.run robot oversleep acts s)) = []
           /\ Corne.estop_event (final (Corne.run robot oversleep acts s)) = true))
  /\ (forall robot oversleep (s : Corne.globals) pre post,
        commands (trace (Corne.run robot oversleep
                           (pre ++ Corne.Operator (line_of "e") :: post) s))
        = commands (trace (Corne.run robot oversleep pre s)))
  /\ (forall robot oversleep (s : LowBattery.globals),
        LowBattery._estop s = true ->
        (forall d n,
           LowBattery.safe_move robot oversleep d n s
           = (Returned false, s, [Print "E-STOP active: ignoring move."]))
        /\ (forall acts,
              commands (trace (LowBattery.run robot oversleep acts s)) = []
              /\ LowBattery._estop (final (LowBattery.run robot oversleep acts s))
                 = true))
  /\ (forall robot oversleep (s : Posture.globals),
        Posture.estop_event s = true ->
        forall d n,
          Posture.move_safe robot oversleep d n s = (Returned tt, s, [])).
Proof.
  split; [|split; [|split]].
  - intros robot oversleep s H. split.
    + intros d n. apply Corne.safe_move_robot_suppressed. exact H.
    + intros acts.
      destruct (Corne.run_suppressed robot oversleep acts s H) as (C & E & _).
      split; assumption.
  - intros robot oversleep s pre post. apply Corne.run_after_estop.
  - intros robot oversleep s H. split.
    + intros d n. apply LowBattery.safe_move_suppressed. exact H.
    + intros acts.
      destruct (LowBattery.battery_run_suppressed robot oversleep acts s H)
        as (C & E & _).
      split; assumption.
  - intros robot oversleep s H d n. apply Posture.move_safe_suppressed. exact H.
Qed.

Lemma estop_suppresses_every_dispatch_witness :
  Corne.safe_move_robot Corne.steady_robot Corne.punctual Corne.BACKWARD 7
    (Corne.set_estop (Corne.initial 100))
  = (tt, Corne.set_estop (Corne.initial 100),
     [Print "[SAFETY] E-Stop set: ignoring move command."])
  /\ LowBattery.safe_move LowBattery.steady_robot LowBattery.punctual
       LowBattery.LEFTWARD 2 (LowBattery.set_estop (LowBattery.initial 100))
     = (Returned false, LowBattery.set_estop (LowBattery.initial 100),
        [Print "E-STOP active: ignoring move."])
  /\ Posture.move_safe Posture.steady_robot Posture.punctual Posture.FORWARD 1
       (Posture.set_estop (Posture.initial 100))
     = (Returned tt, Posture.set_estop (Posture.initial 100), []).
Proof.
  destruct estop_suppresses_every_dispatch as (C & _ & B & P).
  split; [|split].
  - apply (C Corne.steady_robot Corne.punctual
             (Corne.set_estop (Corne.initial 100)) eq_refl).
  - apply (B LowBattery.steady_robot LowBattery.punctual
             (LowBattery.set_estop (LowBattery.initial 100)) eq_refl).
  - apply (P Posture.steady_robot Posture.punctual
             (Posture.set_estop (Posture.initial 100)) eq_refl).
Defined.

(** C9, as amended.  The calls of the gateway are made in turn, each begun
    when the one before it has returned or raised.  The robot answering
    after a time that is not negative and no sleep ending early, a live call
    whose predecessor's time stamp is less than the floor ago sleeps for the
    remaining time, exactly, and then issues its command; a call that comes
    later issues it at once.  Whatever the calls, sleeps and operator lines
    in between, any two consecutive commands are at least the floor apart,
    and the first is at least the floor after the time stamp the calls start
    with.  This holds of [safe_move_robot] with [MIN_COMMAND_INTERVAL] and
    of [safe_move] of the battery script with [RATE_LIMIT_S], which writes
    its time stamp when the robot has answered. *)
Theorem rate_limit_floor :
  (forall robot oversleep,
     (forall t d n, 0 <= fst (robot t d n)) ->
     (forall t, 0 <= oversleep t) ->
     (forall (s : Corne.globals) d n,
        Corne.estop_event s = false ->
        trace (Corne.safe_move_robot robot oversleep d n s)
        = Corne.waiting s
          ++ Execute (Corne.issue_time oversleep s) d
               (Z.max 1 (Z.min n Corne.MAX_STEP))
             :: Corne.reported
                  (snd (robot (Corne.issue_time oversleep s) d
                          (Z.max 1 (Z.min n Corne.MAX_STEP))))
        /\ Corne._last_cmd_ts s + Corne.MIN_COMMAND_INTERVAL
           <= Corne.issue_time oversleep s
        /\ (Corne.clock s - Corne._last_cmd_ts s < Corne.MIN_COMMAND_INTERVAL ->
            Corne.waiting s
            = [Sleep (Corne.clock s)
                 (Corne.MIN_COMMAND_INTERVAL
                  - (Corne.clock s - Corne._last_cmd_ts s))]
            /\ Corne.issue_time oversleep s
               == Corne._last_cmd_ts s + Corne.MIN_COMMAND_INTERVAL
                  + oversleep (Corne.clock s))
        /\ (Corne.MIN_COMMAND_INTERVAL <= Corne.clock s - Corne._last_cmd_ts s ->
            Corne.waiting s = []
            /\ Corne.issue_time oversleep s = Corne.clock s))
     /\ (forall acts (s : Corne.globals),
           spaced Corne.MIN_COMMAND_INTERVAL (Corne._last_cmd_ts s)
             (issue_times (trace (Corne.run robot oversleep acts s)))))
  /\ (forall robot oversleep,
        (forall t d n, 0 <= fst (robot t d n)) ->
        (forall t, 0 <= oversleep t) ->
        (forall (s : LowBattery.globals) d n,
           LowBattery._estop s = false ->
           trace (LowBattery.safe_move robot oversleep d n s)
           = LowBattery.waiting s
             ++ [Execute (LowBattery.issue_time oversleep s) d
                   (LowBattery._clamp_steps n)]
           /\ LowBattery._last_move_ts s + LowBattery.RATE_LIMIT_S
              <= LowBattery.issue_time oversleep s
           /\ (LowBattery.clock s - LowBattery._last_move_ts s
               < LowBattery.RATE_LIMIT_S ->
               LowBattery.waiting s
               = [Sleep (LowBattery.clock s)
                    (LowBattery.RATE_LIMIT_S
                     - (LowBattery.clock s - LowBattery._last_move_ts s))]
               /\ LowBattery.issue_time oversleep s
                  == LowBattery._last_move_ts s + LowBattery.RATE_LIMIT_S
                     + oversleep (LowBattery.clock s))
           /\ (LowBattery.RATE_LIMIT_S
               <= LowBattery.clock s - LowBattery._last_move_ts s ->
               LowBattery.waiting s = []
               /\ LowBattery.issue_time oversleep s = LowBattery.clock s)
           /\ LowBattery._last_move_ts
                (final (LowBattery.safe_move robot oversleep d n s))
              = LowBattery.issue_time oversleep s
                + fst (robot (LowBattery.issue_time oversleep s) d
                         (LowBattery._clamp_steps n)))
        /\ (forall acts (s : LowBattery.globals),
              spaced LowBattery.RATE_LIMIT_S (LowBattery._last_move_ts s)
                (issue_times (trace (LowBattery.in_turn robot oversleep acts s)))
              /\ spaced LowBattery.RATE_LIMIT_S (LowBattery._last_move_ts s)
                   (issue_times (trace (LowBattery.run robot oversleep acts s))))).
Proof.
  split.
  - intros robot oversleep Hrobot Hov. split.
    + intros s d n E.
      rewrite Corne.safe_move_robot_live by assumption. cbv zeta.
      split; [reflexivity|].
      split; [apply Corne.issue_time_floor; assumption|].
      unfold Corne.waiting, Corne.issue_time. cbv zeta.
      split; intros L.
      * apply Qltb_lt in L. rewrite L. split; [reflexivity|]. ring.
      * apply Qltb_ge in L. rewrite L. split; reflexivity.
    + intros acts s. apply Corne.run_spaced; assumption.
  - intros robot oversleep Hrobot Hov. split.
    + intros s d n E.
      rewrite LowBattery.safe_move_live by assumption. cbv zeta.
      rewrite trace_of, final_of.
      split; [reflexivity|].
      split; [apply LowBattery.battery_issue_time_floor; assumption|].
      destruct (LowBattery.max0_spec
                  (LowBattery.RATE_LIMIT_S
                   - (LowBattery.clock s - LowBattery._last_move_ts s)))
        as (P & N & _).
      unfold LowBattery.waiting, LowBattery.issue_time. cbv zeta.
      split; [|split; [|reflexivity]]; intros L.
      * assert (G : 0 < LowBattery.RATE_LIMIT_S
                        - (LowBattery.clock s - LowBattery._last_move_ts s))
          by lra.
        rewrite (P G). apply Qltb_lt in G. rewrite G.
        split; [reflexivity|]. ring.
      * assert (G : LowBattery.RATE_LIMIT_S
                    - (LowBattery.clock s - LowBattery._last_move_ts s) <= 0)
          by lra.
        rewrite (N G). split; reflexivity.
    + intros acts s. split.
      * apply LowBattery.in_turn_spaced; assumption.
      * apply LowBattery.battery_run_spaced; assumption.
Qed.

Lemma rate_limit_floor_witness :
  spaced Corne.MIN_COMMAND_INTERVAL 0
    (issue_times
       (trace (Corne.run Corne.steady_robot Corne.punctual
                 [Corne.Dispatch Corne.FORWARD 9;
                  Corne.Dispatch Corne.LEFTWARD 1;
                  Corne.Await (1 # 10);
                  Corne.Dispatch Corne.FORWARD 1]
                 (Corne.initial 100))))
  /\ spaced LowBattery.RATE_LIMIT_S 0
       (issue_times
          (trace (LowBattery.in_turn LowBattery.steady_robot LowBattery.punctual
                    [LowBattery.Dispatch LowBattery.FORWARD 2;
                     LowBattery.Dispatch LowBattery.LEFTWARD 1]
                    (LowBattery.initial 100)))).
Proof.
  destruct rate_limit_floor as (C & B).
  assert (P : 0 <= 1 # 10) by (cbn; discriminate).
  split.
  - exact (proj2 (C Corne.steady_robot Corne.punctual (fun _ _ _ => P)
                    (fun _ => Qle_refl 0)) _ (Corne.initial 100)).
  - exact (proj1 (proj2 (B LowBattery.steady_robot LowBattery.punctual
                           (fun _ _ _ => P) (fun _ => Qle_refl 0))
                    _ (LowBattery.initial 100))).
Defined.

(** C2, the claim as stated fails: in the posture script one reading beyond
    the trip threshold (20 degrees, the threshold at 18) sends no command,
    reports no trip and starts no recovery; it only counts. *)
Lemma single_trip_reading_waits :
  let one := Posture.posture_monitor Posture.steady_robot Posture.punctual
               [(20, 0)] (Posture.initial 100) in
  Posture.tilt_level 20 0 = Hard
  /\ commands (trace one) = []
  /\ Posture.printed (trace one)
     = ["[MONITOR] Posture monitor running @ {SAMPLE_HZ} Hz | Mode: {mode}"%string]
  /\ Posture.confirmations Hard (trace one) = 0%nat
  /\ value one = Returned (0, 1)%Z.
Proof. repeat split. Qed.

(** C2, as amended. In the obstacle script a single filtered distance
    strictly below [HARD_STOP_CM] trips the hard stop in the same pass, with
    no debounce and whatever the counter of close readings: exactly one
    command is issued, backward by two steps, and the e-stop flag is set.  In
    the posture script the trip is debounced: a reading beyond
    [SAFE_TILT_TRIP] that does not complete [DEBOUNCE] in a row sends no
    command and reports nothing, and the one that completes it is reported
    once and starts the recovery sequence. *)
Theorem hard_stop_reaction :
  (forall robot oversleep (s : Corne.globals) (distance filt : Q),
     Corne.estop_event s = false ->
     0 < distance -> distance <= 5000 ->
     Corne.median
       (Corne.deque_append Corne.MEDIAN_WINDOW distance (Corne._distance_buf s))
     = Some filt ->
     filt < Corne.HARD_STOP_CM ->
     value (Corne.iteration robot oversleep (Some distance) s) = Break
     /\ Corne.estop_event
          (final (Corne.iteration robot oversleep (Some distance) s)) = true
     /\ commands (trace (Corne.iteration robot oversleep (Some distance) s))
        = [Execute (Corne.issue_time oversleep s) Corne.BACKWARD 2])
  /\ (forall robot oversleep (s : Posture.globals) (pitch roll : Q) (c : Z * Z),
        Posture.tilt_level pitch roll = Hard ->
        ((snd c + 1 < Posture.DEBOUNCE)%Z ->
         commands (trace (Posture.pass robot oversleep pitch roll c s)) = []
         /\ Posture.confirmations Hard
              (trace (Posture.pass robot oversleep pitch roll c s)) = 0%nat
         /\ value (Posture.pass robot oversleep pitch roll c s)
            = Returned (0, snd c + 1)%Z)
        /\ ((Posture.DEBOUNCE <= snd c + 1)%Z ->
            Posture.confirmations Hard
              (trace (Posture.pass robot oversleep pitch roll c s)) = 1%nat
            /\ exists after,
                 trace (Posture.pass robot oversleep pitch roll c s)
                 = Print Posture.TRIP_LINE :: Print Posture.RECOVERY_LINE
                   :: after)).
Proof.
  split.
  - intros robot oversleep s distance filt E Hpos Hmax Hmed Hhard.
    apply (Corne.hard_stop_pass robot oversleep s E Hpos Hmax Hmed Hhard).
  - intros robot oversleep s pitch roll c Hl. split.
    + intros B. apply Posture.trip_waits; assumption.
    + intros B. apply Posture.trip_confirmed; assumption.
Qed.

Lemma hard_stop_reaction_witness :
  (value (Corne.iteration Corne.steady_robot Corne.punctual (Some 5)
            (Corne.set_distance_buf [30; 4] (Corne.initial 100))) = Break
   /\ Corne.estop_event
        (final (Corne.iteration Corne.steady_robot Corne.punctual (Some 5)
                  (Corne.set_distance_buf [30; 4] (Corne.initial 100)))) = true
   /\ commands
        (trace (Corne.iteration Corne.steady_robot Corne.punctual (Some 5)
                  (Corne.set_distance_buf [30; 4] (Corne.initial 100))))
      = [Execute 100 Corne.BACKWARD 2])
  /\ commands
       (trace (Posture.pass Posture.steady_robot Posture.punctual 20 0
                 (0, 0)%Z (Posture.initial 100))) = [].
Proof.
  destruct hard_stop_reaction as (C & P).
  split.
  - apply (C Corne.steady_robot Corne.punctual
             (Corne.set_distance_buf [30; 4] (Corne.initial 100)) 5 5);
      decide_closed.
  - apply (P Posture.steady_robot Posture.punctual (Posture.initial 100)
             20 0 (0, 0)%Z eq_refl).
    reflexivity.
Defined.

(** C3, as amended. In the obstacle script the hard stop backs off once and
    then sets the e-stop flag: the loop ends, it reads no further sample,
    and every later call of the gateway is suppressed, so that the hard
    stop is terminal.  In the posture script a confirmed trip is followed
    by the recovery sequence, which is started in the same pass. *)
Theorem hard_stop_recovery :
  (forall robot oversleep (s : Corne.globals) (distance filt : Q),
     Corne.estop_event s = false ->
     0 < distance -> distance <= 5000 ->
     Corne.median
       (Corne.deque_append Corne.MEDIAN_WINDOW distance (Corne._distance_buf s))
     = Some filt ->
     filt < Corne.HARD_STOP_CM ->
     let s' := final (Corne.iteration robot oversleep (Some distance) s) in
     commands (trace (Corne.iteration robot oversleep (Some distance) s))
     = [Execute (Corne.issue_time oversleep s) Corne.BACKWARD 2]
     /\ value (Corne.iteration robot oversleep (Some distance) s) = Break
     /\ Corne.estop_event s' = true
     /\ (forall rest,
           Corne.avoid_obstacles robot oversleep (Some distance :: rest) s
           = (tt, s', trace (Corne.iteration robot oversleep (Some distance) s)))
     /\ (forall readings,
           Corne.avoid_obstacles robot oversleep readings s' = (tt, s', []))
     /\ (forall acts,
           commands (trace (Corne.run robot oversleep acts s')) = []))
  /\ (forall robot oversleep (s : Posture.globals) (pitch roll : Q) (c : Z * Z),
        Posture.tilt_level pitch roll = Hard ->
        (Posture.DEBOUNCE <= snd c + 1)%Z ->
        exists after,
          trace (Posture.pass robot oversleep pitch roll c s)
          = Print Posture.TRIP_LINE :: Print Posture.RECOVERY_LINE :: after).
Proof.
  split.
  - intros robot oversleep s distance filt E Hpos Hmax Hmed Hhard s'.
    destruct (Corne.hard_stop_pass robot oversleep s E Hpos Hmax Hmed Hhard)
      as (V & E' & C).
    destruct (Corne.hard_stop_latches robot oversleep s E Hpos Hmax Hmed Hhard)
      as (L & R).
    split; [exact C|]. split; [exact V|]. split; [exact E'|].
    split; [|split; assumption].
    intros rest. cbn [Corne.avoid_obstacles]. rewrite bind_get, E.
    unfold bind, ret. subst s'. unfold value, final, trace in *.
    destruct (Corne.iteration robot oversleep (Some distance) s) as [[v s1] t1].
    cbn [fst snd] in *. subst v. rewrite app_nil_r. reflexivity.
  - intros robot oversleep s pitch roll c Hl B.
    apply Posture.trip_confirmed; assumption.
Qed.

Lemma hard_stop_recovery_witness :
  let s := Corne.set_distance_buf [30; 4] (Corne.initial 100) in
  let s' := final (Corne.iteration Corne.steady_robot Corne.punctual (Some 5) s) in
  commands (trace (Corne.iteration Corne.steady_robot Corne.punctual (Some 5) s))
  = [Execute 100 Corne.BACKWARD 2]
  /\ Corne.estop_event s' = true
  /\ commands (trace (Corne.run Corne.steady_robot Corne.punctual
                        [Corne.Dispatch Corne.FORWARD 1] s')) = [].
Proof.
  destruct hard_stop_recovery as (C & _).
  destruct (C Corne.steady_robot Corne.punctual
              (Corne.set_distance_buf [30; 4] (Corne.initial 100)) 5 5)
    as (O & _ & E & _ & _ & R); try decide_closed.
  split; [exact O|]. split; [exact E|apply R].
Defined.

(** C7, the code at the failing input.  Trip readings in a row, the e-stop
    flag clear: the trip counter counts them over the passes of the loop,
    and the one that completes [DEBOUNCE] is reported.  The recovery that
    follows raises in its first [move_safe], where the API object is built
    with its arguments in the wrong places: line 193, which puts the trip
    counter back to zero, is never reached, the monitor ends with the
    exception, no command has been sent and no later reading is looked
    at. *)
Theorem confirmed_trip_is_never_reset :
  forall robot oversleep (s : Posture.globals) (readings : list (Q * Q))
         (pitch roll : Q) (rest : list (Q * Q)) (c : Z * Z),
    Posture.estop_event s = false ->
    Posture.all_level Hard readings ->
    Posture.tilt_level pitch roll = Hard ->
    (snd c + Z.of_nat (List.length readings) + 1 = Posture.DEBOUNCE)%Z ->
    let r := Posture.monitor robot oversleep
               (readings ++ (pitch, roll) :: rest) c s in
    (exists e, value r = Raised e)
    /\ Posture.printed (trace r) = [Posture.TRIP_LINE; Posture.RECOVERY_LINE]
    /\ commands (trace r) = []
    /\ (forall c', value r <> Returned c').
Proof.
  intros robot oversleep s readings pitch roll rest c E A Hl B r.
  destruct (@Posture.trip_streak_confirmed robot oversleep readings pitch roll
              rest c s E A Hl B) as (V & P & C).
  subst r. split; [eexists; exact V|]. split; [exact P|]. split; [exact C|].
  intros c'. rewrite V. discriminate.
Qed.

Lemma confirmed_trip_is_never_reset_witness :
  let r := Posture.monitor Posture.steady_robot Posture.punctual
             ([(20, 0); (0, -19)] ++ (20, 0) :: [(0, 0); (0, 0)])
             (0, 0)%Z (Posture.initial 100) in
  (exists e, value r = Raised e)
  /\ Posture.printed (trace r) = [Posture.TRIP_LINE; Posture.RECOVERY_LINE]
  /\ commands (trace r) = [].
Proof.
  destruct (@confirmed_trip_is_never_reset Posture.steady_robot Posture.punctual
              (Posture.initial 100) [(20, 0); (0, -19)] 20 0 [(0, 0); (0, 0)]
              (0, 0)%Z) as (V & P & C & _).
  - reflexivity.
  - repeat constructor.
  - reflexivity.
  - reflexivity.
  - split; [exact V|]. split; [exact P|exact C].
Defined.

(** C8, as amended. The obstacle script takes a filtered distance as hard
    exactly when it is strictly below [HARD_STOP_CM]: these are the values
    on which the loop ends.  It takes it as soft exactly when it is at least
    [HARD_STOP_CM] and strictly below [SAFE_DISTANCE_CM]: these are the
    values it counts as close readings, the counter going up by one or the
    obstacle being confirmed.  It takes it as clear otherwise: these are the
    values that zero the counter.  So a filtered distance equal to
    [HARD_STOP_CM] is soft, not hard.  The posture script takes a reading as
    hard exactly when the absolute pitch or roll is at least
    [SAFE_TILT_TRIP], as soft when neither is but one is at least
    [SAFE_TILT_WARN], and as clear otherwise: below [DEBOUNCE] a hard
    reading adds one to the trip counter and zeroes the warn counter, a soft
    one adds one to the warn counter and zeroes the trip counter, and a
    clear one zeroes both. *)
Theorem hazard_classification :
  (forall robot oversleep (s : Corne.globals) (filt : Q),
     Corne.estop_event s = false ->
     (0 <= Corne._consecutive_close s)%Z ->
     let r := Corne.react robot oversleep filt s in
     (filt < Corne.HARD_STOP_CM <-> value r = Break)
     /\ (Corne.HARD_STOP_CM <= filt /\ filt < Corne.SAFE_DISTANCE_CM
         <-> value r = Next
             /\ (In (Print Corne.CONFIRM_LINE) (trace r)
                 \/ Corne._consecutive_close (final r)
                    = (Corne._consecutive_close s + 1)%Z))
     /\ (Corne.SAFE_DISTANCE_CM <= filt
         <-> value r = Next
             /\ ~ In (Print Corne.CONFIRM_LINE) (trace r)
             /\ Corne._consecutive_close (final r) = 0%Z))
  /\ (forall robot oversleep (s : Posture.globals) (pitch roll : Q) (c : Z * Z),
        (0 <= fst c)%Z -> (0 <= snd c)%Z ->
        (fst c + 1 < Posture.DEBOUNCE)%Z -> (snd c + 1 < Posture.DEBOUNCE)%Z ->
        let v := value (Posture.pass robot oversleep pitch roll c s) in
        (Posture.SAFE_TILT_TRIP <= Qabs pitch
         \/ Posture.SAFE_TILT_TRIP <= Qabs roll
         <-> v = Returned (0, snd c + 1)%Z)
        /\ ((Qabs pitch < Posture.SAFE_TILT_TRIP
             /\ Qabs roll < Posture.SAFE_TILT_TRIP)
            /\ (Posture.SAFE_TILT_WARN <= Qabs pitch
                \/ Posture.SAFE_TILT_WARN <= Qabs roll)
            <-> v = Returned (fst c + 1, 0)%Z)
        /\ (Qabs pitch < Posture.SAFE_TILT_WARN
            /\ Qabs roll < Posture.SAFE_TILT_WARN
            <-> v = Returned (0, 0)%Z)).
Proof.
  split.
  - intros robot oversleep s filt E C0 r. subst r.
    pose proof (Corne.react_value robot oversleep s filt) as V.
    destruct (Qltb filt Corne.HARD_STOP_CM) eqn:H;
      [apply Qltb_lt in H | apply Qltb_ge in H].
    + rewrite V. unfold Corne.HARD_STOP_CM, Corne.SAFE_DISTANCE_CM in *.
      split; [split; auto|].
      split; (split; [intros; exfalso; lra|intros [D _]; discriminate]).
    + split; [rewrite V; split; [unfold Corne.HARD_STOP_CM in *; intros; exfalso; lra
                                |discriminate]|].
      destruct (Qltb filt Corne.SAFE_DISTANCE_CM) eqn:S;
        [apply Qltb_lt in S | apply Qltb_ge in S].
      * assert (Cn : Corne.counted filt s = (Corne._consecutive_close s + 1)%Z).
        { unfold Corne.counted. apply Qltb_lt in S. rewrite S. reflexivity. }
        destruct (Z_le_gt_dec Corne.OBSTACLE_CONFIRM_READS
                    (Corne.counted filt s)) as [B|B].
        -- destruct (Corne.react_confirmed robot oversleep s E H B)
             as (Vn & Z0 & _ & t1 & t2 & _ & I).
           split; [split; [intros _; split; [exact Vn|left; exact I]
                          |intros _; split; assumption]|].
           split; [intros; exfalso; unfold Corne.SAFE_DISTANCE_CM in *; lra|].
           intros (_ & N & _). contradiction.
        -- destruct (Corne.react_pending robot oversleep s E H) as (Vn & Cf & _ & _ & N);
             [lia|].
           split; [split; [intros _; split; [exact Vn|right; rewrite Cf; exact Cn]
                          |intros _; split; assumption]|].
           split; [intros; exfalso; unfold Corne.SAFE_DISTANCE_CM in *; lra|].
           intros (_ & _ & Z0). rewrite Cf, Cn in Z0. lia.
      * assert (Cn : Corne.counted filt s = 0%Z).
        { unfold Corne.counted. apply Qltb_ge in S. rewrite S. reflexivity. }
        destruct (Corne.react_pending robot oversleep s E H) as (Vn & Cf & _ & _ & N);
          [rewrite Cn; reflexivity|].
        split.
        -- split; [intros [_ L]; exfalso; unfold Corne.SAFE_DISTANCE_CM in *; lra|].
           intros (_ & [I|K]); [contradiction|].
           rewrite Cf, Cn in K. lia.
        -- split; [|intros _; exact S].
           intros _. split; [exact Vn|]. split; [exact N|].
           rewrite Cf. exact Cn.
  - intros robot oversleep s pitch roll c W0 T0 W T v. subst v.
    destruct (Posture.pass_facts robot oversleep s pitch roll c)
      as (_ & _ & _ & _ & V).
    destruct (Posture.tilt_level_spec pitch roll) as (SH & SS & SC).
    assert (St : Posture.settled (fst c + 1) = (fst c + 1)%Z).
    { unfold Posture.settled. apply Z.leb_gt in W. rewrite W. reflexivity. }
    unfold Posture.bumped in V.
    destruct (Posture.tilt_level pitch roll) eqn:L; cbn [fst snd] in V.
    + rewrite V by reflexivity. change (Posture.settled 0) with 0%Z.
      split; [|split].
      * split; [intros K; apply SH in K; discriminate|].
        intros K. injection K as K. lia.
      * split; [intros K; apply SS in K; discriminate|].
        intros K. injection K as K. lia.
      * split; [reflexivity|]. intros _. apply SC. reflexivity.
    + rewrite V by reflexivity. rewrite St.
      split; [|split].
      * split; [intros K; apply SH in K; discriminate|].
        intros K. injection K as K. lia.
      * split; [reflexivity|]. intros _. apply SS. reflexivity.
      * split; [intros K; apply SC in K; discriminate|].
        intros K. injection K as K. lia.
    + rewrite V by exact T. change (Posture.settled 0) with 0%Z.
      split; [|split].
      * split; [reflexivity|]. intros _. apply SH. reflexivity.
      * split; [intros K; apply SS in K; discriminate|].
        intros K. injection K as K. lia.
      * split; [intros K; apply SC in K; discriminate|].
        intros K. injection K as K. lia.
Qed.

Lemma hazard_classification_witness :
  value (Corne.react Corne.steady_robot Corne.punctual 8 (Corne.initial 100))
  = Next
  /\ Corne._consecutive_close
       (final (Corne.react Corne.steady_robot Corne.punctual 8
                 (Corne.initial 100))) = 1%Z
  /\ value (Posture.pass Posture.steady_robot Posture.punctual (-18) 0 (1, 0)%Z
              (Posture.initial 100)) = Returned (0, 1)%Z.
Proof.
  destruct hazard_classification as (C & P).
  destruct (C Corne.steady_robot Corne.punctual (Corne.initial 100) 8 eq_refl)
    as (_ & S & _); [cbn; lia|].
  destruct (proj1 S) as (V & [I|K]);
    [split; [cbv; discriminate|cbv; reflexivity]| |].
  - exfalso. cbn in I.
    repeat (destruct I as [I|I]; [discriminate|]). exact I.
  - split; [exact V|]. split; [exact K|].
    destruct (P Posture.steady_robot Posture.punctual (Posture.initial 100)
                (-18) 0 (1, 0)%Z) as (H & _);
      try (unfold Posture.DEBOUNCE; cbn; lia).
    apply H. left. cbv. discriminate.
Defined.
